(** * Payment Settlement Core of the Zcash paywall backend

    A shallow embedding of
      - [backend/src/config/zcash.js]   (the chain RPC gateway),
      - [backend/dist/utils/retry.cjs]  (retry with exponential backoff),
      - [backend/schema.sql]            (tables and views),
      - the [/health] route, [backend/dist/config.cjs] and
        [backend/dist/utils/config-fetcher.cjs],
    followed by the properties established about them.

    Conventions.
      - JavaScript values are the JSON-shaped fragment the gateway handles;
        a number is an integer ([JNum]) or a decimal fraction ([JDec]).
      - An [async] function is a state transformer over the chronological
        log of the effects it performed (requests, sleeps, callback calls);
        it completes normally, throws, or (for a loop driven by fuel) runs
        out of fuel.
      - [DECIMAL(16,8)] amounts are integers counting units of 10^-8 ZEC. *)

From Stdlib Require Import ZArith List String Ascii Bool Lia DecimalString.
Import ListNotations.

Local Open Scope Z_scope.

(* ===================================================================== *)
(** ** JavaScript values                                                  *)
(* ===================================================================== *)

#[warnings="-register-all"]
Inductive JsValue : Type :=
| JUndefined
| JNull
| JBool (b : bool)
| JNum (n : Z)                       (* an integer *)
| JDec (digits : Z) (places : nat)   (* digits / 10^places: 0.0001 is [JDec 1 4] *)
| JStr (s : string)
| JArr (xs : list JsValue)
| JObj (fields : list (string * JsValue)).

(** How an evaluation ends: a value, a thrown value, or an exhausted loop
    budget of the model (never produced by JavaScript itself). *)
Inductive Completion (A : Type) : Type :=
| Return (a : A)
| Throw (e : JsValue)
| OutOfFuel.

Arguments Return {A} a.
Arguments Throw {A} e.
Arguments OutOfFuel {A}.

Definition decimal (n : Z) : string := NilZero.string_of_int (Z.to_int n).

(** The digits of a fraction that count: zeros at its end do not. *)
Fixpoint significant (digits : Z) (places : nat) : Z * nat :=
  match places with
  | O => (digits, O)
  | S places' =>
      if digits mod 10 =? 0 then significant (digits / 10) places'
      else (digits, places)
  end.

Definition zeros (n : nat) : string := string_of_list_ascii (repeat "0"%char n).

(** How a number [digits / 10^places] is written ([Number::toString]): with
    [k] significant digits of which [p] follow the point, as [12.5] when
    [p < k], as [0.00125] when fewer than six zeros follow the point, and
    with an exponent ([1.25e-7]) below that.  (A fraction has at most 17
    significant digits, so its integer part stays below 10^21.) *)
Definition decimal_fraction (digits : Z) (places : nat) : string :=
  let '(m, p) := significant digits places in
  match p with
  | O => decimal m
  | S _ =>
      let sign := if (m <? 0)%Z then "-"%string else ""%string in
      let s := decimal (Z.abs m) in
      let k := String.length s in
      if (p <? k)%nat then
        (sign ++ substring 0 (k - p) s ++ "." ++ substring (k - p) p s)%string
      else if (p - k <? 6)%nat then
        (sign ++ "0." ++ zeros (p - k) ++ s)%string
      else
        (sign ++ substring 0 1 s
         ++ (if (1 <? k)%nat then "." ++ substring 1 (k - 1) s else "")
         ++ "e-" ++ decimal (Z.of_nat (p - k + 1)))%string
  end.

(** [new Error(msg)] *)
Definition new_Error (msg : string) : JsValue :=
  JObj [("name", JStr "Error"); ("message", JStr msg)]%string.

Fixpoint lookup_field (k : string) (fields : list (string * JsValue)) : JsValue :=
  match fields with
  | [] => JUndefined
  | (k', v) :: rest => if String.eqb k k' then v else lookup_field k rest
  end.

(** The string a template literal [`${v}`] produces.  (An integer is
    written with all its digits, as JavaScript does below 10^21.) *)
Fixpoint to_string (v : JsValue) : string :=
  match v with
  | JUndefined => "undefined"
  | JNull => "null"
  | JBool true => "true"
  | JBool false => "false"
  | JNum n => decimal n
  | JDec digits places => decimal_fraction digits places
  | JStr s => s
  | JArr xs =>
      let element (x : JsValue) : string :=
        match x with
        | JUndefined | JNull => ""
        | _ => to_string x
        end in
      String.concat "," (map element xs)
  | JObj _ => "[object Object]"
  end%string.

(** The [TypeError] the engine raises on [undefined.k] and [null.k]. *)
Definition type_error (v : JsValue) (k : string) : JsValue :=
  JObj [("name", JStr "TypeError");
        ("message", JStr ("Cannot read properties of " ++ to_string v
                          ++ " (reading '" ++ k ++ "')"))]%string.

(** [v.k] for a property name [k].  None of the names the sources read
    ([data], [error], [message], [result], [response], [status],
    [statusText], [code]) is defined on a built-in prototype, so on
    primitives and arrays the access yields [undefined]. *)
Definition get_prop (v : JsValue) (k : string) : Completion JsValue :=
  match v with
  | JUndefined | JNull => Throw (type_error v k)
  | JObj fields => Return (lookup_field k fields)
  | JBool _ | JNum _ | JDec _ _ | JStr _ | JArr _ => Return JUndefined
  end.

(** [v[i]] for a literal index [i]. *)
Definition get_index (v : JsValue) (i : nat) : Completion JsValue :=
  match v with
  | JUndefined | JNull => Throw (type_error v (decimal (Z.of_nat i)))
  | JArr xs => Return (nth i xs JUndefined)
  | JStr s =>
      Return match String.get i s with
             | Some c => JStr (String c EmptyString)
             | None => JUndefined
             end
  | JObj fields => Return (lookup_field (decimal (Z.of_nat i)) fields)
  | JBool _ | JNum _ | JDec _ _ => Return JUndefined
  end.

(** Truthiness, as tested by [if (v)]. *)
Definition truthy (v : JsValue) : bool :=
  match v with
  | JUndefined | JNull => false
  | JBool b => b
  | JNum n => negb (n =? 0)
  | JDec digits _ => negb (digits =? 0)
  | JStr s => negb (String.eqb s "")
  | JArr _ | JObj _ => true
  end.

(** The value bound to a parameter declared with a default
    ([minconf = 0]): the default stands in for an argument that is omitted
    or [undefined]. *)
Definition default_to (argument default : JsValue) : JsValue :=
  match argument with
  | JUndefined => default
  | _ => argument
  end.

(** [v === 'literal'] *)
Definition strict_eq_str (v : JsValue) (literal : string) : bool :=
  match v with
  | JStr s => String.eqb s literal
  | _ => false
  end.

(* ===================================================================== *)
(** ** Effects: the log and the [async] monad                             *)
(* ===================================================================== *)

(** The body of the JSON-RPC request posted to the node.  The [jsonrpc]
    field is the constant ['1.0']; the [id] field is a timestamp that no
    code path reads back. *)
Record Request : Type := mkRequest {
  rq_method : string;
  rq_params : JsValue
}.

(** How the promise returned by a callback settles. *)
Inductive Settled : Type :=
| Resolves (value : JsValue)
| Rejects (error : JsValue).

Inductive Event : Type :=
| EvPost (req : Request)            (* one [axios.post] to the node *)
| EvSleep (ms : Z)                  (* one awaited [setTimeout(_, ms)] *)
| EvCall (outcome : Settled).       (* one call of a callback *)

Definition World : Type := list Event.

Definition Async (A : Type) : Type := World -> Completion A * World.

Definition ret {A} (a : A) : Async A := fun w => (Return a, w).

Definition throw {A} (e : JsValue) : Async A := fun w => (Throw e, w).

Definition out_of_fuel {A} : Async A := fun w => (OutOfFuel, w).

Definition bind {A B} (m : Async A) (k : A -> Async B) : Async B :=
  fun w =>
    match m w with
    | (Return a, w') => k a w'
    | (Throw e, w') => (Throw e, w')
    | (OutOfFuel, w') => (OutOfFuel, w')
    end.

(** [try { m } catch (error) { handler error }] *)
Definition try_catch {A} (m : Async A) (handler : JsValue -> Async A) : Async A :=
  fun w =>
    match m w with
    | (Throw e, w') => handler e w'
    | other => other
    end.

Definition lift {A} (c : Completion A) : Async A := fun w => (c, w).

(** [await new Promise(resolve => setTimeout(resolve, ms))] *)
Definition sleep (ms : Z) : Async unit := fun w => (Return tt, w ++ [EvSleep ms]).

Declare Scope async_scope.
Delimit Scope async_scope with async.
Notation "x <- m ;; k" := (bind m (fun x => k))
  (at level 61, m at next level, right associativity) : async_scope.
Notation "m ;;; k" := (bind m (fun _ => k))
  (at level 61, right associativity) : async_scope.

Definition prop (v : JsValue) (k : string) : Async JsValue := lift (get_prop v k).
Definition index (v : JsValue) (i : nat) : Async JsValue := lift (get_index v i).

Definition count_posts (w : World) : nat :=
  List.length (filter (fun e => match e with EvPost _ => true | _ => false end) w).

Definition count_calls (w : World) : nat :=
  List.length (filter (fun e => match e with EvCall _ => true | _ => false end) w).

Definition sleeps (w : World) : list Z :=
  flat_map (fun e => match e with EvSleep ms => [ms] | _ => [] end) w.

(* ===================================================================== *)
(** ** The HTTP client, as the gateway sees it                            *)
(* ===================================================================== *)

(** What one [axios.post] does under the default [validateStatus]: it
    fulfils with the response when the status is 2xx, rejects with an error
    carrying [response] on any other status, and rejects with an error
    without [response] when no response arrived (refused connection, DNS
    failure, the 30 s timeout). *)
Inductive AxiosOutcome : Type :=
| Fulfilled (status : Z) (statusText : string) (data : JsValue)
| RejectedStatus (message : string) (status : Z) (statusText : string) (data : JsValue)
| RejectedNoResponse (message : string).

Definition response_object (status : Z) (statusText : string) (data : JsValue) : JsValue :=
  JObj [("status", JNum status); ("statusText", JStr statusText); ("data", data)]%string.

Definition axios_completion (o : AxiosOutcome) : Completion JsValue :=
  match o with
  | Fulfilled status statusText data =>
      Return (response_object status statusText data)
  | RejectedStatus message status statusText data =>
      Throw (JObj [("name", JStr "AxiosError"); ("message", JStr message);
                   ("response", response_object status statusText data)]%string)
  | RejectedNoResponse message =>
      Throw (JObj [("name", JStr "AxiosError"); ("message", JStr message)]%string)
  end.

(** The node: its answer to a request may depend on everything that
    happened before (earlier requests and the time slept). *)
Definition Node : Type := World -> Request -> AxiosOutcome.

(* ===================================================================== *)
(** ** backend/src/config/zcash.js                                        *)
(* ===================================================================== *)

Section Gateway.

Variable node : Node.

Local Open Scope string_scope.
Local Open Scope list_scope.
Local Open Scope Z_scope.
Local Open Scope async_scope.

Definition axios_post (req : Request) : Async JsValue :=
  fun w => (axios_completion (node w req), w ++ [EvPost req]).

(** The [try] block of [zcashRpc]. *)
Definition rpc_try (method : string) (params : JsValue) : Async JsValue :=
  response <- axios_post (mkRequest method params) ;;
  data <- prop response "data" ;;
  error <- prop data "error" ;;
  if truthy error then
    message <- prop error "message" ;;
    throw (new_Error ("Zcash RPC Error: " ++ to_string message)%string)
  else
    data' <- prop response "data" ;;
    prop data' "result".

(** The [catch (error)] block of [zcashRpc]. *)
Definition rpc_catch (error : JsValue) : Async JsValue :=
  response <- prop error "response" ;;
  if truthy response then
    status <- prop response "status" ;;
    statusText <- prop response "statusText" ;;
    throw (new_Error ("Zcash RPC HTTP Error: " ++ to_string status
                      ++ " - " ++ to_string statusText)%string)
  else
    message <- prop error "message" ;;
    throw (new_Error ("Zcash RPC Connection Error: " ++ to_string message)%string).

(** [zcashRpc(method, params = [])]; [params] is the value the body sees,
    the callers below that leave the argument out pass the default [[]]. *)
Definition zcashRpc (method : string) (params : JsValue) : Async JsValue :=
  try_catch (rpc_try method params) rpc_catch.

Definition generateZAddress : Async JsValue :=
  zcashRpc "z_getnewaddress" (JArr []).

(** [getReceivedByAddress(address, minconf = 0)] *)
Definition getReceivedByAddress (address : JsValue) (minconf : JsValue) : Async JsValue :=
  let minconf := default_to minconf (JNum 0) in
  zcashRpc "z_listreceivedbyaddress" (JArr [minconf; JArr [address]]).

(** [sendMany(recipients, minconf = 1, fee = 0.0001)] *)
Definition sendMany (recipients minconf fee : JsValue) : Async JsValue :=
  let minconf := default_to minconf (JNum 1) in
  let fee := default_to fee (JDec 1 4) in
  zcashRpc "z_sendmany" (JArr [JStr ""; recipients; minconf; fee]).

Definition getOperationStatus (opid : string) : Async JsValue :=
  operations <- zcashRpc "z_getoperationstatus" (JArr [JArr [JStr opid]]) ;;
  index operations 0.

(** The test [status.status !== 'executing' && status.status !== 'queued']. *)
Definition is_final (st : JsValue) : bool :=
  negb (strict_eq_str st "executing") && negb (strict_eq_str st "queued").

Definition timeout_error (opid : string) (maxAttempts : Z) : JsValue :=
  new_Error ("Operation " ++ opid ++ " timed out after "
             ++ decimal maxAttempts ++ " attempts")%string.

(** The [for (let i = 0; i < maxAttempts; i++)] loop, from counter [i];
    [fuel] bounds the number of iterations the model may unfold. *)
Fixpoint waitLoop (fuel : nat) (opid : string) (maxAttempts interval i : Z)
  : Async JsValue :=
  if i <? maxAttempts then
    match fuel with
    | O => out_of_fuel
    | S fuel' =>
        status <- getOperationStatus opid ;;
        st <- prop status "status" ;;
        if is_final st then ret status
        else
          sleep interval ;;;
          waitLoop fuel' opid maxAttempts interval (i + 1)
    end
  else throw (timeout_error opid maxAttempts).

(** [waitForOperation(opid, maxAttempts = 50, interval = 2500)], given the
    two numbers. *)
Definition waitForOperation (opid : string) (maxAttempts interval : Z) : Async JsValue :=
  waitLoop (Z.to_nat maxAttempts) opid maxAttempts interval 0.

Definition getBlockchainInfo : Async JsValue :=
  zcashRpc "getblockchaininfo" (JArr []).

Definition validateAddress (address : JsValue) : Async JsValue :=
  zcashRpc "validateaddress" (JArr [address]).

End Gateway.

(** The request [getOperationStatus] posts. *)
Definition status_query (opid : string) : Request :=
  mkRequest "z_getoperationstatus" (JArr [JArr [JStr opid]]).

(** What [k] unfinished polling rounds append to the log. *)
Fixpoint polls (req : Request) (interval : Z) (k : nat) : World :=
  match k with
  | O => []
  | S k' => EvPost req :: EvSleep interval :: polls req interval k'
  end.

(** What [getOperationStatus] yields at polling round [k] (from 0) of a
    [waitForOperation] started in [w], the rounds before it unfinished. *)
Definition observation (node : Node) (opid : string) (interval : Z) (w : World)
    (k : nat) : Completion JsValue :=
  fst (getOperationStatus node opid (w ++ polls (status_query opid) interval k)).

(** Round [k] observes an operation object whose [status] is [st]. *)
Definition observes (node : Node) (opid : string) (interval : Z) (w : World)
    (k : nat) (operation st : JsValue) : Prop :=
  observation node opid interval w k = Return operation
  /\ get_prop operation "status" = Return st.

(** Round [k] observes an operation that is still queued or executing. *)
Definition pending_round (node : Node) (opid : string) (interval : Z) (w : World)
    (k : nat) : Prop :=
  exists operation st,
    observes node opid interval w k operation st
    /\ (st = JStr "queued" \/ st = JStr "executing").

(** One polling round, as the body of the loop in [waitForOperation] runs
    it.  (Neither [getOperationStatus] nor a property read runs out of
    fuel; those branches below are never taken.) *)
Inductive Round : Type :=
| RoundFinal (operation : JsValue)   (* a status other than executing/queued *)
| RoundPending                       (* executing or queued: sleep, go on *)
| RoundThrows (e : JsValue).         (* the query or [status.status] threw *)

Definition round_of (node : Node) (opid : string) (w : World) : Round :=
  match fst (getOperationStatus node opid w) with
  | Return operation =>
      match get_prop operation "status" with
      | Return st => if is_final st then RoundFinal operation else RoundPending
      | Throw e => RoundThrows e
      | OutOfFuel => RoundPending
      end
  | Throw e => RoundThrows e
  | OutOfFuel => RoundPending
  end.

(* ===================================================================== *)
(** ** backend/dist/utils/retry.cjs                                       *)
(* ===================================================================== *)

(** The callback [fn]: how its promise settles may depend on everything
    that happened before the call. *)
Definition Callback : Type := World -> Settled.

Section Retry.

Variable fn : Callback.

Local Open Scope string_scope.
Local Open Scope list_scope.
Local Open Scope Z_scope.
Local Open Scope async_scope.

(** [await fn()], observed without unwinding. *)
Definition call_fn : Async Settled :=
  fun w => (Return (fn w), w ++ [EvCall (fn w)]).

(** [error.code === 'VALIDATION_ERROR' || error.code === 'NOT_FOUND'
     || error.code === 'UNAUTHORIZED'] *)
Definition not_retried (code : JsValue) : bool :=
  strict_eq_str code "VALIDATION_ERROR"
  || strict_eq_str code "NOT_FOUND"
  || strict_eq_str code "UNAUTHORIZED".

(** The [for (let attempt = 0; attempt <= maxRetries; attempt++)] loop,
    from counter [attempt] with the current [lastError]; the statement
    after the loop is [throw lastError]. *)
Fixpoint retryLoop (fuel : nat) (maxRetries baseDelay attempt : Z)
    (lastError : JsValue) : Async JsValue :=
  if attempt <=? maxRetries then
    match fuel with
    | O => out_of_fuel
    | S fuel' =>
        outcome <- call_fn ;;
        match outcome with
        | Resolves value => ret value
        | Rejects error =>
            let lastError := error in
            if attempt =? maxRetries then
              throw lastError                          (* break *)
            else
              code <- prop error "code" ;;
              if not_retried code then throw error
              else
                let delay := baseDelay * 2 ^ attempt in
                sleep delay ;;;
                retryLoop fuel' maxRetries baseDelay (attempt + 1) lastError
        end
    end
  else throw lastError.

Definition retryWithBackoff (maxRetries baseDelay : Z) : Async JsValue :=
  retryLoop (Z.to_nat (maxRetries + 1)) maxRetries baseDelay 0 JUndefined.

End Retry.

(** What the retried attempts append to the log: each a rejected call
    followed by its backoff sleep, the first of them being attempt number
    [first]. *)
Fixpoint failed_attempts (baseDelay first : Z) (errors : list JsValue) : World :=
  match errors with
  | [] => []
  | e :: rest =>
      EvCall (Rejects e) :: EvSleep (baseDelay * 2 ^ first)
        :: failed_attempts baseDelay (first + 1) rest
  end.

(** What the loop body does with the outcome of attempt number [attempt]
    when that attempt ends the call; [None] when the attempt is retried. *)
Definition ends_loop (maxRetries attempt : Z) (outcome : Settled)
  : option (Completion JsValue) :=
  match outcome with
  | Resolves value => Some (Return value)
  | Rejects error =>
      if attempt =? maxRetries then Some (Throw error)
      else match get_prop error "code" with
           | Return code => if not_retried code then Some (Throw error) else None
           | Throw e => Some (Throw e)
           | OutOfFuel => Some OutOfFuel
           end
  end.

(** An error that was retried: its [code] could be read and is none of
    the three that stop the loop. *)
Definition retried (error : JsValue) : Prop :=
  exists code, get_prop error "code" = Return code /\ not_retried code = false.

(** The contract of [retryWithBackoff] for one run started in [w]:
    at most [maxRetries + 1] calls of [fn]; a call that resolves is the last
    event and its value is returned; the log is a row of rejected calls,
    the one numbered [k] (from 0) followed by a sleep of
    [baseDelay * 2 ^ k], and then one last call; when every call rejected,
    the error of the last call is thrown. *)
Definition retry_contract (fn : Callback) (maxRetries baseDelay : Z) (w : World)
  : Prop :=
  exists added,
    snd (retryWithBackoff fn maxRetries baseDelay w) = w ++ added
    /\ Z.of_nat (count_calls added) <= maxRetries + 1
    /\ (forall before value after,
           added = before ++ EvCall (Resolves value) :: after ->
           after = []
           /\ fst (retryWithBackoff fn maxRetries baseDelay w) = Return value)
    /\ (exists errors last,
           added = failed_attempts baseDelay 0 errors ++ [EvCall last])
    /\ ((forall outcome, In (EvCall outcome) added -> exists e, outcome = Rejects e) ->
        exists before error,
          added = before ++ [EvCall (Rejects error)]
          /\ fst (retryWithBackoff fn maxRetries baseDelay w) = Throw error).

(* ===================================================================== *)
(** ** backend/schema.sql                                                 *)
(* ===================================================================== *)

Definition UUID : Type := nat.
Definition Timestamp : Type := Z.

(** [DECIMAL(16,8)]: at most 16 digits, 8 of them after the point. *)
Definition fits_decimal_16_8 (units : Z) : bool := Z.abs units <? 10 ^ 16.

Record User : Type := mkUser {
  u_id : UUID;
  u_email : option string;
  u_name : option string;
  u_created_at : Timestamp;
  u_updated_at : Timestamp
}.

Inductive InvoiceType : Type := Subscription | OneTime.

Inductive InvoiceStatus : Type := InvPending | InvPaid | InvExpired | InvCancelled.

Record Invoice : Type := mkInvoice {
  i_id : UUID;
  i_user_id : UUID;
  i_type : InvoiceType;
  i_item_id : option string;
  i_amount_zec : Z;
  i_z_address : string;
  i_status : InvoiceStatus;
  i_paid_txid : option string;
  i_paid_amount_zec : option Z;
  i_paid_at : option Timestamp;
  i_expires_at : option Timestamp;
  i_created_at : Timestamp;
  i_updated_at : Timestamp
}.

Inductive WithdrawalStatus : Type := WdPending | WdProcessing | WdSent | WdFailed.

Record Withdrawal : Type := mkWithdrawal {
  w_id : UUID;
  w_user_id : UUID;
  w_amount_zec : Z;
  w_fee_zec : Z;
  w_net_zec : Z;
  w_to_address : string;
  w_status : WithdrawalStatus;
  w_txid : option string;
  w_requested_at : Timestamp;
  w_processed_at : option Timestamp
}.

Record Database : Type := mkDatabase {
  users : list User;
  invoices : list Invoice;
  withdrawals : list Withdrawal
}.

(** The column constraints of [invoices]: [CHECK (amount_zec > 0)],
    [CHECK (paid_amount_zec >= 0)] (satisfied by NULL), the precision of
    the two amounts and the lengths of the [VARCHAR] columns. *)
Definition invoice_checks (i : Invoice) : bool :=
  (0 <? i_amount_zec i) && fits_decimal_16_8 (i_amount_zec i)
  && match i_paid_amount_zec i with
     | None => true
     | Some paid => (0 <=? paid) && fits_decimal_16_8 paid
     end
  && (String.length (i_z_address i) <=? 120)%nat
  && match i_paid_txid i with
     | None => true
     | Some txid => (String.length txid <=? 64)%nat
     end
  && match i_item_id i with
     | None => true
     | Some item => (String.length item <=? 255)%nat
     end.

(** The column constraints of [withdrawals]: [CHECK (amount_zec > 0)],
    [CHECK (fee_zec >= 0)], [CHECK (net_zec > 0)], precision and lengths. *)
Definition withdrawal_checks (w : Withdrawal) : bool :=
  (0 <? w_amount_zec w) && fits_decimal_16_8 (w_amount_zec w)
  && (0 <=? w_fee_zec w) && fits_decimal_16_8 (w_fee_zec w)
  && (0 <? w_net_zec w) && fits_decimal_16_8 (w_net_zec w)
  && (String.length (w_to_address w) <=? 120)%nat
  && match w_txid w with
     | None => true
     | Some txid => (String.length txid <=? 64)%nat
     end.

Definition user_exists (db : Database) (uid : UUID) : bool :=
  existsb (fun u => Nat.eqb (u_id u) uid) (users db).

(** [INSERT INTO invoices]: column checks, primary key, [UNIQUE (z_address)]
    and the foreign key to [users]. *)
Definition insert_invoice (db : Database) (row : Invoice) : option Database :=
  if invoice_checks row
     && negb (existsb (fun i => Nat.eqb (i_id i) (i_id row)) (invoices db))
     && negb (existsb (fun i => String.eqb (i_z_address i) (i_z_address row)) (invoices db))
     && user_exists db (i_user_id row)
  then Some (mkDatabase (users db) (invoices db ++ [row]) (withdrawals db))
  else None.

(** [INSERT INTO withdrawals]: column checks, primary key and foreign key. *)
Definition insert_withdrawal (db : Database) (row : Withdrawal) : option Database :=
  if withdrawal_checks row
     && negb (existsb (fun w => Nat.eqb (w_id w) (w_id row)) (withdrawals db))
     && user_exists db (w_user_id row)
  then Some (mkDatabase (users db) (invoices db) (withdrawals db ++ [row]))
  else None.

(** *** The view [user_balances] *)

(** [l LEFT JOIN r ON on]: every left row once per matching right row, and
    once with NULLs when nothing matches. *)
Definition left_join {A B : Type} (on : A -> B -> bool) (l : list A) (r : list B)
  : list (A * option B) :=
  flat_map (fun a =>
              match filter (on a) r with
              | [] => [(a, None)]
              | matches => map (fun b => (a, Some b)) matches
              end) l.

Definition invoice_is_paid (i : Invoice) : bool :=
  match i_status i with InvPaid => true | _ => false end.

(** [w.status IN ('sent', 'processing')] *)
Definition withdrawal_counts (w : Withdrawal) : bool :=
  match w_status w with WdSent | WdProcessing => true | _ => false end.

Definition JoinedRow : Type := (User * option Invoice * option Withdrawal)%type.

(** [FROM users u LEFT JOIN invoices i ON ... LEFT JOIN withdrawals w ON ...] *)
Definition joined_rows (db : Database) : list JoinedRow :=
  left_join (fun (ui : User * option Invoice) w =>
               Nat.eqb (u_id (fst ui)) (w_user_id w) && withdrawal_counts w)
    (left_join (fun u i => Nat.eqb (u_id u) (i_user_id i) && invoice_is_paid i)
       (users db) (invoices db))
    (withdrawals db).

(** [SUM(column)]: NULLs are skipped; the sum of no value is NULL. *)
Fixpoint sql_sum (column : list (option Z)) : option Z :=
  match column with
  | [] => None
  | None :: rest => sql_sum rest
  | Some x :: rest =>
      match sql_sum rest with
      | None => Some x
      | Some s => Some (x + s)
      end
  end.

(** [COUNT(column)]: the number of non-NULL values. *)
Definition sql_count {A : Type} (column : list (option A)) : nat :=
  List.length (filter (fun o => match o with Some _ => true | None => false end) column).

Definition coalesce (o : option Z) (default : Z) : Z :=
  match o with Some x => x | None => default end.

Definition GroupKey : Type := (UUID * option string * option string)%type.

Definition option_string_eqb (a b : option string) : bool :=
  match a, b with
  | None, None => true
  | Some x, Some y => String.eqb x y
  | _, _ => false
  end.

Definition key_eqb (a b : GroupKey) : bool :=
  let '(ia, ea, na) := a in
  let '(ib, eb, nb) := b in
  Nat.eqb ia ib && option_string_eqb ea eb && option_string_eqb na nb.

(** [GROUP BY u.id, u.email, u.name] *)
Definition group_key (row : JoinedRow) : GroupKey :=
  let u := fst (fst row) in (u_id u, u_email u, u_name u).

Fixpoint distinct_keys (keys : list GroupKey) : list GroupKey :=
  match keys with
  | [] => []
  | k :: rest => k :: filter (fun k' => negb (key_eqb k k')) (distinct_keys rest)
  end.

Record BalanceRow : Type := mkBalanceRow {
  b_id : UUID;
  b_email : option string;
  b_name : option string;
  total_received_zec : Z;
  total_withdrawn_zec : Z;
  available_balance_zec : Z;
  total_invoices : nat;
  total_withdrawals : nat
}.

Definition paid_amount_column (group : list JoinedRow) : list (option Z) :=
  map (fun row => match snd (fst row) with
                  | Some i => i_paid_amount_zec i
                  | None => None
                  end) group.

Definition amount_column (group : list JoinedRow) : list (option Z) :=
  map (fun row => option_map w_amount_zec (snd row)) group.

Definition aggregate (key : GroupKey) (group : list JoinedRow) : BalanceRow :=
  let '(id, email, name) := key in
  mkBalanceRow id email name
    (coalesce (sql_sum (paid_amount_column group)) 0)
    (coalesce (sql_sum (amount_column group)) 0)
    (coalesce (sql_sum (paid_amount_column group)) 0
     - coalesce (sql_sum (amount_column group)) 0)
    (sql_count (map (fun row => option_map i_id (snd (fst row))) group))
    (sql_count (map (fun row => option_map w_id (snd row)) group)).

(** The rows of the view.  The view has no [ORDER BY]: the order of this
    list (that of the first row of each group) is one of those the database
    may return, and the properties of the view are stated row by row. *)
Definition user_balances (db : Database) : list BalanceRow :=
  let rows := joined_rows db in
  map (fun key => aggregate key (filter (fun row => key_eqb key (group_key row)) rows))
      (distinct_keys (map group_key rows)).

(** The rows one user contributes to the join: its paid invoices (or a
    NULL invoice) paired with its counted withdrawals (or a NULL
    withdrawal). *)
Definition paid_invoices_of (db : Database) (u : User) : list Invoice :=
  filter (fun i => Nat.eqb (u_id u) (i_user_id i) && invoice_is_paid i) (invoices db).

Definition counted_withdrawals_of (db : Database) (u : User) : list Withdrawal :=
  filter (fun w => Nat.eqb (u_id u) (w_user_id w) && withdrawal_counts w)
    (withdrawals db).

Definition user_rows (db : Database) (u : User) : list JoinedRow :=
  flat_map (fun ui : User * option Invoice =>
              match counted_withdrawals_of db (fst ui) with
              | [] => [(ui, None)]
              | matches => map (fun w => (ui, Some w)) matches
              end)
    match paid_invoices_of db u with
    | [] => [(u, None)]
    | matches => map (fun i => (u, Some i)) matches
    end.

(** The key of the group a user's rows fall into. *)
Definition user_key (u : User) : GroupKey := (u_id u, u_email u, u_name u).

(** [SELECT available_balance_zec FROM user_balances WHERE id = uid] *)
Definition view_available_balance (db : Database) (uid : UUID) : option Z :=
  option_map available_balance_zec
    (find (fun row => Nat.eqb (b_id row) uid) (user_balances db)).

(* ===================================================================== *)
(** ** The ledger and the two managers, as the specification states them  *)
(* ===================================================================== *)

Definition sum_Z (l : list Z) : Z := fold_right Z.add 0 l.

(** The specification's available balance (data model, "Available
    Balance"): the sum of the paid amounts of the user's paid invoices minus
    the sum of the requested amounts of the user's withdrawals that are
    processing or sent. *)
Definition spec_available_balance (db : Database) (uid : UUID) : Z :=
  sum_Z (map (fun i => coalesce (i_paid_amount_zec i) 0)
           (filter (fun i => Nat.eqb (i_user_id i) uid && invoice_is_paid i)
              (invoices db)))
  - sum_Z (map w_amount_zec
             (filter (fun w => Nat.eqb (w_user_id w) uid && withdrawal_counts w)
                (withdrawals db))).

Inductive DomainError : Type :=
| ValidationError
| InsufficientBalance
| InvalidAddress
| NotFound
| InvalidState
| ConstraintViolation.

Definition Result (A : Type) : Type := (A + DomainError)%type.

(** One receipt reported by the gateway's [receivedAt]. *)
Record Receipt : Type := mkReceipt {
  r_amount : Z;
  r_txid : string
}.

Definition set_invoice_status (s : InvoiceStatus) (i : Invoice) : Invoice :=
  mkInvoice (i_id i) (i_user_id i) (i_type i) (i_item_id i) (i_amount_zec i)
    (i_z_address i) s (i_paid_txid i) (i_paid_amount_zec i) (i_paid_at i)
    (i_expires_at i) (i_created_at i) (i_updated_at i).

Definition set_invoice_paid (txid : option string) (paid : Z) (now : Timestamp)
    (i : Invoice) : Invoice :=
  mkInvoice (i_id i) (i_user_id i) (i_type i) (i_item_id i) (i_amount_zec i)
    (i_z_address i) InvPaid txid (Some paid) (Some now)
    (i_expires_at i) (i_created_at i) (i_updated_at i).

(** The trigger [update_invoices_updated_at] of schema.sql. *)
Definition touch_invoice (now : Timestamp) (i : Invoice) : Invoice :=
  mkInvoice (i_id i) (i_user_id i) (i_type i) (i_item_id i) (i_amount_zec i)
    (i_z_address i) (i_status i) (i_paid_txid i) (i_paid_amount_zec i) (i_paid_at i)
    (i_expires_at i) (i_created_at i) now.

(** [UPDATE invoices SET ... WHERE cond]: the number of rows affected and
    the new state, or nothing when a new row violates a column check. *)
Definition update_invoices (db : Database) (cond : Invoice -> bool)
    (set : Invoice -> Invoice) (now : Timestamp) : option (nat * Database) :=
  let updated i := touch_invoice now (set i) in
  if forallb (fun i => negb (cond i) || invoice_checks (updated i)) (invoices db)
  then Some (List.length (filter cond (invoices db)),
             mkDatabase (users db)
               (map (fun i => if cond i then updated i else i) (invoices db))
               (withdrawals db))
  else None.

Definition set_withdrawal_status (s : WithdrawalStatus) (txid : option string)
    (processed : option Timestamp) (w : Withdrawal) : Withdrawal :=
  mkWithdrawal (w_id w) (w_user_id w) (w_amount_zec w) (w_fee_zec w) (w_net_zec w)
    (w_to_address w) s txid (w_requested_at w) processed.

Definition update_withdrawals (db : Database) (cond : Withdrawal -> bool)
    (set : Withdrawal -> Withdrawal) : option (nat * Database) :=
  if forallb (fun w => negb (cond w) || withdrawal_checks (set w)) (withdrawals db)
  then Some (List.length (filter cond (withdrawals db)),
             mkDatabase (users db) (invoices db)
               (map (fun w => if cond w then set w else w) (withdrawals db)))
  else None.

Definition find_invoice (db : Database) (id : UUID) : option Invoice :=
  find (fun i => Nat.eqb (i_id i) id) (invoices db).

Section Managers.

(** The fee policy: "a pure function of amount". *)
Variable fee_policy : Z -> Z.

(** Modelled from the spec: [estimateFee] of the withdrawal route
    (routes/withdraw.js is not among the sources).  "fee policy is a pure
    function of amount"; "net amount (positive, = requested - fee)". *)
Definition estimateFee (amount : Z) : Z * Z :=
  (fee_policy amount, amount - fee_policy amount).

(** Modelled from the spec: [createWithdrawal] of the withdrawal route
    (routes/withdraw.js is not among the sources).  "validates amount > 0,
    destination is address-well-formed (delegated to the Gateway's
    address-validation call), and amount <= availableBalance(userId) ...
    Computes fee, net via the fee policy and stores all three. Fails with
    InsufficientBalance or InvalidAddress as appropriate".  The row goes
    through the [INSERT] of schema.sql. *)
Definition createWithdrawal (db : Database) (newId userId : UUID)
    (destination : string) (destination_valid : bool) (amount : Z)
    (now : Timestamp) : Result (Withdrawal * Database) :=
  if amount <=? 0 then inr ValidationError
  else if negb destination_valid then inr InvalidAddress
  else if spec_available_balance db userId <? amount then inr InsufficientBalance
  else
    let '(fee, net) := estimateFee amount in
    let row := mkWithdrawal newId userId amount fee net destination
                 WdPending None now None in
    match insert_withdrawal db row with
    | Some db' => inl (row, db')
    | None => inr ConstraintViolation
    end.

(** Modelled from the spec: [createInvoice] of the invoice route
    (routes/invoice.js is not among the sources).  "validates amount > 0;
    obtains a fresh address from the Gateway; persists a pending row; fails
    with ValidationError on non-positive amount or unknown user". *)
Definition createInvoice (db : Database) (newId userId : UUID) (kind : InvoiceType)
    (amount : Z) (itemRef : option string) (address : string)
    (expires : option Timestamp) (now : Timestamp) : Result (Invoice * Database) :=
  if amount <=? 0 then inr ValidationError
  else if negb (user_exists db userId) then inr ValidationError
  else
    let row := mkInvoice newId userId kind itemRef amount address InvPending
                 None None None expires now now in
    match insert_invoice db row with
    | Some db' => inl (row, db')
    | None => inr ConstraintViolation
    end.

(** Modelled from the spec: [checkPayment] of the invoice route
    (routes/invoice.js is not among the sources).  "if already paid, returns
    immediately. Otherwise queries the Gateway's receivedAt ... marked paid
    as soon as any confirmed receipt at the address sums to an amount >= the
    requested amount ... the stored paid_amount reflects the true received
    sum ...; underpayment leaves the invoice pending ... the transition to
    paid is guarded by a conditional update (only if status = pending)".
    [receipts] is what the gateway returned; the transaction reference kept
    is that of the first receipt. *)
Definition checkPayment (db : Database) (invoiceId : UUID) (receipts : list Receipt)
    (now : Timestamp) : Result (bool * Database) :=
  match find_invoice db invoiceId with
  | None => inr NotFound
  | Some invoice =>
      if invoice_is_paid invoice then inl (true, db)
      else
        let received := sum_Z (map r_amount receipts) in
        if i_amount_zec invoice <=? received then
          match update_invoices db
                  (fun i => Nat.eqb (i_id i) invoiceId
                            && match i_status i with InvPending => true | _ => false end)
                  (set_invoice_paid (option_map r_txid (hd_error receipts)) received now)
                  now with
          | Some (affected, db') => inl (Nat.ltb 0 affected, db')
          | None => inr ConstraintViolation
          end
        else inl (false, db)
  end.

(** Modelled from the spec: [expire] of the invoice route (routes/invoice.js
    is not among the sources).  "only valid while pending and past
    expires_at; irreversible". *)
Definition expire (db : Database) (invoiceId : UUID) (now : Timestamp)
  : Result Database :=
  match find_invoice db invoiceId with
  | None => inr NotFound
  | Some invoice =>
      match i_status invoice, i_expires_at invoice with
      | InvPending, Some deadline =>
          if deadline <? now then
            match update_invoices db
                    (fun i => Nat.eqb (i_id i) invoiceId
                              && match i_status i with InvPending => true | _ => false end)
                    (set_invoice_status InvExpired) now with
            | Some (_, db') => inl db'
            | None => inr ConstraintViolation
            end
          else inr InvalidState
      | _, _ => inr InvalidState
      end
  end.

(** Modelled from the spec: the explicit cancellation of the invoice state
    machine (routes/invoice.js is not among the sources).
    "pending --explicit cancel--> cancelled". *)
Definition cancel (db : Database) (invoiceId : UUID) (now : Timestamp)
  : Result Database :=
  match find_invoice db invoiceId with
  | None => inr NotFound
  | Some invoice =>
      match i_status invoice with
      | InvPending =>
          match update_invoices db
                  (fun i => Nat.eqb (i_id i) invoiceId
                            && match i_status i with InvPending => true | _ => false end)
                  (set_invoice_status InvCancelled) now with
          | Some (_, db') => inl db'
          | None => inr ConstraintViolation
          end
      | _ => inr InvalidState
      end
  end.

(** Modelled from the spec: the status transitions of [process] in the
    withdrawal route (routes/withdraw.js is not among the sources).
    "pending --accepted & submitted--> processing --terminal success-->
    sent; processing --terminal failure or timeout--> failed". *)
Definition beginProcessing (db : Database) (withdrawalId : UUID)
  : Result Database :=
  match update_withdrawals db
          (fun w => Nat.eqb (w_id w) withdrawalId
                    && match w_status w with WdPending => true | _ => false end)
          (fun w => set_withdrawal_status WdProcessing (w_txid w) (w_processed_at w) w) with
  | Some (S _, db') => inl db'
  | Some (O, _) => inr InvalidState
  | None => inr ConstraintViolation
  end.

(** Modelled from the spec: the end of [process] in the withdrawal route
    (routes/withdraw.js is not among the sources).  "On success,
    transitions to sent with processed_at = now. On failed or polling
    Timeout, transitions to failed". *)
Definition finishProcessing (db : Database) (withdrawalId : UUID)
    (success : bool) (txid : option string) (now : Timestamp) : Result Database :=
  match update_withdrawals db
          (fun w => Nat.eqb (w_id w) withdrawalId
                    && match w_status w with WdProcessing => true | _ => false end)
          (fun w => if success
                    then set_withdrawal_status WdSent txid (Some now) w
                    else set_withdrawal_status WdFailed (w_txid w) (w_processed_at w) w) with
  | Some (S _, db') => inl db'
  | Some (O, _) => inr InvalidState
  | None => inr ConstraintViolation
  end.

(** Modelled from the spec: the creation of a user (routes/users.js is not
    among the sources).  "created on first contact"; the row goes through
    the primary key and [UNIQUE (email)] of schema.sql. *)
Definition createUser (db : Database) (newId : UUID) (email name : option string)
    (now : Timestamp) : Result Database :=
  if user_exists db newId
     || match email with
        | Some e => existsb (fun u => option_string_eqb (u_email u) (Some e)) (users db)
        | None => false
        end
  then inr ConstraintViolation
  else inl (mkDatabase (users db ++ [mkUser newId email name now now])
              (invoices db) (withdrawals db)).

(** Modelled from the spec: one accepted operation of the system, any of
    the operations above (the routes that run them are not among the
    sources). *)
Inductive step : Database -> Database -> Prop :=
| step_createUser db id email name now db' :
    createUser db id email name now = inl db' -> step db db'
| step_createInvoice db id uid kind amount item address expires now row db' :
    createInvoice db id uid kind amount item address expires now = inl (row, db') ->
    step db db'
| step_checkPayment db id receipts now paid db' :
    checkPayment db id receipts now = inl (paid, db') -> step db db'
| step_expire db id now db' :
    expire db id now = inl db' -> step db db'
| step_cancel db id now db' :
    cancel db id now = inl db' -> step db db'
| step_createWithdrawal db id uid destination valid amount now row db' :
    createWithdrawal db id uid destination valid amount now = inl (row, db') ->
    step db db'
| step_beginProcessing db id db' :
    beginProcessing db id = inl db' -> step db db'
| step_finishProcessing db id success txid now db' :
    finishProcessing db id success txid now = inl db' -> step db db'.

(** Modelled from the spec: the database states the system reaches by its
    operations from a freshly installed schema, which holds users (the
    sample rows of schema.sql) but neither invoices nor withdrawals. *)
Inductive reachable : Database -> Prop :=
| reachable_fresh db :
    invoices db = [] -> withdrawals db = [] -> reachable db
| reachable_step db db' : reachable db -> step db db' -> reachable db'.

End Managers.

(** The invariant of the invoice table: a primary key, and every paid
    invoice records a paid amount that covers the requested amount. *)
Definition invoices_settled (db : Database) : Prop :=
  NoDup (map i_id (invoices db))
  /\ forall i, In i (invoices db) ->
               i_status i = InvPaid ->
               exists paid, i_paid_amount_zec i = Some paid /\ i_amount_zec i <= paid.

(** The invariant of the withdrawal table: every row splits its requested
    amount into a fee that is not negative and a net amount that is
    positive. *)
Definition withdrawals_balanced (db : Database) : Prop :=
  forall w, In w (withdrawals db) ->
            w_fee_zec w + w_net_zec w = w_amount_zec w
            /\ 0 <= w_fee_zec w /\ 0 < w_net_zec w.

(** The withdrawal invariant read as a constraint of the table: the
    [INSERT] of [row] into [db] succeeds only if the row splits its
    requested amount into a fee that is not negative and a net amount that
    is positive. *)
Definition withdrawal_split_enforced (db : Database) (row : Withdrawal) : Prop :=
  forall db', insert_withdrawal db row = Some db' ->
              w_fee_zec row + w_net_zec row = w_amount_zec row
              /\ 0 <= w_fee_zec row /\ 0 < w_net_zec row.

(** The same row with another value in [net_zec]. *)
Definition set_net_zec (net : Z) (w : Withdrawal) : Withdrawal :=
  mkWithdrawal (w_id w) (w_user_id w) (w_amount_zec w) (w_fee_zec w) net
    (w_to_address w) (w_status w) (w_txid w) (w_requested_at w) (w_processed_at w).

(* ===================================================================== *)
(** ** Sample collaborators and stores                                    *)
(* ===================================================================== *)

(** A node that answers its [n]-th request with the [n]-th entry of a
    script, and refuses connections once the script is used up. *)
Definition scripted_node (answers : list AxiosOutcome) : Node :=
  fun w _ => nth (count_posts w) answers
               (RejectedNoResponse "connect ECONNREFUSED 127.0.0.1:8232").

(** A JSON-RPC response body without error. *)
Definition rpc_body (result : JsValue) : JsValue :=
  JObj [("result", result); ("error", JNull); ("id", JNum 0)]%string.

(** An entry of the list [z_getoperationstatus] returns. *)
Definition operation_object (status : string) : JsValue :=
  JObj [("id", JStr "opid-1"); ("status", JStr status)]%string.

Definition polled (status : string) : AxiosOutcome :=
  Fulfilled 200 "OK" (rpc_body (JArr [operation_object status])).

(** A callback whose [n]-th call settles as the [n]-th entry of a script. *)
Definition scripted_fn (outcomes : list Settled) : Callback :=
  fun w => nth (count_calls w) outcomes (Rejects (new_Error "unavailable")).

(** An error object carrying a [code], as the SDK client raises them. *)
Definition coded_error (code message : string) : JsValue :=
  JObj [("name", JStr "Error"); ("message", JStr message); ("code", JStr code)]%string.

(** A callback that rejects with [null]: [async () => { throw null }]. *)
Definition rejects_null : Callback := fun _ => Rejects JNull.

Definition sample_user : User :=
  mkUser 1%nat (Some "creator@example.com"%string) (Some "Content Creator"%string) 0 0.

Definition sample_paid_invoice (id : UUID) (address : string) (amount : Z) : Invoice :=
  mkInvoice id 1%nat OneTime None amount address InvPaid (Some "txid"%string)
    (Some amount) (Some 10) None 5 10.

Definition sample_withdrawal (id : UUID) (status : WithdrawalStatus) (amount fee : Z)
  : Withdrawal :=
  mkWithdrawal id 1%nat amount fee (amount - fee) "zs1destination" status
    (Some "txid"%string) 20 (Some 30).

(** One user with two paid invoices (1 and 2 ZEC) and two withdrawals
    (0.5 ZEC sent, 0.25 ZEC processing). *)
Definition two_by_two : Database :=
  mkDatabase [sample_user]
    [sample_paid_invoice 1%nat "zs1first" 100000000;
     sample_paid_invoice 2%nat "zs1second" 200000000]
    [sample_withdrawal 1%nat WdSent 50000000 500000;
     sample_withdrawal 2%nat WdProcessing 25000000 250000].

(** The store before, during and after the settlement of one invoice of
    1.5 ZEC. *)
Definition fresh_store : Database := mkDatabase [sample_user] [] [].

Definition pending_invoice : Invoice :=
  mkInvoice 7%nat 1%nat OneTime (Some "video-42"%string) 150000000 "zs1invoice"
    InvPending None None None None 100 100.

Definition store_pending : Database := mkDatabase [sample_user] [pending_invoice] [].

Definition settled_invoice : Invoice :=
  mkInvoice 7%nat 1%nat OneTime (Some "video-42"%string) 150000000 "zs1invoice"
    InvPaid (Some "txid-a"%string) (Some 150000000) (Some 200) None 100 200.

Definition store_paid : Database := mkDatabase [sample_user] [settled_invoice] [].

(** A withdrawal of 2 ZEC under a fee of one percent. *)
Definition requested_withdrawal : Withdrawal :=
  mkWithdrawal 9%nat 1%nat 200000000 2000000 198000000 "zs1destination"
    WdPending None 50 None.

(** A withdrawal of 2 ZEC whose row claims a fee of 1 ZEC and a net amount
    of 5 ZEC. *)
Definition unbalanced_withdrawal : Withdrawal :=
  mkWithdrawal 9%nat 1%nat 200000000 100000000 500000000 "zs1destination"
    WdPending None 50 None.

(** A fee of one percent. *)
Definition one_percent (amount : Z) : Z := amount / 100.

(** [fn] rejects attempt after attempt, from attempt number [first] in
    world [w], with the errors of [errors], each of them one the loop
    retries. *)
Fixpoint rejects_along (fn : Callback) (baseDelay : Z) (w : World) (first : Z)
    (errors : list JsValue) : Prop :=
  match errors with
  | [] => True
  | e :: rest =>
      fn w = Rejects e
      /\ retried e
      /\ rejects_along fn baseDelay
           (w ++ [EvCall (Rejects e); EvSleep (baseDelay * 2 ^ first)])
           (first + 1) rest
  end.

(* ===================================================================== *)
(** ** backend/schema.sql: the other views                                *)
(* ===================================================================== *)

(** [MIN(column)] and [MAX(column)]: NULLs are skipped; NULL over no value. *)
Fixpoint sql_min (column : list (option Z)) : option Z :=
  match column with
  | [] => None
  | None :: rest => sql_min rest
  | Some x :: rest =>
      match sql_min rest with
      | None => Some x
      | Some m => Some (Z.min x m)
      end
  end.

Fixpoint sql_max (column : list (option Z)) : option Z :=
  match column with
  | [] => None
  | None :: rest => sql_max rest
  | Some x :: rest =>
      match sql_max rest with
      | None => Some x
      | Some m => Some (Z.max x m)
      end
  end.

(** The one row of [platform_revenue].  Its column [total_withdrawals] is
    [revenue_withdrawals] here; [avg_fee_per_withdrawal], the quotient of
    the first two columns rounded by the database to a scale of its own
    choosing, is not represented. *)
Record RevenueRow : Type := mkRevenueRow {
  total_fees_earned_zec : option Z;
  revenue_withdrawals : nat;
  min_fee : option Z;
  max_fee : option Z
}.

Definition fee_column (rows : list Withdrawal) : list (option Z) :=
  map (fun w => Some (w_fee_zec w)) rows.

(** [SELECT SUM(fee_zec), COUNT( * ), MIN(fee_zec), MAX(fee_zec)
     FROM withdrawals WHERE status IN ('sent', 'processing')] *)
Definition platform_revenue (db : Database) : RevenueRow :=
  let rows := filter withdrawal_counts (withdrawals db) in
  mkRevenueRow (sql_sum (fee_column rows)) (List.length rows)
    (sql_min (fee_column rows)) (sql_max (fee_column rows)).

(** [l JOIN r ON on] *)
Definition inner_join {A B : Type} (on : A -> B -> bool) (l : list A) (r : list B)
  : list (A * B) :=
  flat_map (fun a => map (fun b => (a, b)) (filter (on a) r)) l.

Record SubscriptionRow : Type := mkSubscriptionRow {
  s_user_id : UUID;
  s_email : option string;
  s_expires_at : option Timestamp;
  s_paid_amount_zec : option Z;
  s_created_at : Timestamp
}.

(** [i.type = 'subscription' AND i.status = 'paid'
     AND (i.expires_at IS NULL OR i.expires_at > NOW())] *)
Definition subscription_is_active (now : Timestamp) (i : Invoice) : bool :=
  match i_type i with Subscription => true | OneTime => false end
  && invoice_is_paid i
  && match i_expires_at i with
     | None => true
     | Some deadline => now <? deadline
     end.

(** The view [active_subscriptions], read at time [now]. *)
Definition active_subscriptions (db : Database) (now : Timestamp)
  : list SubscriptionRow :=
  map (fun iu : Invoice * User =>
         mkSubscriptionRow (i_user_id (fst iu)) (u_email (snd iu))
           (i_expires_at (fst iu)) (i_paid_amount_zec (fst iu))
           (i_created_at (fst iu)))
    (filter (fun iu : Invoice * User => subscription_is_active now (fst iu))
       (inner_join (fun i u => Nat.eqb (i_user_id i) (u_id u))
          (invoices db) (users db))).

(** The row of [user_balances] that carries a given user id. *)
Definition balance_row (db : Database) (uid : UUID) : option BalanceRow :=
  find (fun row => Nat.eqb (b_id row) uid) (user_balances db).

(** The foreign key of [invoices] to [users]. *)
Definition invoices_reference_users (db : Database) : Prop :=
  forall i, In i (invoices db) -> user_exists db (i_user_id i) = true.

(* ===================================================================== *)
(** ** The route index: [GET /health]                                     *)
(* ===================================================================== *)

(** [hay.includes(needle)] on strings. *)
Fixpoint includes_string (needle hay : string) : bool :=
  if String.prefix needle hay then true
  else match hay with
       | EmptyString => false
       | String _ rest => includes_string needle rest
       end.

(** The [TypeError] of calling something that is not a function. *)
Definition not_a_function (expression : string) : JsValue :=
  JObj [("name", JStr "TypeError");
        ("message", JStr (expression ++ " is not a function"))]%string.

(** [error.message.includes(needle)] for the value [message] of
    [error.message]: the substring test on a string, the membership test on
    a list, a [TypeError] on anything else. *)
Definition message_includes (message : JsValue) (needle : string) : Completion bool :=
  match message with
  | JStr s => Return (includes_string needle s)
  | JArr xs => Return (existsb (fun x => strict_eq_str x needle) xs)
  | JUndefined | JNull => Throw (type_error message "includes")
  | JBool _ | JNum _ | JDec _ _ | JObj _ =>
      Throw (not_a_function "error.message.includes")
  end.

(** What the handler sends: [res.json(body)] under status 200, or
    [res.status(500).json(body)]. *)
Record Response : Type := mkResponse {
  res_status : Z;
  res_body : JsValue
}.

(** [await promise] for a promise that settles as [outcome]. *)
Definition await (outcome : Settled) : Async JsValue :=
  match outcome with
  | Resolves value => ret value
  | Rejects error => throw error
  end.

Definition connection_word (disconnected : bool) : JsValue :=
  if disconnected then JStr "disconnected" else JStr "connected".

Section Health.

Variable node : Node.

Local Open Scope string_scope.
Local Open Scope list_scope.
Local Open Scope Z_scope.
Local Open Scope async_scope.

(** The handler of [router.get('/health', ...)].  [ping] is how
    [pool.query('SELECT 1')] settles and [now] what
    [new Date().toISOString()] yields.  A thrown completion is a handler
    that ends without a response.  ([console.error] writes the error to
    the process log and leaves no trace here.) *)
Definition health (ping : Settled) (now : string) : Async Response :=
  try_catch
    (_ <- await ping ;;
     blockchainInfo <- getBlockchainInfo node ;;
     blocks <- prop blockchainInfo "blocks" ;;
     chain <- prop blockchainInfo "chain" ;;
     ret (mkResponse 200
            (JObj [("status", JStr "OK");
                   ("timestamp", JStr now);
                   ("services",
                    JObj [("database", JStr "connected");
                          ("zcash_rpc", JStr "connected");
                          ("node_blocks", blocks);
                          ("node_chain", chain)]);
                   ("version", JStr "1.0.0")])))
    (fun error =>
       message <- prop error "message" ;;
       message_db <- prop error "message" ;;
       pool <- lift (message_includes message_db "pool") ;;
       message_rpc <- prop error "message" ;;
       rpc <- lift (message_includes message_rpc "RPC") ;;
       ret (mkResponse 500
              (JObj [("status", JStr "ERROR");
                     ("timestamp", JStr now);
                     ("error", message);
                     ("services",
                      JObj [("database", connection_word pool);
                            ("zcash_rpc", connection_word rpc)])]))).

End Health.

(** The body of the 500 response for an error whose message is [message]. *)
Definition health_failure (now message : string) : Response :=
  mkResponse 500
    (JObj [("status", JStr "ERROR");
           ("timestamp", JStr now);
           ("error", JStr message);
           ("services",
            JObj [("database", connection_word (includes_string "pool" message));
                  ("zcash_rpc", connection_word (includes_string "RPC" message))])]%string).

(* ===================================================================== *)
(** ** backend/dist/config.cjs and backend/dist/utils/config-fetcher.cjs  *)
(* ===================================================================== *)

(** Sequencing of evaluations that perform no effect. *)
Definition and_then {A B : Type} (c : Completion A) (k : A -> Completion B)
  : Completion B :=
  match c with
  | Return a => k a
  | Throw e => Throw e
  | OutOfFuel => OutOfFuel
  end.

(** [a || b], both operands already evaluated. *)
Definition js_or (a b : JsValue) : JsValue := if truthy a then a else b.

(** Defining a property in an object under construction: the value of an
    existing key is replaced where it stands, a new key goes last. *)
Fixpoint obj_set (k : string) (v : JsValue) (fields : list (string * JsValue))
  : list (string * JsValue) :=
  match fields with
  | [] => [(k, v)]
  | (k', v') :: rest =>
      if String.eqb k k' then (k, v) :: rest else (k', v') :: obj_set k v rest
  end.

Fixpoint indexed (values : list JsValue) (from : nat) : list (string * JsValue) :=
  match values with
  | [] => []
  | v :: rest => (decimal (Z.of_nat from), v) :: indexed rest (S from)
  end.

Fixpoint characters (s : string) : list JsValue :=
  match s with
  | EmptyString => []
  | String c rest => JStr (String c EmptyString) :: characters rest
  end.

(** The own enumerable properties that [{...v}] copies: the fields of an
    object, the elements of a list and the characters of a string under
    their indices, nothing for the other values ([null] and [undefined]
    included). *)
Definition own_enumerable (v : JsValue) : list (string * JsValue) :=
  match v with
  | JObj fields => fields
  | JArr xs => indexed xs 0
  | JStr s => indexed (characters s) 0
  | JUndefined | JNull | JBool _ | JNum _ | JDec _ _ => []
  end.

(** [{ ...fields, ...source }].  (The model keeps fields in the order in
    which they were defined; it does not move integer-like keys to the
    front as an engine does when it enumerates.) *)
Definition spread (fields : list (string * JsValue)) (source : JsValue)
  : list (string * JsValue) :=
  fold_left (fun acc kv => obj_set (fst kv) (snd kv) acc) (own_enumerable source) fields.

(** [v.k] for a value [v] that is neither [null] nor [undefined]. *)
Definition read_field (v : JsValue) (k : string) : JsValue :=
  match v with
  | JObj fields => lookup_field k fields
  | _ => JUndefined
  end.

(** A parameter with the default [{}]. *)
Definition or_empty_object (v : JsValue) : JsValue :=
  match v with
  | JUndefined => JObj []
  | _ => v
  end.

(** The two globals [getDefaultConfig] looks for; [JUndefined] stands for
    a global that is not defined. *)
Record Globals : Type := mkGlobals {
  g_process : JsValue;
  g_window : JsValue
}.

Section Config.

Local Open Scope string_scope.
Local Open Scope list_scope.
Local Open Scope Z_scope.

(** [typeof process !== 'undefined' && process.env] *)
Definition isNode (g : Globals) : Completion JsValue :=
  match g_process g with
  | JUndefined => Return (JBool false)
  | process => get_prop process "env"
  end.

(** [typeof window !== 'undefined'] *)
Definition isBrowser (g : Globals) : bool :=
  match g_window g with
  | JUndefined => false
  | _ => true
  end.

Definition default_config (baseURL : JsValue) : JsValue :=
  JObj [("baseURL", baseURL); ("timeout", JNum 30000); ("apiVersion", JStr "v1")].

Definition getDefaultConfig (g : Globals) : Completion JsValue :=
  and_then (isNode g) (fun node =>
  if truthy node then
    and_then (get_prop (g_process g) "env") (fun env =>
    and_then (get_prop env "SDK_DEFAULT_BASE_URL") (fun sdk =>
    and_then (get_prop env "API_BASE_URL") (fun api =>
    and_then (get_prop env "PUBLIC_API_URL") (fun public =>
    and_then (get_prop env "PORT") (fun port =>
    Return (default_config
              (js_or sdk
                 (js_or api
                    (js_or public
                       (JStr ("http://localhost:"
                              ++ to_string (js_or port (JNum 3000)))%string))))))))))
  else if isBrowser g then
    and_then (get_prop (g_window g) "location") (fun location =>
    if truthy location then
      and_then (get_prop location "protocol") (fun protocol =>
      and_then (get_prop location "hostname") (fun hostname =>
      and_then (get_prop location "port") (fun port =>
      let apiPort := if strict_eq_str port "3000" then JStr "3000"
                     else js_or port (JStr "80") in
      Return (default_config
                (JStr (to_string protocol ++ "//" ++ to_string hostname
                       ++ ":" ++ to_string apiPort)%string)))))
    else Return (default_config (JStr "http://localhost:3000")))
  else Return (default_config (JStr "http://localhost:3000"))).

Definition resolveConfig (g : Globals) (userConfig : JsValue) : Completion JsValue :=
  let userConfig := or_empty_object userConfig in
  and_then (getDefaultConfig g) (fun defaults =>
  and_then (get_prop userConfig "baseURL") (fun baseURL =>
  and_then (get_prop defaults "baseURL") (fun defaultBaseURL =>
  and_then (get_prop userConfig "timeout") (fun timeout =>
  and_then (get_prop defaults "timeout") (fun defaultTimeout =>
  and_then (get_prop userConfig "apiKey") (fun apiKey =>
  and_then (get_prop userConfig "apiVersion") (fun apiVersion =>
  and_then (get_prop defaults "apiVersion") (fun defaultApiVersion =>
  Return (JObj (spread [("baseURL", js_or baseURL defaultBaseURL);
                        ("timeout", js_or timeout defaultTimeout);
                        ("apiKey", apiKey);
                        ("apiVersion", js_or apiVersion defaultApiVersion)]
                  userConfig)))))))))).

(** What [require('../config/appConfig.js')] does. *)
Inductive Required : Type :=
| Loaded (exports : JsValue)
| LoadFails (error : JsValue).

(** [_interopRequireWildcard(e)], called with one argument. *)
Definition interopRequireWildcard (e : JsValue) : Completion JsValue :=
  and_then (if truthy e then get_prop e "__esModule" else Return e) (fun esModule =>
  if truthy esModule then Return e
  else
    match e with
    | JObj _ | JArr _ =>
        Return (JObj (fold_left
                        (fun f kv =>
                           if String.eqb "default" (fst kv) then f
                           else obj_set (fst kv) (snd kv) f)
                        (own_enumerable e) [("default", e)]))
    | _ => Return (JObj [("default", e)])
    end).

(** [try { m } catch (error) { return fallback }] without effects. *)
Definition or_else {A : Type} (c : Completion A) (fallback : A) : Completion A :=
  match c with
  | Throw _ => Return fallback
  | other => other
  end.

Definition getServerConfig (required : Required) : Completion JsValue :=
  or_else
    (and_then (match required with
               | Loaded exports => interopRequireWildcard exports
               | LoadFails error => Throw error
               end) (fun module =>
     and_then (get_prop module "config") (fun config =>
     and_then (get_prop config "sdk") (fun sdk =>
     and_then (get_prop sdk "publicApiUrl") (fun baseURL =>
     and_then (get_prop config "sdk") (fun sdk' =>
     and_then (get_prop sdk' "defaultTimeout") (fun timeout =>
     and_then (get_prop config "sdk") (fun sdk'' =>
     and_then (get_prop sdk'' "apiVersion") (fun apiVersion =>
     Return (JObj [("baseURL", baseURL); ("timeout", timeout);
                   ("apiVersion", apiVersion)]))))))))))
    JNull.

(** One [axios.get(url, { timeout })] of the SDK. *)
Inductive ClientEvent : Type :=
| EvGet (url : string) (timeout : Z).

(** The server behind the SDK: its answer to a GET may depend on the
    requests before. *)
Definition Server : Type := list ClientEvent -> string -> AxiosOutcome.

Definition fetchServerConfig (server : Server) (baseURL : JsValue)
    (log : list ClientEvent) : Completion JsValue * list ClientEvent :=
  let url := (to_string baseURL ++ "/api/config")%string in
  (or_else
     (and_then (axios_completion (server log url)) (fun response =>
      and_then (get_prop response "data") (fun data =>
      get_prop data "sdk")))
     JNull,
   log ++ [EvGet url 5000]).

Definition createWithServerConfig (server : Server) (baseURL overrides : JsValue)
    (log : list ClientEvent) : Completion JsValue * list ClientEvent :=
  let overrides := or_empty_object overrides in
  match fetchServerConfig server baseURL log with
  | (Return serverConfig, log') =>
      (if truthy serverConfig then
         and_then (get_prop serverConfig "baseURL") (fun serverBaseURL =>
         and_then (get_prop serverConfig "timeout") (fun timeout =>
         and_then (get_prop serverConfig "apiVersion") (fun apiVersion =>
         Return (JObj (spread [("baseURL", serverBaseURL); ("timeout", timeout);
                               ("apiVersion", apiVersion)] overrides)))))
       else
         Return (JObj (spread [("baseURL", baseURL); ("timeout", JNum 30000)]
                         overrides)),
       log')
  | (Throw e, log') => (Throw e, log')
  | (OutOfFuel, log') => (OutOfFuel, log')
  end.

End Config.

(* ===================================================================== *)
(** ** Further sample collaborators and stores                            *)
(* ===================================================================== *)

(** A JSON-RPC error body, as the node sends it. *)
Definition rpc_error_body (code : Z) (message : string) : JsValue :=
  JObj [("result", JNull);
        ("error", JObj [("code", JNum code); ("message", JStr message)]);
        ("id", JNum 0)]%string.

(** A node that answers every request with HTTP 500 and a JSON-RPC error. *)
Definition failing_node : Node :=
  fun _ _ => RejectedStatus "Request failed with status code 500" 500
               "Internal Server Error" (rpc_error_body (-8) "Invalid parameter").

(** A callback that fails twice with errors that are retried, then
    resolves. *)
Definition flaky_fn : Callback :=
  scripted_fn [Rejects (new_Error "socket hang up");
               Rejects (coded_error "ECONNRESET" "read ECONNRESET");
               Resolves (JNum 7)].

(** A callback that always fails with an error that is retried. *)
Definition always_failing : Callback :=
  fun _ => Rejects (new_Error "socket hang up").

(** A callback that fails once and then rejects with [null]. *)
Definition null_after_failure : Callback :=
  scripted_fn [Rejects (new_Error "socket hang up"); Rejects JNull].

(** A store with a user who has one paid invoice and one sent
    withdrawal. *)
Definition one_by_one : Database :=
  mkDatabase [sample_user]
    [sample_paid_invoice 1%nat "zs1first" 100000000]
    [sample_withdrawal 1%nat WdSent 50000000 500000].

(** Three users, stored in the order 3, 1, 2; the first and the last have
    neither invoices nor withdrawals. *)
Definition three_users : Database :=
  mkDatabase [mkUser 3%nat (Some "third@example.com"%string) None 0 0;
              sample_user;
              mkUser 2%nat None (Some "Second"%string) 0 0]
    (invoices two_by_two) (withdrawals two_by_two).

(** A store whose only withdrawal is still pending. *)
Definition only_pending : Database :=
  mkDatabase [sample_user] [] [sample_withdrawal 1%nat WdPending 50000000 500000].

(** A paid subscription that expires at time 1000. *)
Definition subscription_invoice : Invoice :=
  mkInvoice 3%nat 1%nat Subscription None 100000000 "zs1sub" InvPaid
    (Some "txid"%string) (Some 100000000) (Some 10) (Some 1000) 5 10.

Definition store_subscribed : Database :=
  mkDatabase [sample_user] [subscription_invoice] [].

(** A browser page served over https on the default port. *)
Definition https_page : JsValue :=
  JObj [("location",
         JObj [("protocol", JStr "https:"); ("hostname", JStr "shop.example");
               ("port", JStr "")])]%string.

(** A Node process with nothing but [PORT] in its environment. *)
Definition node_process : JsValue :=
  JObj [("env", JObj [("PORT", JStr "8080")])]%string.

(** A user configuration with a falsy timeout. *)
Definition zero_timeout : list (string * JsValue) :=
  [("timeout", JNum 0); ("apiKey", JStr "zp_test_key_12345")]%string.

(** An API server that serves its SDK configuration, and one that is down. *)
Definition served_config : JsValue :=
  JObj [("baseURL", JStr "https://api.shop.example"); ("timeout", JNum 15000);
        ("apiVersion", JStr "v1")]%string.

Definition config_server : Server :=
  fun _ _ => Fulfilled 200 "OK" (JObj [("sdk", served_config)]%string).

Definition server_down : Server :=
  fun _ _ => RejectedNoResponse "connect ECONNREFUSED 127.0.0.1:3000".

(** The database is down: what the pool rejects with. *)
Definition database_down : JsValue :=
  new_Error "connect ECONNREFUSED 127.0.0.1:5432".

(** A node that reports its chain. *)
Definition healthy_node : Node :=
  fun _ _ => Fulfilled 200 "OK"
               (rpc_body (JObj [("blocks", JNum 2500000); ("chain", JStr "main")]%string)).

(* ===================================================================== *)
(** * Properties of the gateway                                           *)
(* ===================================================================== *)

Section GatewayFacts.

Variable node : Node.

Local Open Scope string_scope.
Local Open Scope list_scope.
Local Open Scope Z_scope.

(** The [catch] block performs no effect. *)
Lemma rpc_catch_log error w : snd (rpc_catch error w) = w.
Proof.
  unfold rpc_catch, bind, prop, lift, throw.
  destruct (get_prop error "response") as [r | e |]; try reflexivity.
  destruct (truthy r).
  - destruct (get_prop r "status"); try reflexivity.
    destruct (get_prop r "statusText"); reflexivity.
  - destruct (get_prop error "message"); reflexivity.
Qed.

(** The [catch] block always ends by throwing. *)
Lemma rpc_catch_throws error w : exists e, fst (rpc_catch error w) = Throw e.
Proof.
  unfold rpc_catch, bind, prop, lift, throw.
  destruct error; cbn [get_prop]; try (eexists; reflexivity).
  destruct (truthy (lookup_field "response" fields)).
  - destruct (get_prop (lookup_field "response" fields) "status") eqn:E1;
      try (eexists; reflexivity).
    + destruct (get_prop (lookup_field "response" fields) "statusText") eqn:E2;
        try (eexists; reflexivity).
      destruct (lookup_field "response" fields); discriminate.
    + destruct (lookup_field "response" fields); discriminate.
  - eexists; reflexivity.
Qed.

(** The [try] block posts exactly once, whatever comes back. *)
Lemma rpc_try_log method params w :
  snd (rpc_try node method params w) = w ++ [EvPost (mkRequest method params)].
Proof.
  unfold rpc_try, bind, axios_post, prop, lift, throw.
  destruct (node w (mkRequest method params)) as [st tx data | msg st tx data | msg];
    cbn [axios_completion]; try reflexivity.
  cbn [response_object get_prop lookup_field String.eqb Ascii.eqb Bool.eqb].
  destruct (get_prop data "error") as [e | e |]; try reflexivity.
  destruct (truthy e).
  - destruct (get_prop e "message"); reflexivity.
  - destruct (get_prop data "result"); reflexivity.
Qed.

Lemma rpc_try_fuel method params w :
  fst (rpc_try node method params w) <> OutOfFuel.
Proof.
  unfold rpc_try, bind, axios_post, prop, lift, throw.
  destruct (node w (mkRequest method params)) as [st tx data | msg st tx data | msg];
    cbn [axios_completion]; try discriminate.
  cbn [response_object get_prop lookup_field String.eqb Ascii.eqb Bool.eqb].
  destruct data; cbn [get_prop]; try discriminate.
  destruct (truthy (lookup_field "error" fields)).
  - destruct (lookup_field "error" fields); cbn [get_prop]; discriminate.
  - discriminate.
Qed.

(** Whatever the node does, [zcashRpc] posts once. *)
Lemma zcashRpc_log method params w :
  snd (zcashRpc node method params w) = w ++ [EvPost (mkRequest method params)].
Proof.
  unfold zcashRpc, try_catch.
  pose proof (rpc_try_log method params w) as Hlog.
  destruct (rpc_try node method params w) as [[v | e |] w']; cbn [snd] in *; subst;
    try reflexivity.
  apply rpc_catch_log.
Qed.

(** [zcashRpc] returns or throws: it has no loop to exhaust. *)
Lemma zcashRpc_fuel method params w :
  fst (zcashRpc node method params w) <> OutOfFuel.
Proof.
  unfold zcashRpc, try_catch.
  pose proof (rpc_try_fuel method params w) as Hf.
  destruct (rpc_try node method params w) as [[v | e |] w']; cbn [fst] in *.
  - discriminate.
  - destruct (rpc_catch_throws e w') as [e' He']. rewrite He'. discriminate.
  - congruence.
Qed.

(** No response at all: a connection error carrying the client's message. *)
Lemma zcashRpc_no_response method params w message :
  node w (mkRequest method params) = RejectedNoResponse message ->
  fst (zcashRpc node method params w)
  = Throw (new_Error ("Zcash RPC Connection Error: " ++ message)).
Proof.
  intros H. unfold zcashRpc, try_catch, rpc_try, bind, axios_post.
  rewrite H. reflexivity.
Qed.

(** A response outside 2xx: an HTTP error carrying the status code. *)
Lemma zcashRpc_http_status method params w message status statusText data :
  node w (mkRequest method params) = RejectedStatus message status statusText data ->
  fst (zcashRpc node method params w)
  = Throw (new_Error ("Zcash RPC HTTP Error: " ++ decimal status
                      ++ " - " ++ statusText)).
Proof.
  intros H. unfold zcashRpc, try_catch, rpc_try, bind, axios_post.
  rewrite H. reflexivity.
Qed.

(** A 2xx response whose body carries a truthy [error]: the error thrown
    in the [try] block is caught by the [catch] block of the same function
    and leaves as a connection error. *)
Lemma zcashRpc_node_error method params w status statusText data error message :
  node w (mkRequest method params) = Fulfilled status statusText data ->
  get_prop data "error" = Return error ->
  truthy error = true ->
  get_prop error "message" = Return message ->
  fst (zcashRpc node method params w)
  = Throw (new_Error ("Zcash RPC Connection Error: "
                      ++ ("Zcash RPC Error: " ++ to_string message))).
Proof.
  intros H He Ht Hm. unfold zcashRpc, try_catch, rpc_try, bind, axios_post, prop, lift.
  rewrite H. cbn [axios_completion response_object get_prop lookup_field
                  String.eqb Ascii.eqb Bool.eqb].
  rewrite He, Ht, Hm. reflexivity.
Qed.

(** A 2xx response whose body has no truthy [error]: the body's [result]. *)
Lemma zcashRpc_result method params w status statusText data error result :
  node w (mkRequest method params) = Fulfilled status statusText data ->
  get_prop data "error" = Return error ->
  truthy error = false ->
  get_prop data "result" = Return result ->
  zcashRpc node method params w
  = (Return result, w ++ [EvPost (mkRequest method params)]).
Proof.
  intros H He Ht Hr. unfold zcashRpc, try_catch, rpc_try, bind, axios_post, prop, lift.
  rewrite H. cbn [axios_completion response_object get_prop lookup_field
                  String.eqb Ascii.eqb Bool.eqb].
  rewrite He, Ht, Hr. reflexivity.
Qed.

(** Every error that leaves [zcashRpc] is an HTTP error or a connection
    error: the ["Zcash RPC Error"] of the [try] block never reaches the
    caller under its own name. *)
Lemma zcashRpc_throws_http_or_connection method params w e :
  fst (zcashRpc node method params w) = Throw e ->
  exists text,
    e = new_Error ("Zcash RPC HTTP Error: " ++ text)
    \/ e = new_Error ("Zcash RPC Connection Error: " ++ text).
Proof.
  unfold zcashRpc, try_catch, rpc_try, bind, axios_post, prop, lift, throw.
  destruct (node w (mkRequest method params)) as [st tx data | msg st tx data | msg];
    cbn [axios_completion].
  - cbn [response_object get_prop lookup_field String.eqb Ascii.eqb Bool.eqb].
    destruct data; cbn [get_prop];
      try (intros H; inversion H; eexists; right; reflexivity);
      try (cbn; discriminate).
    destruct (truthy (lookup_field "error" fields)) eqn:Htruthy; [|cbn; discriminate].
    destruct (lookup_field "error" fields); try discriminate;
      intros H; inversion H; eexists; right; reflexivity.
  - intros H. inversion H. eexists. left. reflexivity.
  - intros H. inversion H. eexists. right. reflexivity.
Qed.

(** [getOperationStatus] posts the status query once. *)
Lemma getOperationStatus_log opid w :
  snd (getOperationStatus node opid w) = w ++ [EvPost (status_query opid)].
Proof.
  unfold getOperationStatus, bind, index, lift.
  pose proof (zcashRpc_log "z_getoperationstatus" (JArr [JArr [JStr opid]]) w) as Hlog.
  destruct (zcashRpc node "z_getoperationstatus" (JArr [JArr [JStr opid]]) w)
    as [[v | e |] w']; cbn [snd] in *; subst; reflexivity.
Qed.

Lemma getOperationStatus_fuel opid w :
  fst (getOperationStatus node opid w) <> OutOfFuel.
Proof.
  unfold getOperationStatus, bind, index, lift.
  pose proof (zcashRpc_fuel "z_getoperationstatus" (JArr [JArr [JStr opid]]) w) as Hf.
  destruct (zcashRpc node "z_getoperationstatus" (JArr [JArr [JStr opid]]) w)
    as [[v | e |] w']; cbn [fst] in *; try congruence.
  destruct v; cbn [get_index]; discriminate.
Qed.

Lemma is_final_false st :
  is_final st = false <-> st = JStr "executing" \/ st = JStr "queued".
Proof.
  unfold is_final, strict_eq_str. split.
  - destruct st; try discriminate.
    destruct (String.eqb_spec s "executing"); [subst; auto|].
    destruct (String.eqb_spec s "queued"); [subst; auto|]. discriminate.
  - intros [-> | ->]; reflexivity.
Qed.

Lemma is_final_true st :
  is_final st = true <-> st <> JStr "executing" /\ st <> JStr "queued".
Proof.
  split.
  - intros H. split; intros ->; discriminate.
  - intros [H1 H2]. destruct (is_final st) eqn:E; [reflexivity|].
    apply is_final_false in E. tauto.
Qed.

Lemma polls_snoc req interval k :
  polls req interval (S k) = polls req interval k ++ [EvPost req; EvSleep interval].
Proof.
  induction k as [|k IH]; [reflexivity|].
  simpl in *. rewrite <- IH. reflexivity.
Qed.

Lemma waitLoop_unfold fuel opid maxAttempts interval i w :
  i < maxAttempts ->
  waitLoop node (S fuel) opid maxAttempts interval i w
  = match round_of node opid w with
    | RoundFinal operation => (Return operation, w ++ [EvPost (status_query opid)])
    | RoundThrows e => (Throw e, w ++ [EvPost (status_query opid)])
    | RoundPending =>
        waitLoop node fuel opid maxAttempts interval (i + 1)
          (w ++ [EvPost (status_query opid); EvSleep interval])
    end.
Proof.
  intros Hi. cbn [waitLoop]. apply Z.ltb_lt in Hi. rewrite Hi.
  unfold round_of, bind at 1.
  pose proof (getOperationStatus_log opid w) as Hlog.
  pose proof (getOperationStatus_fuel opid w) as Hfuel.
  destruct (getOperationStatus node opid w) as [[op | e |] w']; cbn [fst snd] in *;
    subst; try congruence.
  unfold bind, prop, lift, ret, sleep.
  destruct (get_prop op "status") as [st | e |] eqn:Hst; try reflexivity.
  - destruct (is_final st); [reflexivity|].
    rewrite <- app_assoc. reflexivity.
  - destruct op; discriminate.
  - reflexivity.
Qed.

Section Polling.

Variables (opid : string) (maxAttempts interval : Z).

Let req := status_query opid.

(** [k] pending rounds in a row take the loop [k] iterations further. *)
Lemma waitLoop_pending_rounds k :
  forall fuel i w,
    (k <= fuel)%nat ->
    i + Z.of_nat k <= maxAttempts ->
    (forall j, (j < k)%nat ->
               round_of node opid (w ++ polls req interval j) = RoundPending) ->
    waitLoop node fuel opid maxAttempts interval i w
    = waitLoop node (fuel - k) opid maxAttempts interval (i + Z.of_nat k)
        (w ++ polls req interval k).
Proof.
  induction k as [|k IH]; intros fuel i w Hfuel Hi Hpending.
  - rewrite Nat.sub_0_r, Z.add_0_r, app_nil_r. reflexivity.
  - destruct fuel as [|fuel]; [lia|].
    rewrite waitLoop_unfold by lia.
    pose proof (Hpending O ltac:(lia)) as H0. cbn [polls] in H0.
    rewrite app_nil_r in H0. rewrite H0.
    rewrite IH.
    + cbn [polls Nat.sub]. rewrite <- app_assoc.
      replace (i + 1 + Z.of_nat k) with (i + Z.of_nat (S k)) by lia. reflexivity.
    + lia.
    + lia.
    + intros j Hj. specialize (Hpending (S j) ltac:(lia)).
      cbn [polls] in Hpending. rewrite <- app_assoc. exact Hpending.
Qed.

(** The loop never starves: the fuel [waitForOperation] supplies covers
    every iteration the guard [i < maxAttempts] admits. *)
Lemma waitLoop_run n :
  forall fuel i w,
    n = Z.to_nat (maxAttempts - i) ->
    (n <= fuel)%nat ->
    exists k,
      (k <= n)%nat /\
      (forall j, (j < k)%nat ->
                 round_of node opid (w ++ polls req interval j) = RoundPending) /\
      ((k = n /\
        waitLoop node fuel opid maxAttempts interval i w
        = (Throw (timeout_error opid maxAttempts), w ++ polls req interval k))
       \/
       (k < n)%nat /\
        exists c,
          waitLoop node fuel opid maxAttempts interval i w
          = (c, w ++ polls req interval k ++ [EvPost req]) /\
          match round_of node opid (w ++ polls req interval k) with
          | RoundFinal operation => c = Return operation
          | RoundThrows e => c = Throw e
          | RoundPending => False
          end).
Proof.
  induction n as [|n IH]; intros fuel i w Hn Hfuel.
  - exists O. split; [lia|]. split; [intros j Hj; lia|]. left. split; [reflexivity|].
    assert (Hge : (i <? maxAttempts) = false) by (apply Z.ltb_ge; lia).
    destruct fuel; cbn [waitLoop polls]; rewrite Hge, app_nil_r; reflexivity.
  - destruct fuel as [|fuel]; [lia|].
    rewrite waitLoop_unfold by lia.
    destruct (round_of node opid w) as [operation | | e] eqn:Hround.
    + exists O. split; [lia|]. split; [intros j Hj; lia|]. right. split; [lia|].
      exists (Return operation). cbn [polls app]. rewrite app_nil_r, Hround. auto.
    + destruct (IH fuel (i + 1) (w ++ [EvPost req; EvSleep interval]))
        as (k & Hk & Hpending & Hcases); [lia | lia |].
      exists (S k). split; [lia|]. split.
      * intros [|j] Hj; cbn [polls]; [rewrite app_nil_r; exact Hround|].
        specialize (Hpending j ltac:(lia)). rewrite <- app_assoc in Hpending.
        exact Hpending.
      * cbn [polls]. rewrite <- !app_assoc in Hcases. cbn [app] in Hcases.
        destruct Hcases as [[-> Hrun] | (Hlt & c & Hrun & Hc)].
        -- left. split; [reflexivity|]. exact Hrun.
        -- right. split; [lia|]. exists c. split; [exact Hrun|]. exact Hc.
    + exists O. split; [lia|]. split; [intros j Hj; lia|]. right. split; [lia|].
      exists (Throw e). cbn [polls app]. rewrite app_nil_r, Hround. auto.
Qed.

End Polling.

Lemma round_of_pending opid interval w k :
  pending_round node opid interval w k ->
  round_of node opid (w ++ polls (status_query opid) interval k) = RoundPending.
Proof.
  intros (operation & st & [Hobs Hst] & Hpending).
  unfold round_of. unfold observation in Hobs. rewrite Hobs, Hst.
  replace (is_final st) with false; [reflexivity|].
  symmetry. apply is_final_false. tauto.
Qed.

Lemma round_of_final opid interval w k operation st :
  observes node opid interval w k operation st ->
  st <> JStr "queued" -> st <> JStr "executing" ->
  round_of node opid (w ++ polls (status_query opid) interval k) = RoundFinal operation.
Proof.
  intros [Hobs Hst] Hq He.
  unfold round_of. unfold observation in Hobs. rewrite Hobs, Hst.
  replace (is_final st) with true; [reflexivity|].
  symmetry. apply is_final_true. tauto.
Qed.

(** What a round that was run says about the query it made. *)
Lemma round_of_cases opid interval w k :
  match round_of node opid (w ++ polls (status_query opid) interval k) with
  | RoundPending => pending_round node opid interval w k
  | RoundFinal operation =>
      exists st, observes node opid interval w k operation st
                 /\ st <> JStr "queued" /\ st <> JStr "executing"
  | RoundThrows e =>
      observation node opid interval w k = Throw e
      \/ exists operation,
           observation node opid interval w k = Return operation
           /\ get_prop operation "status" = Throw e
  end.
Proof.
  unfold round_of, pending_round, observes, observation.
  destruct (fst (getOperationStatus node opid _)) as [operation | e |] eqn:Hobs.
  - destruct (get_prop operation "status") as [st | e |] eqn:Hst.
    + destruct (is_final st) eqn:Hfinal.
      * apply is_final_true in Hfinal. exists st. tauto.
      * apply is_final_false in Hfinal. exists operation, st. tauto.
    + right. exists operation. auto.
    + destruct operation; discriminate.
  - left. reflexivity.
  - exfalso. exact (getOperationStatus_fuel _ _ Hobs).
Qed.

Lemma round_not_pending opid interval w k :
  round_of node opid (w ++ polls (status_query opid) interval k) <> RoundPending ->
  ~ pending_round node opid interval w k.
Proof. intros Hround Hpending. exact (Hround (round_of_pending _ _ _ _ Hpending)). Qed.

End GatewayFacts.

Lemma count_posts_app w1 w2 :
  count_posts (w1 ++ w2) = (count_posts w1 + count_posts w2)%nat.
Proof. unfold count_posts. rewrite filter_app, length_app. reflexivity. Qed.

Lemma count_posts_polls req interval k : count_posts (polls req interval k) = k.
Proof.
  induction k as [|k IH]; [reflexivity|].
  unfold count_posts in *. cbn [polls filter List.length]. rewrite IH. reflexivity.
Qed.

Lemma sleeps_polls req interval k : sleeps (polls req interval k) = repeat interval k.
Proof.
  induction k as [|k IH]; [reflexivity|].
  unfold sleeps in *. cbn [polls flat_map app repeat]. rewrite IH. reflexivity.
Qed.

(* ===================================================================== *)
(** * The gateway's error kinds, polling and request count                *)
(* ===================================================================== *)

Section GatewayClaims.

Local Open Scope string_scope.
Local Open Scope list_scope.
Local Open Scope Z_scope.

(** C1.  A JSON-RPC error reported by the node in a 2xx response does not
    leave [zcashRpc] as an error of its own kind: the ["Zcash RPC Error"]
    thrown inside the [try] block is caught by the [catch] block of the same
    function, which finds no [response] on it and rethrows it as a
    ["Zcash RPC Connection Error"] -- the very error a transport failure
    with the same text produces. *)
Theorem zcashRpc_node_error_leaves_as_connection_error :
  forall (method : string) (params : JsValue) (w : World)
         (status code : Z) (statusText message : string),
    let body := JObj [("result", JNull);
                      ("error", JObj [("code", JNum code); ("message", JStr message)]);
                      ("id", JNum 0)] in
    fst (zcashRpc (fun _ _ => Fulfilled status statusText body) method params w)
    = Throw (new_Error ("Zcash RPC Connection Error: Zcash RPC Error: " ++ message))
    /\ fst (zcashRpc (fun _ _ => RejectedNoResponse ("Zcash RPC Error: " ++ message))
              method params w)
       = Throw (new_Error ("Zcash RPC Connection Error: Zcash RPC Error: " ++ message)).
Proof.
  intros method params w status code statusText message body. split.
  - apply (zcashRpc_node_error _ method params w status statusText body
             (JObj [("code", JNum code); ("message", JStr message)]) (JStr message));
      reflexivity.
  - apply (zcashRpc_no_response _ method params w ("Zcash RPC Error: " ++ message)).
    reflexivity.
Qed.

(** C3.  [waitForOperation] tells a timeout from a failure reported by the
    chain.  When each of the [maxAttempts] rounds observes an operation that
    is queued or executing, it throws the timeout error.  When some round
    within the budget is the first to observe another status -- ['failed']
    included -- it returns that operation object as a value, which is not
    the timeout error. *)
Theorem waitForOperation_timeout_or_status :
  forall (node : Node) (opid : string) (maxAttempts interval : Z) (w : World),
    ((forall k, Z.of_nat k < maxAttempts -> pending_round node opid interval w k) ->
     fst (waitForOperation node opid maxAttempts interval w)
     = Throw (timeout_error opid maxAttempts))
    /\
    (forall k operation st,
        Z.of_nat k < maxAttempts ->
        (forall j, (j < k)%nat -> pending_round node opid interval w j) ->
        observes node opid interval w k operation st ->
        st <> JStr "queued" -> st <> JStr "executing" ->
        fst (waitForOperation node opid maxAttempts interval w) = Return operation
        /\ fst (waitForOperation node opid maxAttempts interval w)
           <> Throw (timeout_error opid maxAttempts)).
Proof.
  intros node opid maxAttempts interval w. unfold waitForOperation. split.
  - intros Hall.
    destruct (Z_lt_le_dec maxAttempts 0) as [Hneg | Hnonneg].
    { replace (Z.to_nat maxAttempts) with O by lia. cbn [waitLoop].
      replace (0 <? maxAttempts) with false by (symmetry; apply Z.ltb_ge; lia).
      reflexivity. }
    rewrite (waitLoop_pending_rounds node opid maxAttempts interval
               (Z.to_nat maxAttempts)); [| lia | lia |].
    + assert (Hge : (0 + Z.of_nat (Z.to_nat maxAttempts) <? maxAttempts) = false)
        by (apply Z.ltb_ge; lia).
      destruct (Z.to_nat maxAttempts - Z.to_nat maxAttempts)%nat;
        cbn [waitLoop]; rewrite Hge; reflexivity.
    + intros j Hj. apply round_of_pending. apply Hall. lia.
  - intros k operation st Hk Hbefore Hobs Hq He.
    rewrite (waitLoop_pending_rounds node opid maxAttempts interval k); [| lia | lia |].
    + destruct (Z.to_nat maxAttempts - k)%nat as [|fuel] eqn:Hfuel; [lia|].
      rewrite waitLoop_unfold by lia.
      rewrite (round_of_final node opid interval w k operation st Hobs Hq He).
      cbn [fst]. split; [reflexivity | discriminate].
    + intros j Hj. apply round_of_pending. apply Hbefore. exact Hj.
Qed.

(** C7.  For [maxAttempts >= 1], [waitForOperation] ends.  It runs [k]
    rounds that each observe an operation still queued or executing, post
    one status query and sleep [interval]; then either [k = maxAttempts],
    the budget is used up and it throws the timeout error, or
    [k < maxAttempts] and round [k] posts a last query whose answer ends
    the call: an operation with another status is returned, an error of the
    query (or of reading [status] off its result) is thrown.  It posts at
    most [maxAttempts] queries. *)
Theorem waitForOperation_terminates :
  forall (node : Node) (opid : string) (maxAttempts interval : Z) (w : World),
    1 <= maxAttempts ->
    exists (k : nat) (c : Completion JsValue) (added : World),
      waitForOperation node opid maxAttempts interval w = (c, w ++ added)
      /\ c <> OutOfFuel
      /\ Z.of_nat (count_posts added) <= maxAttempts
      /\ sleeps added = repeat interval k
      /\ (forall j, (j < k)%nat -> pending_round node opid interval w j)
      /\ ((Z.of_nat k = maxAttempts
           /\ added = polls (status_query opid) interval k
           /\ c = Throw (timeout_error opid maxAttempts))
          \/ (Z.of_nat k < maxAttempts
              /\ added = polls (status_query opid) interval k
                         ++ [EvPost (status_query opid)]
              /\ ((exists operation st,
                      observes node opid interval w k operation st
                      /\ st <> JStr "queued" /\ st <> JStr "executing"
                      /\ c = Return operation)
                  \/ (exists e,
                         c = Throw e
                         /\ (observation node opid interval w k = Throw e
                             \/ exists operation,
                                  observation node opid interval w k = Return operation
                                  /\ get_prop operation "status" = Throw e))))).
Proof.
  intros node opid maxAttempts interval w Hmax. unfold waitForOperation.
  destruct (waitLoop_run node opid maxAttempts interval (Z.to_nat maxAttempts)
              (Z.to_nat maxAttempts) 0 w) as (k & Hk & Hpending & Hcases);
    [f_equal; lia | lia |].
  assert (Hbefore : forall j, (j < k)%nat -> pending_round node opid interval w j).
  { intros j Hj. specialize (Hpending j Hj).
    pose proof (round_of_cases node opid interval w j) as Hround.
    rewrite Hpending in Hround. exact Hround. }
  destruct Hcases as [[-> Hrun] | (Hlt & c & Hrun & Hc)].
  - exists (Z.to_nat maxAttempts), (Throw (timeout_error opid maxAttempts)),
      (polls (status_query opid) interval (Z.to_nat maxAttempts)).
    split; [exact Hrun|]. split; [discriminate|].
    rewrite count_posts_polls, sleeps_polls.
    split; [lia|]. split; [reflexivity|]. split; [exact Hbefore|]. left.
    split; [lia|]. split; reflexivity.
  - exists k, c, (polls (status_query opid) interval k ++ [EvPost (status_query opid)]).
    pose proof (round_of_cases node opid interval w k) as Hround.
    split; [exact Hrun|].
    destruct (round_of node opid (w ++ polls (status_query opid) interval k))
      as [operation | | e]; [| contradiction |]; subst c.
    + split; [discriminate|].
      rewrite count_posts_app, count_posts_polls.
      split; [cbn; lia|]. split.
      { unfold sleeps. rewrite flat_map_app. cbn [flat_map app].
        rewrite app_nil_r. apply sleeps_polls. }
      split; [exact Hbefore|].
      right. split; [lia|]. split; [reflexivity|]. left.
      destruct Hround as (st & Hobs & Hq & He).
      exists operation, st. auto.
    + split; [discriminate|].
      rewrite count_posts_app, count_posts_polls.
      split; [cbn; lia|]. split.
      { unfold sleeps. rewrite flat_map_app. cbn [flat_map app].
        rewrite app_nil_r. apply sleeps_polls. }
      split; [exact Hbefore|].
      right. split; [lia|]. split; [reflexivity|]. right.
      exists e. auto.
Qed.

(** C8.  Each gateway operation built on a single [zcashRpc] call posts
    exactly one request, with its own method and parameters (defaults
    filled in), whether the call succeeds or fails.  [waitForOperation]
    alone posts several, one per polling round it runs: a round for each
    of the [k] leading observations of a queued or executing operation, up
    to the budget, and one more when an observation within the budget ends
    the call.  When all of [maxAttempts] rounds observe the operation
    unfinished it has posted [maxAttempts] requests. *)
Theorem gateway_calls_post_once :
  forall (node : Node) (w : World),
    (forall method params,
        snd (zcashRpc node method params w) = w ++ [EvPost (mkRequest method params)])
    /\ snd (generateZAddress node w)
       = w ++ [EvPost (mkRequest "z_getnewaddress" (JArr []))]
    /\ (forall address minconf,
           snd (getReceivedByAddress node address minconf w)
           = w ++ [EvPost (mkRequest "z_listreceivedbyaddress"
                             (JArr [default_to minconf (JNum 0); JArr [address]]))])
    /\ (forall recipients minconf fee,
           snd (sendMany node recipients minconf fee w)
           = w ++ [EvPost (mkRequest "z_sendmany"
                             (JArr [JStr ""; recipients; default_to minconf (JNum 1);
                                    default_to fee (JDec 1 4)]))])
    /\ (forall opid,
           snd (getOperationStatus node opid w) = w ++ [EvPost (status_query opid)])
    /\ (forall address,
           snd (validateAddress node address w)
           = w ++ [EvPost (mkRequest "validateaddress" (JArr [address]))])
    /\ snd (getBlockchainInfo node w)
       = w ++ [EvPost (mkRequest "getblockchaininfo" (JArr []))]
    /\ (forall opid maxAttempts interval,
           exists k : nat,
             (forall j, (j < k)%nat -> pending_round node opid interval w j)
             /\ ((Z.of_nat k = Z.max 0 maxAttempts
                  /\ snd (waitForOperation node opid maxAttempts interval w)
                     = w ++ polls (status_query opid) interval k)
                 \/ (Z.of_nat k < maxAttempts
                     /\ ~ pending_round node opid interval w k
                     /\ snd (waitForOperation node opid maxAttempts interval w)
                        = w ++ polls (status_query opid) interval k
                            ++ [EvPost (status_query opid)])))
    /\ (forall opid maxAttempts interval,
           (forall k, Z.of_nat k < maxAttempts -> pending_round node opid interval w k) ->
           count_posts (snd (waitForOperation node opid maxAttempts interval w))
           = (count_posts w + Z.to_nat maxAttempts)%nat).
Proof.
  intros node w.
  assert (Hwait : forall opid maxAttempts interval,
             exists k : nat,
               (forall j, (j < k)%nat -> pending_round node opid interval w j)
               /\ ((Z.of_nat k = Z.max 0 maxAttempts
                    /\ snd (waitForOperation node opid maxAttempts interval w)
                       = w ++ polls (status_query opid) interval k)
                   \/ (Z.of_nat k < maxAttempts
                       /\ ~ pending_round node opid interval w k
                       /\ snd (waitForOperation node opid maxAttempts interval w)
                          = w ++ polls (status_query opid) interval k
                              ++ [EvPost (status_query opid)]))).
  { intros opid maxAttempts interval. unfold waitForOperation.
    destruct (waitLoop_run node opid maxAttempts interval (Z.to_nat maxAttempts)
                (Z.to_nat maxAttempts) 0 w) as (k & Hk & Hpending & Hcases);
      [f_equal; lia | lia |].
    exists k. split.
    { intros j Hj. specialize (Hpending j Hj).
      pose proof (round_of_cases node opid interval w j) as Hround.
      rewrite Hpending in Hround. exact Hround. }
    destruct Hcases as [[-> Hrun] | (Hlt & c & Hrun & Hc)].
    - left. rewrite Hrun. split; [lia | reflexivity].
    - right. rewrite Hrun. split; [lia|]. split; [|reflexivity].
      apply round_not_pending. intros Hround. rewrite Hround in Hc. exact Hc. }
  split; [intros; apply zcashRpc_log|].
  split; [apply zcashRpc_log|].
  split; [intros; apply zcashRpc_log|].
  split; [intros; apply zcashRpc_log|].
  split; [intros; apply getOperationStatus_log|].
  split; [intros; apply zcashRpc_log|].
  split; [apply zcashRpc_log|].
  split; [exact Hwait|].
  intros opid maxAttempts interval Hall.
  destruct (Hwait opid maxAttempts interval)
    as (k & _ & [[Hk ->] | (Hk & Hlast & _)]).
  - rewrite count_posts_app, count_posts_polls. lia.
  - exfalso. apply Hlast. apply Hall. exact Hk.
Qed.

(** C10.  When the node answers the status query with a list,
    [getOperationStatus] returns its first element, and [undefined] when
    the list is empty, without throwing; [waitForOperation], which reads
    [status] off that result, is where the [TypeError] arises. *)
Theorem getOperationStatus_first_or_undefined :
  forall (node : Node) (opid : string) (w : World)
         (status : Z) (statusText : string) (data error : JsValue)
         (operations : list JsValue),
    node w (status_query opid) = Fulfilled status statusText data ->
    get_prop data "error" = Return error ->
    truthy error = false ->
    get_prop data "result" = Return (JArr operations) ->
    fst (getOperationStatus node opid w)
    = Return (match operations with
              | [] => JUndefined
              | first :: _ => first
              end)
    /\ (operations = [] ->
        forall maxAttempts interval,
          0 < maxAttempts ->
          waitForOperation node opid maxAttempts interval w
          = (Throw (type_error JUndefined "status"), w ++ [EvPost (status_query opid)])).
Proof.
  intros node opid w status statusText data error operations Hnode Herr Hfalsy Hres.
  assert (Hget : getOperationStatus node opid w
                 = (Return (nth 0 operations JUndefined), w ++ [EvPost (status_query opid)])).
  { unfold getOperationStatus, bind.
    rewrite (zcashRpc_result node _ _ w status statusText data error (JArr operations)
               Hnode Herr Hfalsy Hres).
    reflexivity. }
  split.
  - rewrite Hget. destruct operations; reflexivity.
  - intros -> maxAttempts interval Hmax. unfold waitForOperation.
    destruct (Z.to_nat maxAttempts) as [|fuel] eqn:Hfuel; [lia|].
    rewrite waitLoop_unfold by lia.
    unfold round_of. rewrite Hget. reflexivity.
Qed.

End GatewayClaims.

(* ===================================================================== *)
(** * Properties of the retry helper                                      *)
(* ===================================================================== *)

Section RetryFacts.

Variable fn : Callback.
Variables maxRetries baseDelay : Z.

Local Open Scope string_scope.
Local Open Scope list_scope.
Local Open Scope Z_scope.

(** One iteration of the loop. *)
Lemma retryLoop_unfold fuel attempt lastError w :
  attempt <= maxRetries ->
  retryLoop fn (S fuel) maxRetries baseDelay attempt lastError w
  = match ends_loop maxRetries attempt (fn w) with
    | Some c => (c, w ++ [EvCall (fn w)])
    | None =>
        match fn w with
        | Rejects error =>
            retryLoop fn fuel maxRetries baseDelay (attempt + 1) error
              (w ++ [EvCall (fn w); EvSleep (baseDelay * 2 ^ attempt)])
        | Resolves value => (Return value, w ++ [EvCall (fn w)])
        end
    end.
Proof.
  intros Hle. cbn [retryLoop]. apply Z.leb_le in Hle. rewrite Hle.
  unfold bind at 1, call_fn, ends_loop.
  destruct (fn w) as [value | error]; [reflexivity|].
  destruct (attempt =? maxRetries); [reflexivity|].
  unfold bind, prop, lift, throw, sleep.
  destruct (get_prop error "code") as [code | e |]; try reflexivity.
  destruct (not_retried code); [reflexivity|].
  rewrite <- app_assoc. reflexivity.
Qed.

Lemma ends_loop_retried attempt outcome :
  ends_loop maxRetries attempt outcome = None ->
  exists error code,
    outcome = Rejects error
    /\ attempt <> maxRetries
    /\ get_prop error "code" = Return code
    /\ not_retried code = false.
Proof.
  unfold ends_loop. destruct outcome as [value | error]; [discriminate|].
  destruct (Z.eqb_spec attempt maxRetries); [discriminate|].
  destruct (get_prop error "code") as [code | e |] eqn:Hget; try discriminate.
  destruct (not_retried code) eqn:Hcode; [discriminate|].
  intros _. exists error, code. repeat split; assumption.
Qed.

(** The whole run of the loop from attempt number [attempt]. *)
Lemma retryLoop_run n :
  forall fuel attempt lastError w,
    n = Z.to_nat (maxRetries + 1 - attempt) ->
    (n <= fuel)%nat ->
    (n = O /\
     retryLoop fn fuel maxRetries baseDelay attempt lastError w = (Throw lastError, w))
    \/
    exists errors c,
      (List.length errors < n)%nat
      /\ Forall retried errors
      /\ retryLoop fn fuel maxRetries baseDelay attempt lastError w
         = (c, w ++ failed_attempts baseDelay attempt errors
                 ++ [EvCall (fn (w ++ failed_attempts baseDelay attempt errors))])
      /\ ends_loop maxRetries (attempt + Z.of_nat (List.length errors))
           (fn (w ++ failed_attempts baseDelay attempt errors)) = Some c.
Proof.
  induction n as [|n IH]; intros fuel attempt lastError w Hn Hfuel.
  - left. split; [reflexivity|].
    assert (Hgt : (attempt <=? maxRetries) = false) by (apply Z.leb_gt; lia).
    destruct fuel; cbn [retryLoop]; rewrite Hgt; reflexivity.
  - right. destruct fuel as [|fuel]; [lia|].
    rewrite retryLoop_unfold by lia.
    destruct (ends_loop maxRetries attempt (fn w)) as [c |] eqn:Hends.
    + exists [], c. cbn [failed_attempts List.length app].
      rewrite app_nil_r, Z.add_0_r. repeat split; auto. lia.
    + destruct (ends_loop_retried _ _ Hends) as (error & code & Hfn & Hneq & Hcode & Hnot).
      rewrite Hfn.
      destruct (IH fuel (attempt + 1) error
                  (w ++ [EvCall (Rejects error); EvSleep (baseDelay * 2 ^ attempt)])
                  ltac:(lia) ltac:(lia))
        as [[Hzero _] | (errors & c & Hlen & Hretried & Hrun & Hc)]; [lia|].
      exists (error :: errors), c.
      cbn [failed_attempts List.length].
      assert (Hassoc : forall rest,
                 (w ++ [EvCall (Rejects error); EvSleep (baseDelay * 2 ^ attempt)]) ++ rest
                 = w ++ EvCall (Rejects error)
                        :: EvSleep (baseDelay * 2 ^ attempt) :: rest)
        by (intros rest; rewrite <- app_assoc; reflexivity).
      rewrite !Hassoc in Hrun. rewrite Hassoc in Hc.
      split; [lia|]. split; [constructor; [exists code; auto | exact Hretried]|].
      split; [exact Hrun|].
      replace (attempt + Z.of_nat (S (List.length errors)))
        with (attempt + 1 + Z.of_nat (List.length errors)) by lia.
      exact Hc.
Qed.

End RetryFacts.

Lemma get_prop_throws v k e :
  get_prop v k = Throw e -> v = JUndefined \/ v = JNull.
Proof. destruct v; cbn [get_prop]; intros H; try discriminate; auto. Qed.

Lemma get_prop_fuel v k : get_prop v k <> OutOfFuel.
Proof. destruct v; discriminate. Qed.

Lemma count_calls_app w1 w2 :
  count_calls (w1 ++ w2) = (count_calls w1 + count_calls w2)%nat.
Proof. unfold count_calls. rewrite filter_app, length_app. reflexivity. Qed.

Lemma count_calls_failed_attempts baseDelay errors :
  forall first,
    count_calls (failed_attempts baseDelay first errors) = List.length errors.
Proof.
  induction errors as [|e rest IH]; intros first; [reflexivity|].
  unfold count_calls in *. cbn [failed_attempts filter List.length].
  rewrite IH. reflexivity.
Qed.

Lemma in_failed_attempts baseDelay errors :
  forall first outcome,
    In (EvCall outcome) (failed_attempts baseDelay first errors) ->
    exists e, outcome = Rejects e /\ In e errors.
Proof.
  induction errors as [|e rest IH]; intros first outcome Hin; [contradiction|].
  cbn [failed_attempts] in Hin. destruct Hin as [Heq | [Heq | Hin]].
  - inversion Heq. exists e. split; [reflexivity | left; reflexivity].
  - discriminate.
  - destruct (IH _ _ Hin) as (e' & He' & Hin'). exists e'. split; [exact He' | right; exact Hin'].
Qed.

(** Where an element of a list that ends in [last] can sit. *)
Lemma split_before_last {A : Type} (before after front : list A) (x last : A) :
  before ++ x :: after = front ++ [last] ->
  In x front \/ (after = [] /\ x = last /\ before = front).
Proof.
  revert front. induction before as [|b before IH]; intros front Heq.
  - destruct front as [|f front]; cbn [app] in Heq.
    + inversion Heq. right. auto.
    + inversion Heq. left. left. reflexivity.
  - destruct front as [|f front]; cbn [app] in Heq.
    + inversion Heq as [[Hb Hrest]]. destruct before; discriminate.
    + inversion Heq as [[Hb Hrest]]. destruct (IH front Hrest) as [Hin | (Ha & Hx & Hb')].
      * left. right. exact Hin.
      * right. subst. auto.
Qed.

Lemma not_retried_codes code :
  code = "VALIDATION_ERROR"%string \/ code = "NOT_FOUND"%string
  \/ code = "UNAUTHORIZED"%string ->
  not_retried (JStr code) = true.
Proof. intros [-> | [-> | ->]]; reflexivity. Qed.

(* ===================================================================== *)
(** * What [retryWithBackoff] promises                                    *)
(* ===================================================================== *)

Section RetryClaims.

Local Open Scope string_scope.
Local Open Scope list_scope.
Local Open Scope Z_scope.

(** C6.  When a call of [fn] made by [retryWithBackoff] rejects with an
    error whose [code] is ['VALIDATION_ERROR'], ['NOT_FOUND'] or
    ['UNAUTHORIZED'], that call is the last event of the run -- no sleep and
    no further call follow -- and the same error is thrown to the caller. *)
Theorem retryWithBackoff_stops_on_validation_error :
  forall (fn : Callback) (maxRetries baseDelay : Z) (w before after : World)
         (error : JsValue) (code : string),
    snd (retryWithBackoff fn maxRetries baseDelay w)
    = w ++ before ++ EvCall (Rejects error) :: after ->
    get_prop error "code" = Return (JStr code) ->
    code = "VALIDATION_ERROR" \/ code = "NOT_FOUND" \/ code = "UNAUTHORIZED" ->
    after = []
    /\ fst (retryWithBackoff fn maxRetries baseDelay w) = Throw error.
Proof.
  intros fn maxRetries baseDelay w before after error code Hlog Hcode Hkind.
  apply not_retried_codes in Hkind.
  unfold retryWithBackoff in *.
  destruct (retryLoop_run fn maxRetries baseDelay (Z.to_nat (maxRetries + 1))
              (Z.to_nat (maxRetries + 1)) 0 JUndefined w ltac:(f_equal; lia) ltac:(lia))
    as [[_ Hrun] | (errors & c & _ & Hretried & Hrun & Hends)];
    rewrite Hrun in *; cbn [fst snd] in *.
  - rewrite <- (app_nil_r w) in Hlog at 1. apply app_inv_head in Hlog.
    destruct before; discriminate.
  - apply app_inv_head in Hlog. symmetry in Hlog.
    destruct (split_before_last _ _ _ _ _ Hlog) as [Hin | (Hafter & Hlast & _)].
    + exfalso. apply in_failed_attempts in Hin. destruct Hin as (e & He & Hin).
      inversion He; subst e.
      rewrite Forall_forall in Hretried.
      destruct (Hretried _ Hin) as (code' & Hcode' & Hnot).
      rewrite Hcode in Hcode'. inversion Hcode'; subst code'. congruence.
    + split; [exact Hafter|].
      inversion Hlast as [Hfn]. rewrite <- Hfn in Hends.
      unfold ends_loop in Hends. rewrite Hcode, Hkind in Hends.
      destruct (_ =? _) in Hends; congruence.
Qed.

(** C9, as amended.  For [maxRetries >= 0] and a callback that never
    rejects with [null] or [undefined], every run of [retryWithBackoff]
    keeps its contract: at most [maxRetries + 1] calls; a resolved call ends
    the run with its value; the rejected call numbered [k] is followed by a
    sleep of [baseDelay * 2 ^ k]; when every call rejected, the error of the
    last call is thrown. *)
Theorem retryWithBackoff_contract :
  forall (fn : Callback) (maxRetries baseDelay : Z) (w : World),
    0 <= maxRetries ->
    (forall w0, fn w0 <> Rejects JNull /\ fn w0 <> Rejects JUndefined) ->
    retry_contract fn maxRetries baseDelay w.
Proof.
  intros fn maxRetries baseDelay w Hmax Hfn.
  unfold retry_contract, retryWithBackoff.
  destruct (retryLoop_run fn maxRetries baseDelay (Z.to_nat (maxRetries + 1))
              (Z.to_nat (maxRetries + 1)) 0 JUndefined w ltac:(f_equal; lia) ltac:(lia))
    as [[Hzero _] | (errors & c & Hlen & Hretried & Hrun & Hends)]; [lia|].
  rewrite Hrun. cbn [fst snd].
  set (last := fn (w ++ failed_attempts baseDelay 0 errors)) in *.
  exists (failed_attempts baseDelay 0 errors ++ [EvCall last]).
  split; [reflexivity|]. split.
  { rewrite count_calls_app, count_calls_failed_attempts. cbn. lia. }
  split.
  { intros before value after Heq. symmetry in Heq.
    destruct (split_before_last _ _ _ _ _ Heq) as [Hin | (Hafter & Hlast & _)].
    - apply in_failed_attempts in Hin. destruct Hin as (e & He & _). discriminate.
    - split; [exact Hafter|]. inversion Hlast as [Hl]. rewrite <- Hl in Hends.
      cbn [ends_loop] in Hends. congruence. }
  split.
  { exists errors, last. reflexivity. }
  intros Hall.
  destruct (Hall last) as (e & He).
  { apply in_or_app. right. left. reflexivity. }
  exists (failed_attempts baseDelay 0 errors), e. rewrite He. split; [reflexivity|].
  rewrite He in Hends. unfold ends_loop in Hends.
  destruct (_ =? _) in Hends; [congruence|].
  destruct (get_prop e "code") as [code | te |] eqn:Hcode.
  - destruct (not_retried code); congruence.
  - exfalso. apply get_prop_throws in Hcode.
    specialize (Hfn (w ++ failed_attempts baseDelay 0 errors)). fold last in Hfn.
    rewrite He in Hfn. destruct Hcode as [-> | ->]; tauto.
  - exfalso. exact (get_prop_fuel _ _ Hcode).
Qed.

End RetryClaims.

(* ===================================================================== *)
(** * Properties of the store and of the two managers                     *)
(* ===================================================================== *)

Section StoreFacts.

Local Open Scope Z_scope.

Lemma update_invoices_rows db cond set now affected db' :
  update_invoices db cond set now = Some (affected, db') ->
  invoices db' = map (fun i => if cond i then touch_invoice now (set i) else i)
                   (invoices db)
  /\ withdrawals db' = withdrawals db
  /\ users db' = users db.
Proof.
  unfold update_invoices. destruct (forallb _ _); [|discriminate].
  intros H. inversion H. subst. cbn. auto.
Qed.

Lemma update_withdrawals_rows db cond set affected db' :
  update_withdrawals db cond set = Some (affected, db') ->
  invoices db' = invoices db.
Proof.
  unfold update_withdrawals. destruct (forallb _ _); [|discriminate].
  intros H. inversion H. reflexivity.
Qed.

Lemma insert_invoice_rows db row db' :
  insert_invoice db row = Some db' ->
  invoices db' = invoices db ++ [row]
  /\ ~ In (i_id row) (map i_id (invoices db)).
Proof.
  unfold insert_invoice.
  match goal with |- context [if ?c then _ else _] => destruct c eqn:Hc end;
    [|discriminate].
  apply andb_prop in Hc. destruct Hc as [Hc _].
  apply andb_prop in Hc. destruct Hc as [Hc _].
  apply andb_prop in Hc. destruct Hc as [_ Hpk].
  apply negb_true_iff in Hpk.
  intros H. inversion H. subst. cbn. split; [reflexivity|].
  intros Hin. apply in_map_iff in Hin. destruct Hin as (i & Hid & Hin).
  assert (Hex : existsb (fun i => Nat.eqb (i_id i) (i_id row)) (invoices db) = true).
  { apply existsb_exists. exists i. split; [exact Hin | apply Nat.eqb_eq; exact Hid]. }
  congruence.
Qed.

Lemma insert_withdrawal_rows db row db' :
  insert_withdrawal db row = Some db' ->
  withdrawal_checks row = true
  /\ withdrawals db' = withdrawals db ++ [row]
  /\ invoices db' = invoices db.
Proof.
  unfold insert_withdrawal.
  match goal with |- context [if ?c then _ else _] => destruct c eqn:Hc end;
    [|discriminate].
  apply andb_prop in Hc. destruct Hc as [Hc _].
  apply andb_prop in Hc. destruct Hc as [Hc _].
  intros H. inversion H. subst. cbn. auto.
Qed.

Lemma withdrawal_checks_signs row :
  withdrawal_checks row = true ->
  0 < w_amount_zec row /\ 0 <= w_fee_zec row /\ 0 < w_net_zec row.
Proof.
  unfold withdrawal_checks. intros H.
  repeat (apply andb_prop in H; destruct H as [H ?]).
  repeat split; [apply Z.ltb_lt | apply Z.leb_le | apply Z.ltb_lt]; assumption.
Qed.

(** With a primary key, the row [find_invoice] returns is the only row
    carrying that id. *)
Lemma find_invoice_unique db id invoice i :
  NoDup (map i_id (invoices db)) ->
  find_invoice db id = Some invoice ->
  In i (invoices db) -> i_id i = id -> i = invoice.
Proof.
  unfold find_invoice. induction (invoices db) as [|x rows IH]; intros Hnd Hfind Hin Hid.
  - contradiction.
  - cbn [find map] in *. inversion Hnd as [|? ? Hnotin Hnd']; subst.
    destruct (Nat.eqb_spec (i_id x) (i_id i)) as [Heq | Hneq].
    + inversion Hfind; subst. destruct Hin as [-> | Hin]; [reflexivity|].
      exfalso. apply Hnotin. rewrite Heq. apply in_map. exact Hin.
    + destruct Hin as [-> | Hin]; [congruence|]. apply IH; auto.
Qed.

Lemma map_id_update (cond : Invoice -> bool) (f : Invoice -> Invoice) rows :
  (forall i, i_id (f i) = i_id i) ->
  map i_id (map (fun i => if cond i then f i else i) rows) = map i_id rows.
Proof.
  intros Hid. rewrite map_map. apply map_ext. intros i.
  destruct (cond i); [apply Hid | reflexivity].
Qed.

(** An update that only moves pending rows to a status other than paid
    keeps the invariant. *)
Lemma update_status_settled db id s now affected db' :
  s <> InvPaid ->
  invoices_settled db ->
  update_invoices db
    (fun i => Nat.eqb (i_id i) id
              && match i_status i with InvPending => true | _ => false end)
    (set_invoice_status s) now = Some (affected, db') ->
  invoices_settled db'.
Proof.
  intros Hs [Hnd Hpaid] Hup.
  destruct (update_invoices_rows _ _ _ _ _ _ Hup) as (Hrows & _ & _).
  unfold invoices_settled. rewrite Hrows. split.
  - rewrite map_id_update; [exact Hnd | reflexivity].
  - intros i Hin Hst. apply in_map_iff in Hin. destruct Hin as (i0 & Hi & Hin0).
    match type of Hi with (if ?c then _ else _) = _ => destruct c end; subst i.
    + cbn in Hst. contradiction.
    + apply Hpaid; assumption.
Qed.

(** Receipts that sum to less than the requested amount leave the store as
    it was: the invoice is not marked paid. *)
Lemma checkPayment_short_receipts db id receipts now invoice :
  find_invoice db id = Some invoice ->
  i_status invoice <> InvPaid ->
  sum_Z (map r_amount receipts) < i_amount_zec invoice ->
  checkPayment db id receipts now = inl (false, db).
Proof.
  intros Hfind Hstatus Hshort. unfold checkPayment. rewrite Hfind.
  replace (invoice_is_paid invoice) with false
    by (unfold invoice_is_paid; destruct (i_status invoice); congruence).
  replace (i_amount_zec invoice <=? sum_Z (map r_amount receipts)) with false
    by (symmetry; apply Z.leb_gt; exact Hshort).
  reflexivity.
Qed.

(** A paid invoice found after [checkPayment] was paid before, or is the
    invoice checked, and then records the sum of the receipts handed in,
    which covers the requested amount. *)
Lemma checkPayment_paid_rows db id receipts now settled db' i' :
  NoDup (map i_id (invoices db)) ->
  checkPayment db id receipts now = inl (settled, db') ->
  In i' (invoices db') ->
  i_status i' = InvPaid ->
  In i' (invoices db)
  \/ (i_id i' = id
      /\ i_paid_amount_zec i' = Some (sum_Z (map r_amount receipts))
      /\ i_amount_zec i' <= sum_Z (map r_amount receipts)).
Proof.
  intros Hnd. unfold checkPayment.
  destruct (find_invoice db id) as [invoice |] eqn:Hfind; [|discriminate].
  destruct (invoice_is_paid invoice).
  { intros H. inversion H. subst. auto. }
  destruct (Z.leb_spec (i_amount_zec invoice) (sum_Z (map r_amount receipts)))
    as [Hcovered | Hshort].
  2:{ intros H. inversion H. subst. auto. }
  destruct (update_invoices _ _ _ _) as [[affected db1] |] eqn:Hup; [|discriminate].
  intros H. inversion H. subst db1. clear H.
  destruct (update_invoices_rows _ _ _ _ _ _ Hup) as (Hrows & _ & _).
  rewrite Hrows. intros Hin Hst. apply in_map_iff in Hin.
  destruct Hin as (i0 & Hi & Hin0).
  destruct (Nat.eqb (i_id i0) id && _) eqn:Hcond; subst i'.
  - right. apply andb_prop in Hcond. destruct Hcond as [Hid _].
    apply Nat.eqb_eq in Hid.
    rewrite (find_invoice_unique db id invoice i0 Hnd Hfind Hin0 Hid).
    cbn. split; [|split; [reflexivity | exact Hcovered]].
    rewrite <- Hid.
    rewrite (find_invoice_unique db id invoice i0 Hnd Hfind Hin0 Hid). reflexivity.
  - left. exact Hin0.
Qed.

(** An update that moves pending rows to a status other than paid adds no
    paid row. *)
Lemma update_status_paid_rows db id s now affected db' i' :
  s <> InvPaid ->
  update_invoices db
    (fun i => Nat.eqb (i_id i) id
              && match i_status i with InvPending => true | _ => false end)
    (set_invoice_status s) now = Some (affected, db') ->
  In i' (invoices db') -> i_status i' = InvPaid -> In i' (invoices db).
Proof.
  intros Hs Hup.
  destruct (update_invoices_rows _ _ _ _ _ _ Hup) as (Hrows & _ & _).
  rewrite Hrows. intros Hin Hst. apply in_map_iff in Hin.
  destruct Hin as (i0 & Hi & Hin0).
  match type of Hi with (if ?c then _ else _) = _ => destruct c end; subst i'.
  - cbn in Hst. contradiction.
  - exact Hin0.
Qed.

Section ManagerFacts.

Variable fee_policy : Z -> Z.

Lemma checkPayment_settled db id receipts now paid db' :
  invoices_settled db ->
  checkPayment db id receipts now = inl (paid, db') ->
  invoices_settled db'.
Proof.
  intros Hinv. unfold checkPayment.
  destruct (find_invoice db id) as [invoice |] eqn:Hfind; [|discriminate].
  destruct (invoice_is_paid invoice).
  { intros H. inversion H. subst. exact Hinv. }
  destruct (Z.leb_spec (i_amount_zec invoice) (sum_Z (map r_amount receipts)))
    as [Hcovered | Hshort].
  2:{ intros H. inversion H. subst. exact Hinv. }
  destruct (update_invoices _ _ _ _) as [[affected db1] |] eqn:Hup; [|discriminate].
  intros H. inversion H. subst db1. clear H.
  destruct (update_invoices_rows _ _ _ _ _ _ Hup) as (Hrows & _ & _).
  destruct Hinv as [Hnd Hpaid].
  unfold invoices_settled. rewrite Hrows. split.
  - rewrite map_id_update; [exact Hnd | reflexivity].
  - intros i Hin Hst. apply in_map_iff in Hin. destruct Hin as (i0 & Hi & Hin0).
    destruct (Nat.eqb (i_id i0) id && _) eqn:Hcond; subst i.
    + apply andb_prop in Hcond. destruct Hcond as [Hid _].
      apply Nat.eqb_eq in Hid.
      rewrite (find_invoice_unique db id invoice i0 Hnd Hfind Hin0 Hid).
      cbn. eexists. split; [reflexivity | exact Hcovered].
    + apply Hpaid; assumption.
Qed.

(** Every accepted operation keeps the invariant. *)
Lemma step_settled db db' :
  invoices_settled db -> step fee_policy db db' -> invoices_settled db'.
Proof.
  intros Hinv Hstep.
  destruct Hstep as
    [db id email name now db' H
    | db id uid kind amount item address expires now row db' H
    | db id receipts now paid db' H
    | db id now db' H
    | db id now db' H
    | db id uid destination valid amount now row db' H
    | db id db' H
    | db id success txid now db' H].
  - unfold createUser in H. destruct (_ || _) in H; [discriminate|].
    inversion H. subst. exact Hinv.
  - unfold createInvoice in H.
    destruct (amount <=? 0); [discriminate|].
    destruct (negb (user_exists db uid)); [discriminate|].
    destruct (insert_invoice db _) as [db1 |] eqn:Hins; [|discriminate].
    inversion H. subst. clear H.
    destruct (insert_invoice_rows _ _ _ Hins) as [Hrows Hfresh].
    destruct Hinv as [Hnd Hpaid]. unfold invoices_settled. rewrite Hrows. split.
    + rewrite map_app. cbn [map]. apply NoDup_app; [exact Hnd | repeat constructor; auto |].
      intros a Ha [<- | []]. exact (Hfresh Ha).
    + intros i Hin Hst. apply in_app_or in Hin. destruct Hin as [Hin | [<- | []]].
      * apply Hpaid; assumption.
      * discriminate.
  - exact (checkPayment_settled _ _ _ _ _ _ Hinv H).
  - unfold expire in H.
    destruct (find_invoice db id) as [invoice |]; [|discriminate].
    destruct (i_status invoice); try discriminate.
    destruct (i_expires_at invoice) as [deadline |]; [|discriminate].
    destruct (deadline <? now); [|discriminate].
    destruct (update_invoices _ _ _ _) as [[affected db1] |] eqn:Hup; [|discriminate].
    inversion H. subst. eapply update_status_settled; [| exact Hinv | exact Hup].
    discriminate.
  - unfold cancel in H.
    destruct (find_invoice db id) as [invoice |]; [|discriminate].
    destruct (i_status invoice); try discriminate.
    destruct (update_invoices _ _ _ _) as [[affected db1] |] eqn:Hup; [|discriminate].
    inversion H. subst. eapply update_status_settled; [| exact Hinv | exact Hup].
    discriminate.
  - unfold createWithdrawal in H.
    destruct (amount <=? 0); [discriminate|].
    destruct (negb valid); [discriminate|].
    destruct (_ <? amount); [discriminate|].
    cbn [estimateFee] in H.
    destruct (insert_withdrawal db _) as [db1 |] eqn:Hins; [|discriminate].
    inversion H. subst.
    destruct (insert_withdrawal_rows _ _ _ Hins) as (_ & _ & Hrows).
    unfold invoices_settled. rewrite Hrows. exact Hinv.
  - unfold beginProcessing in H.
    destruct (update_withdrawals _ _ _) as [[[|n] db1] |] eqn:Hup; try discriminate.
    inversion H. subst.
    unfold invoices_settled. rewrite (update_withdrawals_rows _ _ _ _ _ Hup). exact Hinv.
  - unfold finishProcessing in H.
    destruct (update_withdrawals _ _ _) as [[[|n] db1] |] eqn:Hup; try discriminate.
    inversion H. subst.
    unfold invoices_settled. rewrite (update_withdrawals_rows _ _ _ _ _ Hup). exact Hinv.
Qed.

Lemma reachable_settled db : reachable fee_policy db -> invoices_settled db.
Proof.
  induction 1 as [db Hi Hw | db db' Hreach IH Hstep].
  - unfold invoices_settled. rewrite Hi. split; [constructor | intros i []].
  - exact (step_settled _ _ IH Hstep).
Qed.

Lemma update_withdrawals_balanced db id s txid processed affected db' :
  withdrawals_balanced db ->
  update_withdrawals db id
    (fun w => set_withdrawal_status (s w) (txid w) (processed w) w)
  = Some (affected, db') ->
  withdrawals_balanced db'.
Proof.
  unfold update_withdrawals. intros Hinv.
  destruct (forallb _ _); [|discriminate].
  intros H. inversion H. subst. clear H.
  intros w Hin. cbn [withdrawals] in Hin. apply in_map_iff in Hin.
  destruct Hin as (w0 & Hw & Hin0). specialize (Hinv w0 Hin0).
  destruct (id w0); subst w; exact Hinv.
Qed.

(** Every withdrawal the system ever holds keeps the split it was created
    with. *)
Lemma reachable_withdrawals_balanced db :
  reachable fee_policy db -> withdrawals_balanced db.
Proof.
  induction 1 as [db Hi Hw | db db' Hreach IH Hstep].
  - intros w Hin. rewrite Hw in Hin. contradiction.
  - destruct Hstep as
      [db id email name now db' H
      | db id uid kind amount item address expires now row db' H
      | db id receipts now paid db' H
      | db id now db' H
      | db id now db' H
      | db id uid destination valid amount now row db' H
      | db id db' H
      | db id success txid now db' H].
    + unfold createUser in H. destruct (_ || _) in H; [discriminate|].
      inversion H. subst. exact IH.
    + unfold createInvoice in H.
      destruct (amount <=? 0); [discriminate|].
      destruct (negb (user_exists db uid)); [discriminate|].
      unfold insert_invoice in H.
      match type of H with context [if ?c then _ else _] => destruct c end;
        [|discriminate].
      inversion H. subst. exact IH.
    + unfold checkPayment in H.
      destruct (find_invoice db id) as [invoice |]; [|discriminate].
      destruct (invoice_is_paid invoice); [inversion H; subst; exact IH|].
      destruct (_ <=? _); [|inversion H; subst; exact IH].
      destruct (update_invoices _ _ _ _) as [[affected db1] |] eqn:Hup; [|discriminate].
      inversion H. subst.
      destruct (update_invoices_rows _ _ _ _ _ _ Hup) as (_ & Hrows & _).
      unfold withdrawals_balanced. rewrite Hrows. exact IH.
    + unfold expire in H.
      destruct (find_invoice db id) as [invoice |]; [|discriminate].
      destruct (i_status invoice); try discriminate.
      destruct (i_expires_at invoice) as [deadline |]; [|discriminate].
      destruct (deadline <? now); [|discriminate].
      destruct (update_invoices _ _ _ _) as [[affected db1] |] eqn:Hup; [|discriminate].
      inversion H. subst.
      destruct (update_invoices_rows _ _ _ _ _ _ Hup) as (_ & Hrows & _).
      unfold withdrawals_balanced. rewrite Hrows. exact IH.
    + unfold cancel in H.
      destruct (find_invoice db id) as [invoice |]; [|discriminate].
      destruct (i_status invoice); try discriminate.
      destruct (update_invoices _ _ _ _) as [[affected db1] |] eqn:Hup; [|discriminate].
      inversion H. subst.
      destruct (update_invoices_rows _ _ _ _ _ _ Hup) as (_ & Hrows & _).
      unfold withdrawals_balanced. rewrite Hrows. exact IH.
    + unfold createWithdrawal in H.
      destruct (amount <=? 0); [discriminate|].
      destruct (negb valid); [discriminate|].
      destruct (_ <? amount); [discriminate|].
      cbn [estimateFee] in H.
      destruct (insert_withdrawal db _) as [db1 |] eqn:Hins; [|discriminate].
      inversion H. subst. clear H.
      destruct (insert_withdrawal_rows _ _ _ Hins) as (Hchecks & Hrows & _).
      destruct (withdrawal_checks_signs _ Hchecks) as (_ & Hfee & Hnet).
      intros w Hin. rewrite Hrows in Hin. apply in_app_or in Hin.
      destruct Hin as [Hin | [<- | []]]; [exact (IH w Hin)|].
      cbn in *. repeat split; try assumption. lia.
    + unfold beginProcessing in H.
      destruct (update_withdrawals _ _ _) as [[[|n] db1] |] eqn:Hup; try discriminate.
      inversion H. subst.
      exact (update_withdrawals_balanced db _ (fun _ => WdProcessing) w_txid
               w_processed_at _ _ IH Hup).
    + unfold finishProcessing in H.
      destruct (update_withdrawals _ _ _) as [[[|n] db1] |] eqn:Hup; try discriminate.
      inversion H. subst. destruct success.
      * exact (update_withdrawals_balanced db _ (fun _ => WdSent) (fun _ => txid)
                 (fun _ => Some now) _ _ IH Hup).
      * exact (update_withdrawals_balanced db _ (fun _ => WdFailed) w_txid
                 w_processed_at _ _ IH Hup).
Qed.

(** Of the accepted operations, [checkPayment] alone adds a paid invoice. *)
Lemma step_paid_rows db db' :
  step fee_policy db db' ->
  (exists id receipts now settled, checkPayment db id receipts now = inl (settled, db'))
  \/ (forall i', In i' (invoices db') -> i_status i' = InvPaid -> In i' (invoices db)).
Proof.
  intros Hstep.
  destruct Hstep as
    [db id email name now db' H
    | db id uid kind amount item address expires now row db' H
    | db id receipts now paid db' H
    | db id now db' H
    | db id now db' H
    | db id uid destination valid amount now row db' H
    | db id db' H
    | db id success txid now db' H].
  - right. unfold createUser in H. destruct (_ || _) in H; [discriminate|].
    inversion H. subst. cbn. auto.
  - right. unfold createInvoice in H.
    destruct (amount <=? 0); [discriminate|].
    destruct (negb (user_exists db uid)); [discriminate|].
    destruct (insert_invoice db _) as [db1 |] eqn:Hins; [|discriminate].
    inversion H. subst. clear H.
    destruct (insert_invoice_rows _ _ _ Hins) as [Hrows _].
    rewrite Hrows. intros i' Hin Hst. apply in_app_or in Hin.
    destruct Hin as [Hin | [<- | []]]; [exact Hin | discriminate].
  - left. exists id, receipts, now, paid. exact H.
  - right. unfold expire in H.
    destruct (find_invoice db id) as [invoice |]; [|discriminate].
    destruct (i_status invoice); try discriminate.
    destruct (i_expires_at invoice) as [deadline |]; [|discriminate].
    destruct (deadline <? now); [|discriminate].
    destruct (update_invoices _ _ _ _) as [[affected db1] |] eqn:Hup; [|discriminate].
    inversion H. subst. intros i'.
    eapply update_status_paid_rows; [| exact Hup]. discriminate.
  - right. unfold cancel in H.
    destruct (find_invoice db id) as [invoice |]; [|discriminate].
    destruct (i_status invoice); try discriminate.
    destruct (update_invoices _ _ _ _) as [[affected db1] |] eqn:Hup; [|discriminate].
    inversion H. subst. intros i'.
    eapply update_status_paid_rows; [| exact Hup]. discriminate.
  - right. unfold createWithdrawal in H.
    destruct (amount <=? 0); [discriminate|].
    destruct (negb valid); [discriminate|].
    destruct (_ <? amount); [discriminate|].
    cbn [estimateFee] in H.
    destruct (insert_withdrawal db _) as [db1 |] eqn:Hins; [|discriminate].
    inversion H. subst.
    destruct (insert_withdrawal_rows _ _ _ Hins) as (_ & _ & Hrows).
    rewrite Hrows. auto.
  - right. unfold beginProcessing in H.
    destruct (update_withdrawals _ _ _) as [[[|n] db1] |] eqn:Hup; try discriminate.
    inversion H. subst.
    rewrite (update_withdrawals_rows _ _ _ _ _ Hup). auto.
  - right. unfold finishProcessing in H.
    destruct (update_withdrawals _ _ _) as [[[|n] db1] |] eqn:Hup; try discriminate.
    inversion H. subst.
    rewrite (update_withdrawals_rows _ _ _ _ _ Hup). auto.
Qed.

End ManagerFacts.

End StoreFacts.

(* ===================================================================== *)
(** * Invoices, withdrawals and the balance view                          *)
(* ===================================================================== *)

Section StoreClaims.

Local Open Scope Z_scope.

(** C4.  In every database state the system reaches, an invoice whose
    status is [paid] records a paid amount that is at least the requested
    amount, and the system does not mark an invoice paid on less:
    [checkPayment] with receipts that sum to less than the requested amount
    leaves the store as it was; an invoice found paid after [checkPayment]
    was paid before or records exactly the sum of the receipts handed in,
    which covers the requested amount; and no other operation adds a paid
    invoice. *)
Theorem paid_invoice_covers_requested_amount :
  forall (fee_policy : Z -> Z) (db : Database),
    reachable fee_policy db ->
    (forall i, In i (invoices db) ->
               i_status i = InvPaid ->
               exists paid, i_paid_amount_zec i = Some paid /\ i_amount_zec i <= paid)
    /\ (forall id receipts now invoice,
           find_invoice db id = Some invoice ->
           i_status invoice <> InvPaid ->
           sum_Z (map r_amount receipts) < i_amount_zec invoice ->
           checkPayment db id receipts now = inl (false, db))
    /\ (forall id receipts now settled db' i',
           checkPayment db id receipts now = inl (settled, db') ->
           In i' (invoices db') ->
           i_status i' = InvPaid ->
           In i' (invoices db)
           \/ (i_id i' = id
               /\ i_paid_amount_zec i' = Some (sum_Z (map r_amount receipts))
               /\ i_amount_zec i' <= sum_Z (map r_amount receipts)))
    /\ (forall db',
           step fee_policy db db' ->
           (exists id receipts now settled,
               checkPayment db id receipts now = inl (settled, db'))
           \/ (forall i', In i' (invoices db') -> i_status i' = InvPaid ->
                          In i' (invoices db))).
Proof.
  intros fee_policy db Hreach.
  destruct (reachable_settled fee_policy db Hreach) as [Hnd Hall].
  split; [exact Hall|].
  split; [intros id receipts now invoice; apply checkPayment_short_receipts|].
  split.
  - intros id receipts now settled db' i'. apply checkPayment_paid_rows. exact Hnd.
  - intros db'. apply step_paid_rows.
Qed.

(** The withdrawal manager, as the specification describes it, stores a
    row with [fee_zec + net_zec = amount_zec], a fee that is not negative
    and a net amount that is positive; it is the one row added to the
    table. *)
Lemma createWithdrawal_fee_plus_net_is_amount :
  forall (fee_policy : Z -> Z) (db db' : Database) (newId userId : UUID)
         (destination : string) (destination_valid : bool) (amount : Z)
         (now : Timestamp) (row : Withdrawal),
    createWithdrawal fee_policy db newId userId destination destination_valid amount now
    = inl (row, db') ->
    w_fee_zec row + w_net_zec row = w_amount_zec row
    /\ 0 <= w_fee_zec row
    /\ 0 < w_net_zec row
    /\ w_amount_zec row = amount
    /\ withdrawals db' = withdrawals db ++ [row].
Proof.
  intros fee_policy db db' newId userId destination valid amount now row.
  unfold createWithdrawal.
  destruct (amount <=? 0); [discriminate|].
  destruct (negb valid); [discriminate|].
  destruct (_ <? amount); [discriminate|].
  cbn [estimateFee].
  destruct (insert_withdrawal db _) as [db1 |] eqn:Hins; [|discriminate].
  intros H. inversion H. subst. clear H.
  destruct (insert_withdrawal_rows _ _ _ Hins) as (Hchecks & Hrows & _).
  destruct (withdrawal_checks_signs _ Hchecks) as (_ & Hfee & Hnet).
  cbn in *. repeat split; try assumption. lia.
Qed.

(** C5, as amended.  A withdrawal row that the table accepts at creation
    is the one row added, with a requested amount that is positive, a fee
    that is not negative and a net amount that is positive; the table
    relates the three amounts no further: the same row with any other
    positive net amount (of the column's precision) is accepted as well.
    Where the row does satisfy [fee_zec + net_zec = amount_zec], the checks
    bound the fee below the requested amount. *)
Theorem withdrawals_table_enforces_signs_only :
  forall (db db' : Database) (row : Withdrawal),
    insert_withdrawal db row = Some db' ->
    withdrawals db' = withdrawals db ++ [row]
    /\ 0 < w_amount_zec row
    /\ 0 <= w_fee_zec row
    /\ 0 < w_net_zec row
    /\ (w_fee_zec row + w_net_zec row = w_amount_zec row ->
        w_fee_zec row < w_amount_zec row)
    /\ (forall net,
           0 < net < 10 ^ 16 ->
           exists db'',
             insert_withdrawal db (set_net_zec net row) = Some db''
             /\ withdrawals db'' = withdrawals db ++ [set_net_zec net row]).
Proof.
  intros db db' row Hins.
  destruct (insert_withdrawal_rows _ _ _ Hins) as (Hchecks & Hrows & _).
  destruct (withdrawal_checks_signs _ Hchecks) as (Hamount & Hfee & Hnet).
  split; [exact Hrows|]. split; [exact Hamount|]. split; [exact Hfee|].
  split; [exact Hnet|]. split; [lia|].
  intros net [Hpos Hfits].
  unfold insert_withdrawal in *.
  match type of Hins with
  | (if ?c then _ else _) = _ => destruct c eqn:Hc; [|discriminate]
  end.
  apply andb_prop in Hc. destruct Hc as [Hc Huser].
  apply andb_prop in Hc. destruct Hc as [_ Hkey].
  assert (Hchecks' : withdrawal_checks (set_net_zec net row) = true).
  { unfold withdrawal_checks in *. cbn [set_net_zec w_amount_zec w_fee_zec w_net_zec
                                        w_to_address w_txid].
    repeat (apply andb_prop in Hchecks; destruct Hchecks as [Hchecks ?]).
    repeat (apply andb_true_intro; split); try assumption.
    - apply Z.ltb_lt. exact Hpos.
    - unfold fits_decimal_16_8. apply Z.ltb_lt. lia. }
  rewrite Hchecks'. cbn [set_net_zec w_id w_user_id]. rewrite Hkey, Huser.
  cbn [andb]. eexists. split; reflexivity.
Qed.

End StoreClaims.

(* ===================================================================== *)
(** * What the view [user_balances] computes                              *)
(* ===================================================================== *)

Section ViewFacts.

Local Open Scope Z_scope.

Lemma flat_map_flat_map {A B C : Type} (f : A -> list B) (g : B -> list C) l :
  flat_map g (flat_map f l) = flat_map (fun x => flat_map g (f x)) l.
Proof.
  induction l as [|x l IH]; [reflexivity|].
  cbn [flat_map]. rewrite flat_map_app, IH. reflexivity.
Qed.

Lemma joined_rows_by_user db :
  joined_rows db = flat_map (user_rows db) (users db).
Proof.
  unfold joined_rows, left_join. rewrite flat_map_flat_map. reflexivity.
Qed.

Lemma user_rows_fst db u row :
  In row (user_rows db u) -> fst (fst row) = u.
Proof.
  unfold user_rows. intros Hin. apply in_flat_map in Hin.
  destruct Hin as (ui & Hui & Hrow).
  assert (Hu : fst ui = u).
  { destruct (paid_invoices_of db u) as [|i ms].
    - destruct Hui as [<- | []]. reflexivity.
    - apply in_map_iff in Hui. destruct Hui as (i' & <- & _). reflexivity. }
  destruct (counted_withdrawals_of db (fst ui)) as [|w ms].
  - destruct Hrow as [<- | []]. exact Hu.
  - apply in_map_iff in Hrow. destruct Hrow as (w' & <- & _). exact Hu.
Qed.

Lemma user_rows_head db u :
  exists row rest, user_rows db u = row :: rest.
Proof.
  unfold user_rows.
  destruct (paid_invoices_of db u) as [|i ms]; cbn [map flat_map fst].
  - destruct (counted_withdrawals_of db u) as [|w ws]; cbn [map app]; eauto.
  - destruct (counted_withdrawals_of db u) as [|w ws]; cbn [map app]; eauto.
Qed.

Lemma option_string_eqb_refl o : option_string_eqb o o = true.
Proof. destruct o; [apply String.eqb_refl | reflexivity]. Qed.

Lemma key_eqb_refl k : key_eqb k k = true.
Proof.
  destruct k as [[id email] name]. unfold key_eqb.
  rewrite Nat.eqb_refl, !option_string_eqb_refl. reflexivity.
Qed.

Lemma key_eqb_id a b : key_eqb a b = true -> fst (fst a) = fst (fst b).
Proof.
  destruct a as [[ia ea] na], b as [[ib eb] nb]. unfold key_eqb. intros H.
  apply andb_prop in H. destruct H as [H _].
  apply andb_prop in H. destruct H as [H _].
  apply Nat.eqb_eq in H. exact H.
Qed.

Lemma group_key_user_rows db u row :
  In row (user_rows db u) -> group_key row = user_key u.
Proof. intros H. unfold group_key. rewrite (user_rows_fst _ _ _ H). reflexivity. Qed.

Lemma filter_all {A : Type} (p : A -> bool) l :
  (forall x, In x l -> p x = true) -> filter p l = l.
Proof.
  induction l as [|x l IH]; intros H; [reflexivity|].
  cbn [filter]. rewrite (H x (or_introl eq_refl)), IH; [reflexivity|].
  intros y Hy. apply H. right. exact Hy.
Qed.

Lemma filter_none {A : Type} (p : A -> bool) l :
  (forall x, In x l -> p x = false) -> filter p l = [].
Proof.
  induction l as [|x l IH]; intros H; [reflexivity|].
  cbn [filter]. rewrite (H x (or_introl eq_refl)). apply IH.
  intros y Hy. apply H. right. exact Hy.
Qed.

Lemma other_user_rows db u u' row :
  u_id u' <> u_id u ->
  In row (user_rows db u') ->
  key_eqb (user_key u) (group_key row) = false.
Proof.
  intros Hneq Hin. rewrite (group_key_user_rows _ _ _ Hin).
  destruct (key_eqb (user_key u) (user_key u')) eqn:E; [|reflexivity].
  apply key_eqb_id in E. cbn in E. congruence.
Qed.

(** With a primary key on [users], the group of a user's key is the rows
    that user contributes. *)
Lemma group_of_user db u all :
  NoDup (map u_id all) -> In u all ->
  filter (fun row => key_eqb (user_key u) (group_key row))
    (flat_map (user_rows db) all)
  = user_rows db u.
Proof.
  induction all as [|u' all IH]; intros Hnd Hin; [contradiction|].
  cbn [flat_map map] in *. rewrite filter_app.
  inversion Hnd as [|? ? Hfresh Hnd']; subst.
  destruct Hin as [-> | Hin].
  - rewrite filter_all.
    + rewrite filter_none; [apply app_nil_r|].
      intros row Hrow. apply in_flat_map in Hrow. destruct Hrow as (u' & Hu' & Hrow).
      apply (other_user_rows db u u' row); [|exact Hrow].
      intros Heq. apply Hfresh. rewrite <- Heq. apply in_map. exact Hu'.
    + intros row Hrow. rewrite (group_key_user_rows _ _ _ Hrow). apply key_eqb_refl.
  - rewrite filter_none.
    + cbn [app]. apply IH; assumption.
    + intros row Hrow. apply (other_user_rows db u u' row); [|exact Hrow].
      intros Heq. apply Hfresh. rewrite Heq. apply in_map. exact Hin.
Qed.

Lemma find_map {A B : Type} (p : B -> bool) (f : A -> B) l :
  find p (map f l) = option_map f (find (fun x => p (f x)) l).
Proof.
  induction l as [|x l IH]; [reflexivity|].
  cbn [map find]. destruct (p (f x)); [reflexivity | exact IH].
Qed.

Lemma find_pointwise {A : Type} (p q : A -> bool) l :
  (forall x, p x = q x) -> find p l = find q l.
Proof.
  intros H. induction l as [|x l IH]; [reflexivity|].
  cbn [find]. rewrite H, IH. reflexivity.
Qed.

Lemma find_filter {A : Type} (p q : A -> bool) l :
  (forall x, p x = true -> q x = true) ->
  find p (filter q l) = find p l.
Proof.
  intros Hpq. induction l as [|x l IH]; [reflexivity|].
  cbn [filter find]. destruct (p x) eqn:Hp.
  - rewrite (Hpq x Hp). cbn [find]. rewrite Hp. reflexivity.
  - destruct (q x); [cbn [find]; rewrite Hp|]; exact IH.
Qed.

(** Looking a key up by its user id does not see the removal of
    duplicates. *)
Lemma find_distinct_keys uid keys :
  find (fun k : GroupKey => Nat.eqb (fst (fst k)) uid) (distinct_keys keys)
  = find (fun k : GroupKey => Nat.eqb (fst (fst k)) uid) keys.
Proof.
  induction keys as [|k keys IH]; [reflexivity|].
  cbn [distinct_keys find].
  destruct (Nat.eqb (fst (fst k)) uid) eqn:Hk; [reflexivity|].
  rewrite find_filter; [exact IH|].
  intros k' Hk'. destruct (key_eqb k k') eqn:E; [|reflexivity].
  apply key_eqb_id in E. rewrite E in Hk. congruence.
Qed.

Lemma find_app_skip {A : Type} (p : A -> bool) l1 l2 :
  (forall x, In x l1 -> p x = false) -> find p (l1 ++ l2) = find p l2.
Proof.
  induction l1 as [|x l1 IH]; intros H; [reflexivity|].
  cbn [app find]. rewrite (H x (or_introl eq_refl)). apply IH.
  intros y Hy. apply H. right. exact Hy.
Qed.

Lemma find_user_key db u all :
  NoDup (map u_id all) -> In u all ->
  find (fun k : GroupKey => Nat.eqb (fst (fst k)) (u_id u))
    (map group_key (flat_map (user_rows db) all))
  = Some (user_key u).
Proof.
  induction all as [|u' all IH]; intros Hnd Hin; [contradiction|].
  cbn [flat_map map] in *. rewrite map_app.
  inversion Hnd as [|? ? Hfresh Hnd']; subst.
  destruct Hin as [-> | Hin].
  - destruct (user_rows_head db u) as (row & rest & Hrows).
    assert (Hkey : group_key row = user_key u).
    { apply (group_key_user_rows db u). rewrite Hrows. left. reflexivity. }
    rewrite Hrows. cbn [map app find]. rewrite Hkey. cbn [user_key fst].
    rewrite Nat.eqb_refl. reflexivity.
  - rewrite find_app_skip; [apply IH; assumption|].
    intros k Hk. apply in_map_iff in Hk. destruct Hk as (row & <- & Hrow).
    rewrite (group_key_user_rows _ _ _ Hrow). cbn [user_key fst].
    apply Nat.eqb_neq. intros Heq. apply Hfresh. rewrite Heq. apply in_map. exact Hin.
Qed.

Lemma b_id_aggregate key group : b_id (aggregate key group) = fst (fst key).
Proof. destruct key as [[id email] name]. reflexivity. Qed.

Lemma available_aggregate key group :
  available_balance_zec (aggregate key group)
  = coalesce (sql_sum (paid_amount_column group)) 0
    - coalesce (sql_sum (amount_column group)) 0.
Proof. destruct key as [[id email] name]. reflexivity. Qed.

(** The row of the view for a user, computed from that user's own rows. *)
Lemma view_row_of_user db u :
  NoDup (map u_id (users db)) -> In u (users db) ->
  view_available_balance db (u_id u)
  = Some (coalesce (sql_sum (paid_amount_column (user_rows db u))) 0
          - coalesce (sql_sum (amount_column (user_rows db u))) 0).
Proof.
  intros Hnd Hin. unfold view_available_balance, user_balances.
  rewrite find_map.
  rewrite (find_pointwise _ (fun k : GroupKey => Nat.eqb (fst (fst k)) (u_id u)))
    by (intros k; rewrite b_id_aggregate; reflexivity).
  rewrite find_distinct_keys, joined_rows_by_user, (find_user_key db u _ Hnd Hin).
  cbn [option_map]. rewrite available_aggregate.
  rewrite (group_of_user db u _ Hnd Hin). reflexivity.
Qed.

Lemma coalesce_sql_sum column :
  coalesce (sql_sum column) 0 = sum_Z (map (fun o => coalesce o 0) column).
Proof.
  induction column as [|[x|] rest IH]; cbn [sql_sum map sum_Z fold_right coalesce].
  - reflexivity.
  - fold (sum_Z (map (fun o => coalesce o 0) rest)). rewrite <- IH.
    destruct (sql_sum rest); cbn [coalesce]; lia.
  - fold (sum_Z (map (fun o => coalesce o 0) rest)). rewrite <- IH. lia.
Qed.

Lemma sum_Z_app l1 l2 : sum_Z (l1 ++ l2) = sum_Z l1 + sum_Z l2.
Proof.
  unfold sum_Z. induction l1 as [|x l1 IH]; cbn [app fold_right]; [reflexivity|].
  rewrite IH. lia.
Qed.

Lemma sum_Z_constant {A : Type} (c : Z) (l : list A) :
  sum_Z (map (fun _ => c) l) = Z.of_nat (List.length l) * c.
Proof.
  unfold sum_Z. induction l as [|x l IH]; [reflexivity|].
  cbn [map fold_right List.length]. rewrite IH. lia.
Qed.

(** The rows of one user, written over the two filtered lists. *)
Lemma user_rows_product db u :
  user_rows db u
  = flat_map (fun ui : User * option Invoice =>
                match counted_withdrawals_of db u with
                | [] => [(ui, None)]
                | matches => map (fun w => (ui, Some w)) matches
                end)
      match paid_invoices_of db u with
      | [] => [(u, None)]
      | matches => map (fun i => (u, Some i)) matches
      end.
Proof.
  unfold user_rows. destruct (paid_invoices_of db u) as [|i ms]; [reflexivity|].
  rewrite !flat_map_concat_map, !map_map. reflexivity.
Qed.

Section Sums.

Variable ws : list Withdrawal.

Let rows_of (ui : User * option Invoice) : list JoinedRow :=
  match ws with
  | [] => [(ui, None)]
  | w :: rest => map (fun w' => (ui, Some w')) (w :: rest)
  end.

Let paid_of (ui : User * option Invoice) : Z :=
  coalesce match snd ui with Some i => i_paid_amount_zec i | None => None end 0.

Lemma rows_of_length ui : List.length (rows_of ui) = Nat.max 1 (List.length ws).
Proof.
  unfold rows_of. destruct ws as [|w rest]; [reflexivity|].
  rewrite length_map. cbn [List.length]. lia.
Qed.

Lemma paid_column_rows_of ui :
  sum_Z (map (fun o => coalesce o 0) (paid_amount_column (rows_of ui)))
  = Z.of_nat (Nat.max 1 (List.length ws)) * paid_of ui.
Proof.
  rewrite <- (rows_of_length ui). unfold paid_amount_column. rewrite map_map.
  rewrite <- (sum_Z_constant (paid_of ui) (rows_of ui)).
  f_equal. apply map_ext_in. intros row Hrow.
  replace (fst row) with ui; [reflexivity|].
  unfold rows_of in Hrow. destruct ws as [|w rest].
  - destruct Hrow as [<- | []]. reflexivity.
  - apply in_map_iff in Hrow. destruct Hrow as (w' & <- & _). reflexivity.
Qed.

Lemma amount_column_rows_of ui :
  sum_Z (map (fun o => coalesce o 0) (amount_column (rows_of ui)))
  = sum_Z (map w_amount_zec ws).
Proof.
  unfold amount_column, rows_of. destruct ws as [|w rest]; [reflexivity|].
  rewrite !map_map. reflexivity.
Qed.

Lemma paid_column_product uis :
  sum_Z (map (fun o => coalesce o 0) (paid_amount_column (flat_map rows_of uis)))
  = Z.of_nat (Nat.max 1 (List.length ws)) * sum_Z (map paid_of uis).
Proof.
  induction uis as [|ui uis IH]; [cbn; lia|].
  cbn [flat_map map]. unfold paid_amount_column in *.
  rewrite !map_app, sum_Z_app.
  pose proof (paid_column_rows_of ui) as H. unfold paid_amount_column in H.
  match goal with
  | |- ?a + ?b = _ =>
      replace b with (Z.of_nat (Nat.max 1 (List.length ws)) * sum_Z (map paid_of uis))
        by (symmetry; exact IH);
      replace a with (Z.of_nat (Nat.max 1 (List.length ws)) * paid_of ui)
        by (symmetry; exact H)
  end.
  unfold sum_Z. cbn [fold_right]. lia.
Qed.

Lemma amount_column_product uis :
  sum_Z (map (fun o => coalesce o 0) (amount_column (flat_map rows_of uis)))
  = Z.of_nat (List.length uis) * sum_Z (map w_amount_zec ws).
Proof.
  induction uis as [|ui uis IH]; [cbn; lia|].
  cbn [flat_map map]. unfold amount_column in *.
  rewrite !map_app, sum_Z_app.
  pose proof (amount_column_rows_of ui) as H. unfold amount_column in H.
  match goal with
  | |- ?a + ?b = _ =>
      replace b with (Z.of_nat (List.length uis) * sum_Z (map w_amount_zec ws))
        by (symmetry; exact IH);
      replace a with (sum_Z (map w_amount_zec ws)) by (symmetry; exact H)
  end.
  cbn [List.length]. lia.
Qed.

End Sums.

(** What the view reports for a user: each sum is counted once per row of
    the other table -- the sum of the paid amounts as many times as the
    user has counted withdrawals, the sum of the withdrawn amounts as many
    times as the user has paid invoices. *)
Lemma user_balances_counts_sums_per_pair db u :
  NoDup (map u_id (users db)) -> In u (users db) ->
  view_available_balance db (u_id u)
  = Some (Z.of_nat (Nat.max 1 (List.length (counted_withdrawals_of db u)))
          * sum_Z (map (fun i => coalesce (i_paid_amount_zec i) 0)
                     (paid_invoices_of db u))
          - Z.of_nat (Nat.max 1 (List.length (paid_invoices_of db u)))
            * sum_Z (map w_amount_zec (counted_withdrawals_of db u))).
Proof.
  intros Hnd Hin. rewrite (view_row_of_user db u Hnd Hin).
  rewrite !coalesce_sql_sum, user_rows_product.
  set (uis := match paid_invoices_of db u with
              | [] => [(u, None)]
              | matches => map (fun i => (u, Some i)) matches
              end).
  pose proof (paid_column_product (counted_withdrawals_of db u) uis) as Hpaid.
  pose proof (amount_column_product (counted_withdrawals_of db u) uis) as Hamount.
  cbv zeta in Hpaid, Hamount. f_equal.
  match goal with
  | |- ?a - ?b = _ =>
      replace a with (Z.of_nat (Nat.max 1 (List.length (counted_withdrawals_of db u)))
                      * sum_Z (map (fun ui : User * option Invoice =>
                                      coalesce match snd ui with
                                               | Some i => i_paid_amount_zec i
                                               | None => None
                                               end 0) uis))
        by (symmetry; exact Hpaid);
      replace b with (Z.of_nat (List.length uis)
                      * sum_Z (map w_amount_zec (counted_withdrawals_of db u)))
        by (symmetry; exact Hamount)
  end.
  subst uis. destruct (paid_invoices_of db u) as [|i ms].
  - cbn. lia.
  - rewrite length_map, !map_map. cbn [snd].
    replace (Nat.max 1 (List.length (i :: ms))) with (List.length (i :: ms))
      by (cbn [List.length]; lia).
    reflexivity.
Qed.

Lemma spec_available_balance_of_user db u :
  spec_available_balance db (u_id u)
  = sum_Z (map (fun i => coalesce (i_paid_amount_zec i) 0) (paid_invoices_of db u))
    - sum_Z (map w_amount_zec (counted_withdrawals_of db u)).
Proof.
  unfold spec_available_balance, paid_invoices_of, counted_withdrawals_of.
  rewrite (filter_ext (fun i => Nat.eqb (i_user_id i) (u_id u) && invoice_is_paid i)
             (fun i => Nat.eqb (u_id u) (i_user_id i) && invoice_is_paid i))
    by (intros i; rewrite Nat.eqb_sym; reflexivity).
  rewrite (filter_ext (fun w => Nat.eqb (w_user_id w) (u_id u) && withdrawal_counts w)
             (fun w => Nat.eqb (u_id u) (w_user_id w) && withdrawal_counts w))
    by (intros w; rewrite Nat.eqb_sym; reflexivity).
  reflexivity.
Qed.

(** The view agrees with the specified balance as long as the user has at
    most one paid invoice and at most one counted withdrawal. *)
Lemma user_balances_right_without_pairs db u :
  NoDup (map u_id (users db)) -> In u (users db) ->
  (List.length (paid_invoices_of db u) <= 1)%nat ->
  (List.length (counted_withdrawals_of db u) <= 1)%nat ->
  view_available_balance db (u_id u) = Some (spec_available_balance db (u_id u)).
Proof.
  intros Hnd Hin Hi Hw.
  rewrite (user_balances_counts_sums_per_pair db u Hnd Hin),
    spec_available_balance_of_user.
  replace (Nat.max 1 (List.length (counted_withdrawals_of db u))) with 1%nat by lia.
  replace (Nat.max 1 (List.length (paid_invoices_of db u))) with 1%nat by lia.
  f_equal. lia.
Qed.

End ViewFacts.

(* ===================================================================== *)
(** * Sample runs, and what the tables alone enforce                       *)
(* ===================================================================== *)

Section SampleRuns.

Local Open Scope string_scope.
Local Open Scope list_scope.
Local Open Scope Z_scope.

(** C2.  With two paid invoices (1 and 2 ZEC) and two counted withdrawals
    (0.5 and 0.25 ZEC) of one user, the two [LEFT JOIN]s of [user_balances]
    pair every invoice with every withdrawal, so each sum runs over four
    rows: the view reports 6 - 1.5 = 4.5 ZEC where the sum of the paid
    amounts minus the sum of the withdrawn amounts is 3 - 0.75 = 2.25 ZEC. *)
Theorem user_balances_multiplies_sums :
  view_available_balance two_by_two 1%nat = Some 450000000
  /\ spec_available_balance two_by_two 1%nat = 225000000
  /\ map total_received_zec (user_balances two_by_two) = [600000000]
  /\ map total_withdrawn_zec (user_balances two_by_two) = [150000000].
Proof. repeat split; reflexivity. Qed.

(** C9, as stated, fails: a callback that rejects with [null] makes the
    first pass through the [catch] block read [null.code]; the [TypeError]
    of that read leaves [retryWithBackoff], not the [null] of the last (and
    only) call. *)
Lemma retry_contract_fails_on_null : ~ retry_contract rejects_null 3 1000 [].
Proof.
  unfold retry_contract. intros (added & Hlog & _ & _ & _ & Hall).
  cbn in Hlog. subst added.
  destruct Hall as (before & error & Heq & Hthrow).
  - intros outcome [H | []]. inversion H. exists JNull. reflexivity.
  - apply (app_inj_tail [] before) in Heq. destruct Heq as [_ Heq].
    inversion Heq; subst error. vm_compute in Hthrow. discriminate.
Qed.

Lemma waitForOperation_timeout_or_status_witness :
  fst (waitForOperation (scripted_node [polled "queued"; polled "executing"])
         "opid-1" 2 2500 [])
  = Throw (timeout_error "opid-1" 2)
  /\ fst (waitForOperation (scripted_node [polled "queued"; polled "failed"])
            "opid-1" 3 2500 [])
     = Return (operation_object "failed")
  /\ fst (waitForOperation (scripted_node [polled "queued"; polled "failed"])
            "opid-1" 3 2500 [])
     <> Throw (timeout_error "opid-1" 3).
Proof.
  split.
  - apply (proj1 (waitForOperation_timeout_or_status
                    (scripted_node [polled "queued"; polled "executing"])
                    "opid-1" 2 2500 [])).
    intros [|[|k]] Hk; [| | lia].
    + exists (operation_object "queued"), (JStr "queued").
      split; [split; reflexivity | left; reflexivity].
    + exists (operation_object "executing"), (JStr "executing").
      split; [split; reflexivity | right; reflexivity].
  - apply (proj2 (waitForOperation_timeout_or_status
                    (scripted_node [polled "queued"; polled "failed"])
                    "opid-1" 3 2500 [])
             1%nat (operation_object "failed") (JStr "failed")).
    + lia.
    + intros [|j] Hj; [|lia].
      exists (operation_object "queued"), (JStr "queued").
      split; [split; reflexivity | left; reflexivity].
    + split; reflexivity.
    + discriminate.
    + discriminate.
Defined.

Lemma waitForOperation_terminates_witness :
  1 <= 2
  /\ exists (k : nat) (c : Completion JsValue) (added : World),
       waitForOperation (scripted_node [polled "queued"; polled "executing"])
         "opid-1" 2 2500 [] = (c, [] ++ added)
       /\ k = 2%nat
       /\ c = Throw (timeout_error "opid-1" 2)
       /\ added = polls (status_query "opid-1") 2500 2
       /\ count_posts added = 2%nat
       /\ sleeps added = [2500; 2500].
Proof.
  split; [lia|].
  destruct (waitForOperation_terminates
              (scripted_node [polled "queued"; polled "executing"]) "opid-1" 2 2500 []
              ltac:(lia))
    as (k & c & added & Hrun & _ & _ & _ & _ & Hcases).
  exists k, c, added. split; [exact Hrun|].
  destruct Hcases as [(Hk & Hadded & Hc) | (Hk & _ & Hlast)].
  - assert (k = 2%nat) as -> by lia. subst added c. repeat split.
  - exfalso.
    destruct k as [|[|k]]; [| | lia];
      destruct Hlast as [(operation & st & [Hobs Hst] & Hq & He & _)
                        | (e & _ & [Hobs | (operation & Hobs & Hst)])];
      cbv in Hobs; try discriminate;
      inversion Hobs; subst operation; cbv in Hst; try discriminate;
      inversion Hst; subst st; [apply Hq | apply He]; reflexivity.
Defined.

Lemma gateway_calls_post_once_witness :
  snd (sendMany (scripted_node []) (JArr []) JUndefined JUndefined [])
  = [] ++ [EvPost (mkRequest "z_sendmany" (JArr [JStr ""; JArr []; JNum 1; JDec 1 4]))]
  /\ count_posts
       (snd (waitForOperation
               (scripted_node [polled "queued"; polled "executing"; polled "queued"])
               "opid-1" 3 2500 []))
     = 3%nat.
Proof.
  split.
  - destruct (gateway_calls_post_once (scripted_node []) [])
      as (_ & _ & _ & Hsend & _).
    exact (Hsend (JArr []) JUndefined JUndefined).
  - destruct (gateway_calls_post_once
                (scripted_node [polled "queued"; polled "executing"; polled "queued"]) [])
      as (_ & _ & _ & _ & _ & _ & _ & _ & Hall).
    apply (Hall "opid-1" 3 2500).
    intros [|[|[|k]]] Hk; [| | | lia].
    + exists (operation_object "queued"), (JStr "queued").
      split; [split; reflexivity | left; reflexivity].
    + exists (operation_object "executing"), (JStr "executing").
      split; [split; reflexivity | right; reflexivity].
    + exists (operation_object "queued"), (JStr "queued").
      split; [split; reflexivity | left; reflexivity].
Defined.

Lemma getOperationStatus_first_or_undefined_witness :
  fst (getOperationStatus (scripted_node [Fulfilled 200 "OK" (rpc_body (JArr []))])
         "opid-1" [])
  = Return JUndefined
  /\ waitForOperation (scripted_node [Fulfilled 200 "OK" (rpc_body (JArr []))])
       "opid-1" 50 2500 []
     = (Throw (type_error JUndefined "status"), [] ++ [EvPost (status_query "opid-1")]).
Proof.
  destruct (getOperationStatus_first_or_undefined
              (scripted_node [Fulfilled 200 "OK" (rpc_body (JArr []))])
              "opid-1" [] 200 "OK" (rpc_body (JArr [])) JNull []
              eq_refl eq_refl eq_refl eq_refl) as [Hfirst Hcaller].
  split; [exact Hfirst|].
  apply (Hcaller eq_refl 50 2500). lia.
Defined.

Lemma retryWithBackoff_stops_on_validation_error_witness :
  ([] : World) = []
  /\ fst (retryWithBackoff
            (scripted_fn [Rejects (new_Error "socket hang up");
                          Rejects (coded_error "VALIDATION_ERROR" "amount_zec must be positive");
                          Resolves (JNum 7)])
            3 1000 [])
     = Throw (coded_error "VALIDATION_ERROR" "amount_zec must be positive").
Proof.
  apply (retryWithBackoff_stops_on_validation_error
           (scripted_fn [Rejects (new_Error "socket hang up");
                         Rejects (coded_error "VALIDATION_ERROR" "amount_zec must be positive");
                         Resolves (JNum 7)])
           3 1000 []
           [EvCall (Rejects (new_Error "socket hang up")); EvSleep 1000] []
           (coded_error "VALIDATION_ERROR" "amount_zec must be positive")
           "VALIDATION_ERROR").
  - reflexivity.
  - reflexivity.
  - left. reflexivity.
Defined.

Lemma retryWithBackoff_contract_witness :
  retry_contract (fun _ => Rejects (new_Error "socket hang up")) 3 1000 [].
Proof.
  apply (retryWithBackoff_contract (fun _ => Rejects (new_Error "socket hang up")) 3 1000 []).
  - lia.
  - intros w0. split; discriminate.
Defined.

Lemma paid_invoice_covers_requested_amount_witness :
  (exists paid,
      i_paid_amount_zec settled_invoice = Some paid
      /\ i_amount_zec settled_invoice <= paid)
  /\ checkPayment store_pending 7%nat [mkReceipt 100000000 "txid-a"] 200
     = inl (false, store_pending)
  /\ (In settled_invoice (invoices store_pending)
      \/ (i_id settled_invoice = 7%nat
          /\ i_paid_amount_zec settled_invoice
             = Some (sum_Z (map r_amount [mkReceipt 150000000 "txid-a"]))
          /\ i_amount_zec settled_invoice
             <= sum_Z (map r_amount [mkReceipt 150000000 "txid-a"]))).
Proof.
  assert (Hpending : reachable one_percent store_pending).
  { apply (reachable_step one_percent fresh_store).
    - apply reachable_fresh; reflexivity.
    - apply (step_createInvoice one_percent fresh_store 7%nat 1%nat OneTime 150000000
               (Some "video-42") "zs1invoice" None 100 pending_invoice).
      reflexivity. }
  assert (Hpaid : reachable one_percent store_paid).
  { apply (reachable_step one_percent store_pending); [exact Hpending|].
    apply (step_checkPayment one_percent store_pending 7%nat
             [mkReceipt 150000000 "txid-a"] 200 true).
    reflexivity. }
  split; [|split].
  - apply (proj1 (paid_invoice_covers_requested_amount one_percent store_paid Hpaid)
             settled_invoice).
    + left. reflexivity.
    + reflexivity.
  - apply (proj1 (proj2 (paid_invoice_covers_requested_amount one_percent store_pending
                           Hpending))
             7%nat [mkReceipt 100000000 "txid-a"] 200 pending_invoice).
    + reflexivity.
    + discriminate.
    + reflexivity.
  - apply (proj1 (proj2 (proj2 (paid_invoice_covers_requested_amount one_percent
                                  store_pending Hpending)))
             7%nat [mkReceipt 150000000 "txid-a"] 200 true store_paid settled_invoice).
    + reflexivity.
    + left. reflexivity.
    + reflexivity.
Defined.

(** C5, as stated, fails: the table accepts a withdrawal of 2 ZEC whose
    row claims a fee of 1 ZEC and a net amount of 5 ZEC. *)
Lemma withdrawals_table_accepts_unbalanced_row :
  ~ withdrawal_split_enforced fresh_store unbalanced_withdrawal.
Proof.
  intros Henforced.
  destruct (Henforced (mkDatabase [sample_user] [] [unbalanced_withdrawal]) eq_refl)
    as [Hsplit _].
  discriminate Hsplit.
Qed.

Lemma withdrawals_table_enforces_signs_only_witness :
  withdrawals (mkDatabase (users two_by_two) (invoices two_by_two)
                 (withdrawals two_by_two ++ [requested_withdrawal]))
  = withdrawals two_by_two ++ [requested_withdrawal]
  /\ 0 < w_amount_zec requested_withdrawal
  /\ 0 <= w_fee_zec requested_withdrawal
  /\ 0 < w_net_zec requested_withdrawal
  /\ (w_fee_zec requested_withdrawal + w_net_zec requested_withdrawal
      = w_amount_zec requested_withdrawal ->
      w_fee_zec requested_withdrawal < w_amount_zec requested_withdrawal)
  /\ (forall net,
         0 < net < 10 ^ 16 ->
         exists db'',
           insert_withdrawal two_by_two (set_net_zec net requested_withdrawal) = Some db''
           /\ withdrawals db''
              = withdrawals two_by_two ++ [set_net_zec net requested_withdrawal]).
Proof.
  apply (withdrawals_table_enforces_signs_only two_by_two
           (mkDatabase (users two_by_two) (invoices two_by_two)
              (withdrawals two_by_two ++ [requested_withdrawal]))
           requested_withdrawal).
  reflexivity.
Defined.

(** The column checks of [withdrawals] bound each amount on its own and do
    not relate them: a row with [fee_zec + net_zec <> amount_zec] passes. *)
Remark withdrawal_checks_do_not_relate_amounts :
  exists row,
    withdrawal_checks row = true
    /\ w_fee_zec row + w_net_zec row <> w_amount_zec row.
Proof.
  exists (mkWithdrawal 9%nat 1%nat 200000000 100000000 500000000 "zs1destination"
            WdPending None 50 None).
  split; [reflexivity | discriminate].
Qed.

(** The column checks of [invoices] do not relate the paid amount to the
    requested amount either: what keeps paid invoices covered is
    [checkPayment], not the table. *)
Remark invoice_checks_admit_underpayment :
  exists i,
    invoice_checks i = true
    /\ i_status i = InvPaid
    /\ i_paid_amount_zec i = Some 100000000
    /\ i_amount_zec i = 150000000.
Proof.
  exists (mkInvoice 7%nat 1%nat OneTime None 150000000 "zs1invoice" InvPaid
            (Some "txid-a") (Some 100000000) (Some 200) None 100 200).
  repeat split; reflexivity.
Qed.

(** The scenarios of the specification: a receipt of 1.5 ZEC settles the
    invoice of 1.5 ZEC, a receipt of 1.0 ZEC leaves it pending. *)
Example checkPayment_exact_receipt :
  checkPayment store_pending 7%nat [mkReceipt 150000000 "txid-a"] 200
  = inl (true, store_paid).
Proof. reflexivity. Qed.

Example checkPayment_underpayment :
  checkPayment store_pending 7%nat [mkReceipt 100000000 "txid-a"] 200
  = inl (false, store_pending).
Proof. reflexivity. Qed.

End SampleRuns.

(* ===================================================================== *)
(** * More about the gateway                                              *)
(* ===================================================================== *)

Section GatewayEdges.

Local Open Scope string_scope.
Local Open Scope list_scope.
Local Open Scope Z_scope.

(** X2.  A response outside 2xx is reported by its status code and status
    text alone: neither the message of the HTTP client nor the body of the
    response -- which is where such a node puts its JSON-RPC error --
    reaches the caller. *)
Theorem zcashRpc_status_error_drops_body :
  forall (node : Node) (method : string) (params : JsValue) (w : World)
         (message : string) (status : Z) (statusText : string) (data : JsValue),
    node w (mkRequest method params) = RejectedStatus message status statusText data ->
    zcashRpc node method params w
    = (Throw (new_Error ("Zcash RPC HTTP Error: " ++ decimal status
                         ++ " - " ++ statusText)),
       w ++ [EvPost (mkRequest method params)]).
Proof.
  intros node method params w message status statusText data Hnode.
  rewrite (surjective_pairing (zcashRpc node method params w)).
  rewrite zcashRpc_log.
  rewrite (zcashRpc_http_status node method params w message status statusText data Hnode).
  reflexivity.
Qed.

(** X3.  A 2xx response whose body is [null] or missing is reported as a
    connection error: reading [error] off the body raises a [TypeError]
    inside the [try] block, and the [catch] block rewraps it. *)
Theorem zcashRpc_null_body_is_connection_error :
  forall (node : Node) (method : string) (params : JsValue) (w : World)
         (status : Z) (statusText : string) (data : JsValue),
    node w (mkRequest method params) = Fulfilled status statusText data ->
    data = JNull \/ data = JUndefined ->
    fst (zcashRpc node method params w)
    = Throw (new_Error ("Zcash RPC Connection Error: Cannot read properties of "
                        ++ to_string data ++ " (reading 'error')")).
Proof.
  intros node method params w status statusText data Hnode Hdata.
  unfold zcashRpc, try_catch, rpc_try, bind, axios_post, prop, lift.
  rewrite Hnode. destruct Hdata as [-> | ->]; reflexivity.
Qed.

(** X4.  A 2xx response whose body is not an object (text, a number, a
    boolean, a list) raises nothing: [zcashRpc] returns [undefined]. *)
Theorem zcashRpc_non_object_body_yields_undefined :
  forall (node : Node) (method : string) (params : JsValue) (w : World)
         (status : Z) (statusText : string) (data : JsValue),
    node w (mkRequest method params) = Fulfilled status statusText data ->
    (forall fields, data <> JObj fields) ->
    data <> JNull -> data <> JUndefined ->
    zcashRpc node method params w
    = (Return JUndefined, w ++ [EvPost (mkRequest method params)]).
Proof.
  intros node method params w status statusText data Hnode Hobj Hnull Hundef.
  apply (zcashRpc_result node method params w status statusText data JUndefined JUndefined
           Hnode); destruct data; try reflexivity; try congruence;
    exfalso; exact (Hobj fields eq_refl).
Qed.

(** X5.  With no attempt to spend ([maxAttempts <= 0]) [waitForOperation]
    asks the node nothing and throws the timeout error at once. *)
Theorem waitForOperation_without_budget :
  forall (node : Node) (opid : string) (maxAttempts interval : Z) (w : World),
    maxAttempts <= 0 ->
    waitForOperation node opid maxAttempts interval w
    = (Throw (timeout_error opid maxAttempts), w).
Proof.
  intros node opid maxAttempts interval w Hmax. unfold waitForOperation.
  replace (Z.to_nat maxAttempts) with O by lia. cbn [waitLoop].
  replace (0 <? maxAttempts) with false by (symmetry; apply Z.ltb_ge; lia).
  reflexivity.
Qed.

(** X6.  A polling round whose status query throws ends the wait there and
    then: the error of the query -- a gateway error, not the timeout -- is
    thrown after that one request, without a sleep and without another
    round, however much of the budget is left. *)
Theorem waitForOperation_aborts_on_failed_query :
  forall (node : Node) (opid : string) (maxAttempts interval : Z) (w : World)
         (k : nat) (e : JsValue),
    Z.of_nat k < maxAttempts ->
    (forall j, (j < k)%nat -> pending_round node opid interval w j) ->
    observation node opid interval w k = Throw e ->
    waitForOperation node opid maxAttempts interval w
    = (Throw e, w ++ polls (status_query opid) interval k ++ [EvPost (status_query opid)]).
Proof.
  intros node opid maxAttempts interval w k e Hk Hbefore Hobs.
  unfold waitForOperation.
  rewrite (waitLoop_pending_rounds node opid maxAttempts interval k); [| lia | lia |].
  - destruct (Z.to_nat maxAttempts - k)%nat as [|fuel] eqn:Hfuel; [lia|].
    rewrite waitLoop_unfold by lia.
    unfold round_of. unfold observation in Hobs. rewrite Hobs.
    rewrite <- app_assoc. reflexivity.
  - intros j Hj. apply round_of_pending. apply Hbefore. exact Hj.
Qed.

(** X7.  When the node answers the status query with no list at all (a
    [null] or absent [result]), [getOperationStatus] itself throws: the
    [TypeError] of indexing the result, raised outside [zcashRpc] and so
    under none of the gateway's error prefixes. *)
Theorem getOperationStatus_without_list_throws :
  forall (node : Node) (opid : string) (w : World)
         (status : Z) (statusText : string) (data error result : JsValue),
    node w (status_query opid) = Fulfilled status statusText data ->
    get_prop data "error" = Return error ->
    truthy error = false ->
    get_prop data "result" = Return result ->
    result = JNull \/ result = JUndefined ->
    getOperationStatus node opid w
    = (Throw (type_error result "0"), w ++ [EvPost (status_query opid)]).
Proof.
  intros node opid w status statusText data error result Hnode Herr Hfalsy Hres Hnull.
  unfold getOperationStatus, bind.
  rewrite (zcashRpc_result node _ _ w status statusText data error result
             Hnode Herr Hfalsy Hres).
  destruct Hnull as [-> | ->]; reflexivity.
Qed.

End GatewayEdges.

(* ===================================================================== *)
(** * More about the retry helper                                         *)
(* ===================================================================== *)

Section RetryEdges.

Local Open Scope string_scope.
Local Open Scope list_scope.
Local Open Scope Z_scope.

(** Rejections that are retried take the loop as many iterations further. *)
Lemma retryLoop_follow fn maxRetries baseDelay errors :
  forall fuel attempt lastError w,
    rejects_along fn baseDelay w attempt errors ->
    (List.length errors <= fuel)%nat ->
    attempt + Z.of_nat (List.length errors) <= maxRetries ->
    exists lastError',
      retryLoop fn fuel maxRetries baseDelay attempt lastError w
      = retryLoop fn (fuel - List.length errors) maxRetries baseDelay
          (attempt + Z.of_nat (List.length errors)) lastError'
          (w ++ failed_attempts baseDelay attempt errors).
Proof.
  induction errors as [|e rest IH]; intros fuel attempt lastError w Halong Hfuel Hle.
  - exists lastError. cbn [List.length failed_attempts].
    rewrite Nat.sub_0_r, Z.add_0_r, app_nil_r. reflexivity.
  - cbn [List.length] in *. destruct Halong as (Hfn & (code & Hcode & Hnot) & Hrest).
    destruct fuel as [|fuel]; [lia|].
    rewrite retryLoop_unfold by lia.
    unfold ends_loop. rewrite Hfn.
    replace (attempt =? maxRetries) with false by (symmetry; apply Z.eqb_neq; lia).
    rewrite Hcode, Hnot.
    destruct (IH fuel (attempt + 1) e _ Hrest ltac:(lia) ltac:(lia)) as [last' Hrun].
    exists last'. rewrite Hrun. cbn [failed_attempts Nat.sub].
    rewrite <- app_assoc. cbn [app].
    replace (attempt + 1 + Z.of_nat (List.length rest))
      with (attempt + Z.of_nat (S (List.length rest))) by lia.
    reflexivity.
Qed.

Lemma sleeps_app w1 w2 : sleeps (w1 ++ w2) = sleeps w1 ++ sleeps w2.
Proof. unfold sleeps. apply flat_map_app. Qed.

(** The backoff slept over a row of retried attempts is a geometric sum. *)
Lemma sleeps_failed_attempts baseDelay errors :
  forall first,
    0 <= first ->
    sum_Z (sleeps (failed_attempts baseDelay first errors))
    = baseDelay * 2 ^ first * (2 ^ Z.of_nat (List.length errors) - 1).
Proof.
  induction errors as [|e rest IH]; intros first Hfirst.
  - cbn. lia.
  - cbn [failed_attempts List.length]. unfold sleeps in *. cbn [flat_map app].
    unfold sum_Z in *. cbn [fold_right]. rewrite IH by lia.
    rewrite Nat2Z.inj_succ, Z.pow_succ_r by lia.
    replace (2 ^ (first + 1)) with (2 * 2 ^ first)
      by (rewrite Z.pow_add_r by lia; lia).
    ring.
Qed.

(** X8.  With a negative [maxRetries] the callback is never called, and
    what is thrown is [undefined], the initial value of [lastError]. *)
Theorem retryWithBackoff_negative_budget :
  forall (fn : Callback) (maxRetries baseDelay : Z) (w : World),
    maxRetries < 0 ->
    retryWithBackoff fn maxRetries baseDelay w = (Throw JUndefined, w).
Proof.
  intros fn maxRetries baseDelay w Hneg. unfold retryWithBackoff.
  replace (Z.to_nat (maxRetries + 1)) with O by lia. cbn [retryLoop].
  replace (0 <=? maxRetries) with false by (symmetry; apply Z.leb_gt; lia).
  reflexivity.
Qed.

(** X9.  When the callback rejects [n <= maxRetries] times with errors the
    loop retries and then resolves, [retryWithBackoff] returns that value
    after [n + 1] calls, having slept [baseDelay * (2 ^ n - 1)] in all. *)
Theorem retryWithBackoff_succeeds_after_failures :
  forall (fn : Callback) (maxRetries baseDelay : Z) (w : World)
         (errors : list JsValue) (value : JsValue),
    rejects_along fn baseDelay w 0 errors ->
    Z.of_nat (List.length errors) <= maxRetries ->
    fn (w ++ failed_attempts baseDelay 0 errors) = Resolves value ->
    retryWithBackoff fn maxRetries baseDelay w
    = (Return value,
       w ++ failed_attempts baseDelay 0 errors ++ [EvCall (Resolves value)])
    /\ sum_Z (sleeps (failed_attempts baseDelay 0 errors ++ [EvCall (Resolves value)]))
       = baseDelay * (2 ^ Z.of_nat (List.length errors) - 1).
Proof.
  intros fn maxRetries baseDelay w errors value Halong Hlen Hlast. split.
  - unfold retryWithBackoff.
    destruct (retryLoop_follow fn maxRetries baseDelay errors
                (Z.to_nat (maxRetries + 1)) 0 JUndefined w Halong
                ltac:(lia) ltac:(lia)) as [last' ->].
    destruct (Z.to_nat (maxRetries + 1) - List.length errors)%nat as [|fuel] eqn:Hfuel;
      [lia|].
    rewrite retryLoop_unfold by lia.
    rewrite Hlast. cbn [ends_loop]. rewrite <- app_assoc. reflexivity.
  - rewrite sleeps_app. cbn [sleeps flat_map]. rewrite app_nil_r.
    rewrite sleeps_failed_attempts by lia. cbn [Z.pow]. lia.
Qed.

(** X10.  When the callback rejects all [maxRetries + 1] times, the first
    [maxRetries] times with errors the loop retries, [retryWithBackoff]
    throws the last error as it is -- its [code] is not even read -- after
    sleeping [baseDelay * (2 ^ maxRetries - 1)] in all; no sleep follows the
    last call. *)
Theorem retryWithBackoff_exhausts_budget :
  forall (fn : Callback) (maxRetries baseDelay : Z) (w : World)
         (errors : list JsValue) (error : JsValue),
    rejects_along fn baseDelay w 0 errors ->
    Z.of_nat (List.length errors) = maxRetries ->
    fn (w ++ failed_attempts baseDelay 0 errors) = Rejects error ->
    retryWithBackoff fn maxRetries baseDelay w
    = (Throw error,
       w ++ failed_attempts baseDelay 0 errors ++ [EvCall (Rejects error)])
    /\ sum_Z (sleeps (failed_attempts baseDelay 0 errors ++ [EvCall (Rejects error)]))
       = baseDelay * (2 ^ maxRetries - 1).
Proof.
  intros fn maxRetries baseDelay w errors error Halong Hlen Hlast. split.
  - unfold retryWithBackoff.
    destruct (retryLoop_follow fn maxRetries baseDelay errors
                (Z.to_nat (maxRetries + 1)) 0 JUndefined w Halong
                ltac:(lia) ltac:(lia)) as [last' ->].
    destruct (Z.to_nat (maxRetries + 1) - List.length errors)%nat as [|fuel] eqn:Hfuel;
      [lia|].
    rewrite retryLoop_unfold by lia.
    rewrite Hlast. cbn [ends_loop].
    replace (0 + Z.of_nat (List.length errors) =? maxRetries) with true
      by (symmetry; apply Z.eqb_eq; lia).
    rewrite <- app_assoc. reflexivity.
  - rewrite sleeps_app. cbn [sleeps flat_map]. rewrite app_nil_r.
    rewrite sleeps_failed_attempts by lia. rewrite Hlen. cbn [Z.pow]. lia.
Qed.

(** X11.  A rejection with [null] or [undefined] while attempts remain
    ends the run with the [TypeError] of reading its [code]: the callback is
    not called again and what it rejected with is lost. *)
Theorem retryWithBackoff_nullish_rejection :
  forall (fn : Callback) (maxRetries baseDelay : Z) (w : World)
         (errors : list JsValue) (error : JsValue),
    rejects_along fn baseDelay w 0 errors ->
    Z.of_nat (List.length errors) < maxRetries ->
    fn (w ++ failed_attempts baseDelay 0 errors) = Rejects error ->
    error = JNull \/ error = JUndefined ->
    retryWithBackoff fn maxRetries baseDelay w
    = (Throw (type_error error "code"),
       w ++ failed_attempts baseDelay 0 errors ++ [EvCall (Rejects error)]).
Proof.
  intros fn maxRetries baseDelay w errors error Halong Hlen Hlast Hnull.
  unfold retryWithBackoff.
  destruct (retryLoop_follow fn maxRetries baseDelay errors
              (Z.to_nat (maxRetries + 1)) 0 JUndefined w Halong
              ltac:(lia) ltac:(lia)) as [last' ->].
  destruct (Z.to_nat (maxRetries + 1) - List.length errors)%nat as [|fuel] eqn:Hfuel;
    [lia|].
  rewrite retryLoop_unfold by lia.
  rewrite Hlast. cbn [ends_loop].
  replace (0 + Z.of_nat (List.length errors) =? maxRetries) with false
    by (symmetry; apply Z.eqb_neq; lia).
  rewrite <- app_assoc. destruct Hnull as [-> | ->]; reflexivity.
Qed.

End RetryEdges.

(* ===================================================================== *)
(** * More about the views                                                *)
(* ===================================================================== *)

Section ViewEdges.

Local Open Scope list_scope.
Local Open Scope Z_scope.

Lemma in_distinct_keys keys k : In k (distinct_keys keys) -> In k keys.
Proof.
  revert k. induction keys as [|x keys IH]; intros k Hin; [contradiction|].
  cbn [distinct_keys] in Hin. destruct Hin as [<- | Hin]; [left; reflexivity|].
  apply filter_In in Hin. right. apply IH. tauto.
Qed.

(** A block of equal keys in front of keys of other users leaves one key. *)
Lemma distinct_keys_block k block rest :
  block <> [] ->
  (forall x, In x block -> x = k) ->
  (forall x, In x rest -> key_eqb k x = false) ->
  distinct_keys (block ++ rest) = k :: distinct_keys rest.
Proof.
  intros Hne Hblock Hrest.
  assert (Hkeep : filter (fun k' => negb (key_eqb k k')) (distinct_keys rest)
                  = distinct_keys rest).
  { apply filter_all. intros x Hx. apply in_distinct_keys in Hx.
    rewrite (Hrest x Hx). reflexivity. }
  induction block as [|x block IH]; [congruence|].
  assert (Hx : x = k) by (apply Hblock; left; reflexivity). subst x.
  cbn [app distinct_keys]. f_equal.
  destruct block as [|y block].
  - cbn [app]. exact Hkeep.
  - rewrite IH.
    + cbn [filter]. rewrite key_eqb_refl. cbn [negb]. exact Hkeep.
    + discriminate.
    + intros z Hz. apply Hblock. right. exact Hz.
Qed.

Lemma keys_of_users db all :
  NoDup (map u_id all) ->
  distinct_keys (map group_key (flat_map (user_rows db) all)) = map user_key all.
Proof.
  induction all as [|u all IH]; intros Hnd; [reflexivity|].
  cbn [flat_map map] in *. inversion Hnd as [|? ? Hfresh Hnd']; subst.
  rewrite map_app.
  rewrite (distinct_keys_block (user_key u)).
  - rewrite IH by exact Hnd'. reflexivity.
  - destruct (user_rows_head db u) as (row & rest & ->). discriminate.
  - intros x Hx. apply in_map_iff in Hx. destruct Hx as (row & <- & Hrow).
    apply (group_key_user_rows db u). exact Hrow.
  - intros x Hx. apply in_map_iff in Hx. destruct Hx as (row & <- & Hrow).
    apply in_flat_map in Hrow. destruct Hrow as (u' & Hu' & Hrow).
    apply (other_user_rows db u u' row); [|exact Hrow].
    intros Heq. apply Hfresh. rewrite <- Heq. apply in_map. exact Hu'.
Qed.

(** With a primary key on [users], the view is one row per user, in table
    order, each computed from the rows of that user alone. *)
Lemma user_balances_by_user db :
  NoDup (map u_id (users db)) ->
  user_balances db
  = map (fun u => aggregate (user_key u) (user_rows db u)) (users db).
Proof.
  intros Hnd. unfold user_balances.
  rewrite joined_rows_by_user, (keys_of_users db _ Hnd), map_map.
  apply map_ext_in. intros u Hu.
  rewrite (group_of_user db u _ Hnd Hu). reflexivity.
Qed.

Lemma user_balances_ids db :
  NoDup (map u_id (users db)) ->
  map b_id (user_balances db) = map u_id (users db).
Proof.
  intros Hnd. rewrite (user_balances_by_user db Hnd), map_map.
  apply map_ext. intros u. apply b_id_aggregate.
Qed.

(** X12.  [user_balances] has exactly one row per user, whatever the order
    of its rows: no two rows share an id, there are as many rows as users,
    every user -- also one without any invoice or withdrawal -- has a row
    carrying its id, email and name, and every row is a user's. *)
Theorem user_balances_one_row_per_user :
  forall db : Database,
    NoDup (map u_id (users db)) ->
    NoDup (map b_id (user_balances db))
    /\ List.length (user_balances db) = List.length (users db)
    /\ (forall u, In u (users db) ->
                  exists row, In row (user_balances db)
                              /\ b_id row = u_id u
                              /\ b_email row = u_email u
                              /\ b_name row = u_name u)
    /\ (forall row, In row (user_balances db) ->
                    exists u, In u (users db) /\ b_id row = u_id u).
Proof.
  intros db Hnd.
  split; [rewrite (user_balances_ids db Hnd); exact Hnd|].
  split.
  { rewrite <- (length_map b_id), (user_balances_ids db Hnd). apply length_map. }
  rewrite (user_balances_by_user db Hnd). split.
  - intros u Hu. exists (aggregate (user_key u) (user_rows db u)).
    split; [apply in_map_iff; exists u; auto|].
    repeat split.
  - intros row Hrow. apply in_map_iff in Hrow. destruct Hrow as (u & <- & Hu).
    exists u. split; [exact Hu | reflexivity].
Qed.

End ViewEdges.

Section ViewColumns.

Local Open Scope list_scope.
Local Open Scope Z_scope.

Lemma find_row_of_user (f : User -> BalanceRow) all u :
  (forall x, b_id (f x) = u_id x) ->
  NoDup (map u_id all) -> In u all ->
  find (fun row => Nat.eqb (b_id row) (u_id u)) (map f all) = Some (f u).
Proof.
  intros Hid. induction all as [|x all IH]; intros Hnd Hin; [contradiction|].
  cbn [map find] in *. inversion Hnd as [|? ? Hfresh Hnd']; subst. rewrite Hid.
  destruct Hin as [-> | Hin].
  - rewrite Nat.eqb_refl. reflexivity.
  - destruct (Nat.eqb_spec (u_id x) (u_id u)) as [Heq | Hneq].
    + exfalso. apply Hfresh. rewrite Heq. apply in_map. exact Hin.
    + apply IH; assumption.
Qed.

Lemma sql_count_app {A : Type} (c1 c2 : list (option A)) :
  sql_count (c1 ++ c2) = (sql_count c1 + sql_count c2)%nat.
Proof. unfold sql_count. rewrite filter_app, length_app. reflexivity. Qed.

Lemma sql_count_none {A B : Type} (l : list B) :
  sql_count (map (fun _ => @None A) l) = O.
Proof. induction l as [|x l IH]; [reflexivity | exact IH]. Qed.

Lemma sql_count_some {A B : Type} (f : B -> A) (l : list B) :
  sql_count (map (fun x => Some (f x)) l) = List.length l.
Proof.
  unfold sql_count. induction l as [|x l IH]; [reflexivity|].
  cbn [map filter List.length]. rewrite IH. reflexivity.
Qed.

Section Counts.

Variable ws : list Withdrawal.

Let rows_of (ui : User * option Invoice) : list JoinedRow :=
  match ws with
  | [] => [(ui, None)]
  | w :: rest => map (fun w' => (ui, Some w')) (w :: rest)
  end.

Lemma rows_of_size ui : List.length (rows_of ui) = Nat.max 1 (List.length ws).
Proof.
  unfold rows_of. destruct ws as [|w rest]; [reflexivity|].
  rewrite length_map. cbn [List.length]. lia.
Qed.

Lemma invoice_count_rows_of ui :
  sql_count (map (fun row : JoinedRow => option_map i_id (snd (fst row))) (rows_of ui))
  = match snd ui with
    | Some _ => Nat.max 1 (List.length ws)
    | None => O
    end.
Proof.
  rewrite <- (rows_of_size ui).
  rewrite (map_ext_in _ (fun _ => option_map i_id (snd ui))).
  - destruct (snd ui) as [i |]; cbn [option_map].
    + apply (sql_count_some (fun _ : JoinedRow => i_id i)).
    + apply sql_count_none.
  - intros row Hrow. replace (fst row) with ui; [reflexivity|].
    unfold rows_of in Hrow. destruct ws as [|w rest].
    + destruct Hrow as [<- | []]. reflexivity.
    + apply in_map_iff in Hrow. destruct Hrow as (w' & <- & _). reflexivity.
Qed.

Lemma withdrawal_count_rows_of ui :
  sql_count (map (fun row : JoinedRow => option_map w_id (snd row)) (rows_of ui))
  = List.length ws.
Proof.
  unfold rows_of. destruct ws as [|w rest]; [reflexivity|].
  rewrite map_map. cbn [snd option_map].
  apply (sql_count_some w_id).
Qed.

Lemma invoice_count_product uis :
  sql_count (map (fun row : JoinedRow => option_map i_id (snd (fst row)))
               (flat_map rows_of uis))
  = (Nat.max 1 (List.length ws)
     * List.length (filter (fun ui : User * option Invoice =>
                              match snd ui with Some _ => true | None => false end)
                      uis))%nat.
Proof.
  induction uis as [|ui uis IH]; [cbn; lia|].
  cbn [flat_map filter]. rewrite map_app, sql_count_app, IH, invoice_count_rows_of.
  destruct (snd ui); cbn [List.length]; lia.
Qed.

Lemma withdrawal_count_product uis :
  sql_count (map (fun row : JoinedRow => option_map w_id (snd row))
               (flat_map rows_of uis))
  = (List.length uis * List.length ws)%nat.
Proof.
  induction uis as [|ui uis IH]; [reflexivity|].
  cbn [flat_map List.length]. rewrite map_app, sql_count_app, IH, withdrawal_count_rows_of.
  lia.
Qed.

End Counts.

(** X13.  The row of [user_balances] for a user, column by column: with
    [p] paid invoices and [w] counted withdrawals, the received total is
    the sum of the paid amounts times [max 1 w], the withdrawn total the sum
    of the withdrawn amounts times [max 1 p], and the two counters read
    [p * max 1 w] and [w * max 1 p]. *)
Theorem user_balances_row_columns :
  forall (db : Database) (u : User),
    NoDup (map u_id (users db)) -> In u (users db) ->
    let invoices_paid := paid_invoices_of db u in
    let withdrawals_counted := counted_withdrawals_of db u in
    let p := List.length invoices_paid in
    let w := List.length withdrawals_counted in
    let received :=
      Z.of_nat (Nat.max 1 w)
      * sum_Z (map (fun i => coalesce (i_paid_amount_zec i) 0) invoices_paid) in
    let withdrawn :=
      Z.of_nat (Nat.max 1 p) * sum_Z (map w_amount_zec withdrawals_counted) in
    balance_row db (u_id u)
    = Some (mkBalanceRow (u_id u) (u_email u) (u_name u)
              received withdrawn (received - withdrawn)
              (p * Nat.max 1 w) (w * Nat.max 1 p)).
Proof.
  intros db u Hnd Hin. cbv zeta. unfold balance_row.
  rewrite (user_balances_by_user db Hnd).
  rewrite (find_row_of_user (fun x => aggregate (user_key x) (user_rows db x)) _ u
             (fun x => b_id_aggregate (user_key x) (user_rows db x)) Hnd Hin).
  f_equal. unfold aggregate, user_key.
  rewrite !coalesce_sql_sum, user_rows_product.
  set (uis := match paid_invoices_of db u with
              | [] => [(u, None)]
              | matches => map (fun i => (u, Some i)) matches
              end).
  pose proof (paid_column_product (counted_withdrawals_of db u) uis) as Hpaid.
  pose proof (amount_column_product (counted_withdrawals_of db u) uis) as Hamount.
  pose proof (invoice_count_product (counted_withdrawals_of db u) uis) as Hic.
  pose proof (withdrawal_count_product (counted_withdrawals_of db u) uis) as Hwc.
  cbv zeta in Hpaid, Hamount, Hic, Hwc.
  assert (Hsize : List.length uis = Nat.max 1 (List.length (paid_invoices_of db u))).
  { subst uis. destruct (paid_invoices_of db u) as [|i ms]; [reflexivity|].
    rewrite length_map. cbn [List.length]. lia. }
  assert (Hsome : List.length (filter (fun ui : User * option Invoice =>
                                         match snd ui with Some _ => true | None => false end)
                                 uis)
                  = List.length (paid_invoices_of db u)).
  { subst uis. destruct (paid_invoices_of db u) as [|i ms]; [reflexivity|].
    rewrite filter_all; [apply length_map|].
    intros ui Hui. apply in_map_iff in Hui. destruct Hui as (i' & <- & _). reflexivity. }
  assert (Hsum : sum_Z (map (fun ui : User * option Invoice =>
                               coalesce match snd ui with
                                        | Some i => i_paid_amount_zec i
                                        | None => None
                                        end 0) uis)
                 = sum_Z (map (fun i => coalesce (i_paid_amount_zec i) 0)
                            (paid_invoices_of db u))).
  { subst uis. destruct (paid_invoices_of db u) as [|i ms]; [reflexivity|].
    rewrite map_map. reflexivity. }
  rewrite Hsize, Hsome in *. rewrite Hsum in Hpaid.
  f_equal.
  - etransitivity; [exact Hpaid | reflexivity].
  - etransitivity; [exact Hamount | reflexivity].
  - f_equal.
    + etransitivity; [exact Hpaid | reflexivity].
    + etransitivity; [exact Hamount | reflexivity].
  - etransitivity; [exact Hic | lia].
  - etransitivity; [exact Hwc | lia].
Qed.

End ViewColumns.

Section OtherViews.

Local Open Scope list_scope.
Local Open Scope Z_scope.

(** The three aggregates over a column without NULLs and with at least one
    value. *)
Lemma aggregates_of_values x rest :
  exists lo hi,
    sql_sum (map Some (x :: rest)) = Some (sum_Z (x :: rest))
    /\ sql_min (map Some (x :: rest)) = Some lo
    /\ sql_max (map Some (x :: rest)) = Some hi
    /\ In lo (x :: rest) /\ In hi (x :: rest)
    /\ forall y, In y (x :: rest) -> lo <= y <= hi.
Proof.
  revert x. induction rest as [|z rest IH]; intros x.
  - exists x, x. cbn [map sql_sum sql_min sql_max].
    split; [unfold sum_Z; cbn [fold_right]; f_equal; lia|].
    split; [reflexivity|]. split; [reflexivity|].
    split; [left; reflexivity|]. split; [left; reflexivity|].
    intros y [<- | []]. lia.
  - destruct (IH z) as (lo & hi & Hsum & Hmin & Hmax & Hlo & Hhi & Hall).
    exists (Z.min x lo), (Z.max x hi).
    change (map Some (x :: z :: rest)) with (Some x :: map Some (z :: rest)).
    cbn [sql_sum sql_min sql_max]. rewrite Hsum, Hmin, Hmax.
    split; [reflexivity|]. split; [reflexivity|]. split; [reflexivity|].
    split; [|split].
    + destruct (Z.min_spec x lo) as [[_ ->] | [_ ->]]; [left; reflexivity | right; exact Hlo].
    + destruct (Z.max_spec x hi) as [[_ ->] | [_ ->]]; [right; exact Hhi | left; reflexivity].
    + intros y [<- | Hy]; [lia|]. specialize (Hall y Hy). lia.
Qed.

Lemma sum_Z_bounds lo hi l :
  (forall y, In y l -> lo <= y <= hi) ->
  Z.of_nat (List.length l) * lo <= sum_Z l <= Z.of_nat (List.length l) * hi.
Proof.
  unfold sum_Z. induction l as [|x l IH]; intros Hall; [cbn; lia|].
  cbn [fold_right List.length].
  assert (Hx := Hall x (or_introl eq_refl)).
  assert (Hl := IH (fun y Hy => Hall y (or_intror Hy))).
  rewrite Nat2Z.inj_succ. lia.
Qed.

(** X15.  While no withdrawal is sent or processing, [platform_revenue]
    still yields its one row, with 0 withdrawals and with NULL -- not 0 --
    as total, smallest and largest fee. *)
Theorem platform_revenue_without_withdrawals :
  forall db : Database,
    (forall w, In w (withdrawals db) -> withdrawal_counts w = false) ->
    platform_revenue db = mkRevenueRow None 0 None None.
Proof.
  intros db Hnone. unfold platform_revenue.
  rewrite (filter_none withdrawal_counts (withdrawals db) Hnone). reflexivity.
Qed.

(** X16.  As soon as a withdrawal is sent or processing, and every row
    obeys the column checks of the table, the row of [platform_revenue] is
    free of NULLs: the total is the sum of the fees of the counted
    withdrawals, the smallest and largest fee are fees of such withdrawals,
    [0 <= min <= max], and the total lies between [count * min] and
    [count * max]. *)
Theorem platform_revenue_bounds :
  forall (db : Database) (w : Withdrawal),
    (forall x, In x (withdrawals db) -> withdrawal_checks x = true) ->
    In w (withdrawals db) -> withdrawal_counts w = true ->
    exists total lo hi,
      let counted := filter withdrawal_counts (withdrawals db) in
      platform_revenue db
      = mkRevenueRow (Some total) (List.length counted) (Some lo) (Some hi)
      /\ total = sum_Z (map w_fee_zec counted)
      /\ In lo (map w_fee_zec counted) /\ In hi (map w_fee_zec counted)
      /\ 0 <= lo <= hi
      /\ Z.of_nat (List.length counted) * lo <= total
         <= Z.of_nat (List.length counted) * hi.
Proof.
  intros db w Hchecks Hin Hcounts. cbv zeta. unfold platform_revenue, fee_column.
  assert (Hw : In w (filter withdrawal_counts (withdrawals db)))
    by (apply filter_In; split; assumption).
  assert (Hfees : forall y,
             In y (map w_fee_zec (filter withdrawal_counts (withdrawals db))) -> 0 <= y).
  { intros y Hy. apply in_map_iff in Hy. destruct Hy as (x & <- & Hx).
    apply filter_In in Hx. destruct Hx as [Hx _].
    destruct (withdrawal_checks_signs x (Hchecks x Hx)) as (_ & Hfee & _). exact Hfee. }
  rewrite <- (map_map w_fee_zec Some).
  rewrite <- (length_map w_fee_zec (filter withdrawal_counts (withdrawals db))).
  destruct (map w_fee_zec (filter withdrawal_counts (withdrawals db))) as [|x rest] eqn:Hcol.
  { apply (in_map w_fee_zec) in Hw. rewrite Hcol in Hw. contradiction. }
  destruct (aggregates_of_values x rest) as (lo & hi & Hsum & Hmin & Hmax & Hlo & Hhi & Hall).
  exists (sum_Z (x :: rest)), lo, hi. rewrite Hsum, Hmin, Hmax.
  split; [reflexivity|]. split; [reflexivity|]. split; [exact Hlo|]. split; [exact Hhi|].
  split.
  - split; [apply Hfees; exact Hlo | apply (Hall lo Hlo)].
  - apply sum_Z_bounds. exact Hall.
Qed.

(** X17.  Time only removes rows from [active_subscriptions]: over the
    same tables, a subscription listed at a later time is listed at every
    earlier time. *)
Theorem active_subscriptions_shrink_over_time :
  forall (db : Database) (earlier later : Timestamp) (row : SubscriptionRow),
    earlier <= later ->
    In row (active_subscriptions db later) ->
    In row (active_subscriptions db earlier).
Proof.
  intros db earlier later row Hle Hin. unfold active_subscriptions in *.
  apply in_map_iff in Hin. destruct Hin as (iu & Hrow & Hiu).
  apply in_map_iff. exists iu. split; [exact Hrow|].
  apply filter_In in Hiu. destruct Hiu as [Hjoin Hactive].
  apply filter_In. split; [exact Hjoin|].
  unfold subscription_is_active in *.
  apply andb_prop in Hactive. destruct Hactive as [Hkind Hdeadline].
  rewrite Hkind. cbn [andb].
  destruct (i_expires_at (fst iu)) as [deadline |]; [|reflexivity].
  apply Z.ltb_lt in Hdeadline. apply Z.ltb_lt. lia.
Qed.

Lemma one_user_per_invoice all uid :
  NoDup (map u_id all) ->
  existsb (fun u => Nat.eqb (u_id u) uid) all = true ->
  List.length (filter (fun u => Nat.eqb uid (u_id u)) all) = 1%nat.
Proof.
  induction all as [|u all IH]; intros Hnd Hex; [discriminate|].
  cbn [map existsb filter] in *. inversion Hnd as [|? ? Hfresh Hnd']; subst.
  rewrite (Nat.eqb_sym uid). destruct (Nat.eqb_spec (u_id u) uid) as [Heq | Hneq].
  - cbn [List.length]. f_equal. rewrite filter_none; [reflexivity|].
    intros x Hx. apply Nat.eqb_neq. intros Hid. apply Hfresh.
    rewrite Heq, Hid. apply in_map. exact Hx.
  - cbn [orb] in Hex. apply IH; assumption.
Qed.

(** X18.  With the primary key of [users] and the foreign key of
    [invoices], [active_subscriptions] has exactly one row per paid,
    unexpired subscription invoice: its join multiplies nothing. *)
Theorem active_subscriptions_one_row_per_invoice :
  forall (db : Database) (now : Timestamp),
    NoDup (map u_id (users db)) ->
    invoices_reference_users db ->
    List.length (active_subscriptions db now)
    = List.length (filter (subscription_is_active now) (invoices db)).
Proof.
  intros db now Hnd Hfk. unfold active_subscriptions, inner_join.
  rewrite length_map. unfold invoices_reference_users, user_exists in Hfk.
  induction (invoices db) as [|i rows IH]; [reflexivity|].
  cbn [flat_map filter]. rewrite filter_app, length_app, IH
    by (intros x Hx; apply Hfk; right; exact Hx).
  pose proof (one_user_per_invoice (users db) (i_user_id i) Hnd
                (Hfk i (or_introl eq_refl))) as Hone.
  destruct (filter (fun u => Nat.eqb (i_user_id i) (u_id u)) (users db))
    as [|u [|u' rest]]; try discriminate.
  cbn [map filter fst]. destruct (subscription_is_active now i); reflexivity.
Qed.

End OtherViews.

(* ===================================================================== *)
(** * The health check                                                    *)
(* ===================================================================== *)

Section HealthFacts.

Local Open Scope string_scope.
Local Open Scope list_scope.
Local Open Scope Z_scope.

(** How the handler answers an error object whose message is a string. *)
Lemma health_catch node ping now w e message w' :
  (_ <- await ping ;;
   blockchainInfo <- getBlockchainInfo node ;;
   blocks <- prop blockchainInfo "blocks" ;;
   chain <- prop blockchainInfo "chain" ;;
   ret (mkResponse 200
          (JObj [("status", JStr "OK");
                 ("timestamp", JStr now);
                 ("services",
                  JObj [("database", JStr "connected");
                        ("zcash_rpc", JStr "connected");
                        ("node_blocks", blocks);
                        ("node_chain", chain)]);
                 ("version", JStr "1.0.0")])))%async w = (Throw e, w') ->
  get_prop e "message" = Return (JStr message) ->
  health node ping now w = (Return (health_failure now message), w').
Proof.
  intros Htry Hmessage. unfold health, try_catch.
  rewrite Htry. unfold bind, prop, lift, ret. rewrite Hmessage. reflexivity.
Qed.

(** X19.  When the database answers and the node call fails, the handler
    responds 500 and reports [zcash_rpc: 'disconnected'], whatever the
    failure: every error of the gateway carries ["RPC"] in its message.
    The [database] flag of that response depends on the same message: it
    reads ['disconnected'] exactly when the message contains ["pool"]. *)
Theorem health_reports_node_failure :
  forall (node : Node) (value e : JsValue) (now : string) (w : World),
    fst (getBlockchainInfo node w) = Throw e ->
    exists message,
      health node (Resolves value) now w
      = (Return (mkResponse 500
                   (JObj [("status", JStr "ERROR");
                          ("timestamp", JStr now);
                          ("error", JStr message);
                          ("services",
                           JObj [("database",
                                  connection_word (includes_string "pool" message));
                                 ("zcash_rpc", JStr "disconnected")])])),
         w ++ [EvPost (mkRequest "getblockchaininfo" (JArr []))]).
Proof.
  intros node value e now w Hfail.
  pose proof (zcashRpc_log node "getblockchaininfo" (JArr []) w) as Hlog.
  unfold getBlockchainInfo in Hfail.
  destruct (zcashRpc_throws_http_or_connection node _ _ w e Hfail) as (text & Hkind).
  assert (Hrun : zcashRpc node "getblockchaininfo" (JArr []) w
                 = (Throw e, w ++ [EvPost (mkRequest "getblockchaininfo" (JArr []))])).
  { rewrite (surjective_pairing (zcashRpc node "getblockchaininfo" (JArr []) w)).
    rewrite Hfail, Hlog. reflexivity. }
  destruct Hkind as [-> | ->].
  - exists ("Zcash RPC HTTP Error: " ++ text)%string.
    rewrite (health_catch node (Resolves value) now w
               (new_Error ("Zcash RPC HTTP Error: " ++ text))
               ("Zcash RPC HTTP Error: " ++ text)%string
               (w ++ [EvPost (mkRequest "getblockchaininfo" (JArr []))])).
    + unfold health_failure.
      replace (includes_string "RPC" ("Zcash RPC HTTP Error: " ++ text)%string) with true
        by reflexivity.
      reflexivity.
    + unfold bind, await, ret, getBlockchainInfo. rewrite Hrun. reflexivity.
    + reflexivity.
  - exists ("Zcash RPC Connection Error: " ++ text)%string.
    rewrite (health_catch node (Resolves value) now w
               (new_Error ("Zcash RPC Connection Error: " ++ text))
               ("Zcash RPC Connection Error: " ++ text)%string
               (w ++ [EvPost (mkRequest "getblockchaininfo" (JArr []))])).
    + unfold health_failure.
      replace (includes_string "RPC" ("Zcash RPC Connection Error: " ++ text)%string)
        with true
        by reflexivity.
      reflexivity.
    + unfold bind, await, ret, getBlockchainInfo. rewrite Hrun. reflexivity.
    + reflexivity.
Qed.

(** X20.  When the database ping rejects with an error whose message is a
    string, the node is not asked at all, the handler responds 500, and the
    two service flags are read off that message alone: the database is
    reported ['disconnected'] only if the message contains ["pool"] -- a
    refused connection is reported as [database: 'connected'] -- and the
    node ['disconnected'] only if it contains ["RPC"]. *)
Theorem health_reports_database_failure :
  forall (node : Node) (error : JsValue) (message now : string) (w : World),
    get_prop error "message" = Return (JStr message) ->
    health node (Rejects error) now w = (Return (health_failure now message), w).
Proof.
  intros node error message now w Hmessage.
  apply (health_catch node (Rejects error) now w error message w); [|exact Hmessage].
  reflexivity.
Qed.

(** X21.  A rejection whose [message] is not a string or list (a missing
    message, as when the pool rejects with a bare string or a plain object)
    makes the [catch] block itself throw: the handler ends without sending
    any response. *)
Theorem health_without_message_sends_nothing :
  forall (node : Node) (error message : JsValue) (now : string) (w : World),
    get_prop error "message" = Return message ->
    (forall s, message <> JStr s) -> (forall xs, message <> JArr xs) ->
    exists e, health node (Rejects error) now w = (Throw e, w).
Proof.
  intros node error message now w Hmessage Hstr Harr.
  unfold health, try_catch, bind, await, throw, prop, lift. rewrite Hmessage.
  destruct message; cbn [message_includes]; try (eexists; reflexivity).
  - exfalso. exact (Hstr s eq_refl).
  - exfalso. exact (Harr xs eq_refl).
Qed.

(** X22.  The handler answers 200 only when the database ping resolved
    and the node returned chain information that is neither [null] nor
    [undefined]; every other response it sends is a 500. *)
Theorem health_ok_only_when_both_answer :
  forall (node : Node) (ping : Settled) (now : string) (w w' : World)
         (response : Response),
    health node ping now w = (Return response, w') ->
    (res_status response = 200
     /\ exists value info,
          ping = Resolves value
          /\ fst (getBlockchainInfo node w) = Return info
          /\ info <> JNull /\ info <> JUndefined)
    \/ res_status response = 500.
Proof.
  intros node ping now w w' response.
  assert (Hcatch : forall error w0,
             (message <- prop error "message" ;;
              message_db <- prop error "message" ;;
              pool <- lift (message_includes message_db "pool") ;;
              message_rpc <- prop error "message" ;;
              rpc <- lift (message_includes message_rpc "RPC") ;;
              ret (mkResponse 500
                     (JObj [("status", JStr "ERROR");
                            ("timestamp", JStr now);
                            ("error", message);
                            ("services",
                             JObj [("database", connection_word pool);
                                   ("zcash_rpc", connection_word rpc)])])))%async w0
             = (Return response, w') ->
             res_status response = 500).
  { intros error w0. unfold bind, prop, lift, ret.
    destruct (get_prop error "message") as [m | |]; try discriminate.
    destruct (message_includes m "pool"); try discriminate.
    destruct (message_includes m "RPC"); try discriminate.
    intros H. inversion H. reflexivity. }
  unfold health, try_catch.
  match goal with
  | |- (match ?body w with _ => _ end = _) -> _ =>
      destruct (body w) as [[r | e |] w1] eqn:Htry
  end.
  - intros H. inversion H. subst r w1. clear H. left.
    unfold bind at 1, await in Htry.
    destruct ping as [value | error]; [|discriminate].
    unfold ret at 1, bind at 1 in Htry.
    destruct (getBlockchainInfo node w) as [[info | e |] w1] eqn:Hnode;
      try discriminate.
    unfold bind, prop, lift, ret in Htry.
    destruct info; cbn [get_prop] in Htry; try discriminate;
      inversion Htry; (split; [reflexivity|]);
      eexists; eexists; repeat split; try reflexivity; discriminate.
  - intros H. right. exact (Hcatch e w1 H).
  - discriminate.
Qed.

End HealthFacts.

(* ===================================================================== *)
(** * The SDK configuration helpers                                       *)
(* ===================================================================== *)

Section ConfigFacts.

Local Open Scope string_scope.
Local Open Scope list_scope.
Local Open Scope Z_scope.

Lemma lookup_obj_set_same k v fields : lookup_field k (obj_set k v fields) = v.
Proof.
  induction fields as [|[k' v'] rest IH]; cbn [obj_set lookup_field].
  - rewrite String.eqb_refl. reflexivity.
  - destruct (String.eqb k k') eqn:E; cbn [lookup_field].
    + rewrite String.eqb_refl. reflexivity.
    + rewrite E. exact IH.
Qed.

Lemma lookup_obj_set_other k k' v fields :
  k <> k' -> lookup_field k (obj_set k' v fields) = lookup_field k fields.
Proof.
  intros Hneq. induction fields as [|[k0 v0] rest IH]; cbn [obj_set lookup_field].
  - apply String.eqb_neq in Hneq. rewrite Hneq. reflexivity.
  - destruct (String.eqb_spec k' k0) as [-> | Hk0]; cbn [lookup_field].
    + apply String.eqb_neq in Hneq. rewrite Hneq. reflexivity.
    + destruct (String.eqb k k0); [reflexivity | exact IH].
Qed.

Lemma lookup_field_absent k fields :
  ~ In k (map fst fields) -> lookup_field k fields = JUndefined.
Proof.
  induction fields as [|[k' v'] rest IH]; intros Hout; [reflexivity|].
  cbn [lookup_field map fst] in *. destruct (String.eqb_spec k k') as [-> | Hneq].
  - exfalso. apply Hout. left. reflexivity.
  - apply IH. intros Hin. apply Hout. right. exact Hin.
Qed.

(** A key the source does not carry keeps the value it had. *)
Lemma lookup_overlay_out k source :
  forall fields,
    ~ In k (map fst source) ->
    lookup_field k (fold_left (fun acc kv => obj_set (fst kv) (snd kv) acc) source fields)
    = lookup_field k fields.
Proof.
  induction source as [|[k1 v1] rest IH]; intros fields Hout; [reflexivity|].
  cbn [fold_left fst snd map] in *. rewrite IH.
  - apply lookup_obj_set_other. intros ->. apply Hout. left. reflexivity.
  - intros Hin. apply Hout. right. exact Hin.
Qed.

(** A key the source carries takes the value of the source. *)
Lemma lookup_overlay_in k source :
  forall fields,
    NoDup (map fst source) -> In k (map fst source) ->
    lookup_field k (fold_left (fun acc kv => obj_set (fst kv) (snd kv) acc) source fields)
    = lookup_field k source.
Proof.
  induction source as [|[k1 v1] rest IH]; intros fields Hnd Hin; [contradiction|].
  cbn [fold_left fst snd map lookup_field] in *.
  inversion Hnd as [|? ? Hfresh Hnd']; subst.
  destruct (String.eqb_spec k k1) as [-> | Hneq].
  - rewrite lookup_overlay_out by exact Hfresh. apply lookup_obj_set_same.
  - destruct Hin as [Heq | Hin]; [congruence|]. apply IH; assumption.
Qed.

(** [getDefaultConfig] yields the three fields whenever it returns. *)
Lemma getDefaultConfig_shape g defaults :
  getDefaultConfig g = Return defaults ->
  exists baseURL, defaults = default_config baseURL.
Proof.
  unfold getDefaultConfig, and_then.
  destruct (isNode g) as [node | |]; try discriminate.
  destruct (truthy node).
  - destruct (get_prop (g_process g) "env") as [env | |]; try discriminate.
    destruct (get_prop env "SDK_DEFAULT_BASE_URL"); try discriminate.
    destruct (get_prop env "API_BASE_URL"); try discriminate.
    destruct (get_prop env "PUBLIC_API_URL"); try discriminate.
    destruct (get_prop env "PORT"); try discriminate.
    intros H. inversion H. eexists. reflexivity.
  - destruct (isBrowser g); [|intros H; inversion H; eexists; reflexivity].
    destruct (get_prop (g_window g) "location") as [location | |]; try discriminate.
    destruct (truthy location); [|intros H; inversion H; eexists; reflexivity].
    destruct (get_prop location "protocol"); try discriminate.
    destruct (get_prop location "hostname"); try discriminate.
    destruct (get_prop location "port"); try discriminate.
    intros H. inversion H. eexists. reflexivity.
Qed.

Lemma resolveConfig_overlay :
  forall (g : Globals) (fields : list (string * JsValue)) (defaults : JsValue),
    getDefaultConfig g = Return defaults ->
    NoDup (map fst fields) ->
    exists resolved,
      resolveConfig g (JObj fields) = Return (JObj resolved)
      /\ (forall k, In k (map fst fields) ->
                    lookup_field k resolved = lookup_field k fields)
      /\ (forall k, ~ In k (map fst fields) ->
                    get_prop (JObj resolved) k = get_prop defaults k).
Proof.
  intros g fields defaults Hdefaults Hnd.
  destruct (getDefaultConfig_shape g defaults Hdefaults) as [b ->].
  unfold resolveConfig, and_then. rewrite Hdefaults.
  cbn [or_empty_object get_prop default_config lookup_field String.eqb Ascii.eqb Bool.eqb].
  eexists. split; [reflexivity|]. split.
  - intros k Hin. unfold spread. cbn [own_enumerable].
    apply lookup_overlay_in; assumption.
  - intros k Hout. cbn [get_prop]. f_equal. unfold spread. cbn [own_enumerable].
    rewrite lookup_overlay_out by exact Hout.
    cbn [lookup_field].
    destruct (String.eqb_spec k "baseURL") as [-> | _].
    { rewrite (lookup_field_absent "baseURL" fields Hout). reflexivity. }
    destruct (String.eqb_spec k "timeout") as [-> | _].
    { rewrite (lookup_field_absent "timeout" fields Hout). reflexivity. }
    destruct (String.eqb_spec k "apiKey") as [-> | _].
    { rewrite (lookup_field_absent "apiKey" fields Hout). reflexivity. }
    destruct (String.eqb_spec k "apiVersion") as [-> | _].
    { rewrite (lookup_field_absent "apiVersion" fields Hout). reflexivity. }
    reflexivity.
Qed.

(** X23.  [resolveConfig] is the defaults overlaid by the user's object:
    every key the user's object carries keeps the user's value -- a falsy
    one such as [timeout: 0] too, the [||] of the literal notwithstanding --
    and every other key reads as in the defaults. *)
Theorem resolveConfig_overlays_defaults :
  forall (g : Globals) (fields : list (string * JsValue)) (defaults : JsValue),
    getDefaultConfig g = Return defaults ->
    NoDup (map fst fields) ->
    exists resolved,
      resolveConfig g (JObj fields) = Return (JObj resolved)
      /\ (forall k, In k (map fst fields) ->
                    lookup_field k resolved = lookup_field k fields)
      /\ (forall k, ~ In k (map fst fields) ->
                    get_prop (JObj resolved) k = get_prop defaults k).
Proof. exact resolveConfig_overlay. Qed.

Lemma keys_obj_set k k' v fields :
  In k (map fst (obj_set k' v fields)) <-> k = k' \/ In k (map fst fields).
Proof.
  induction fields as [|[k0 v0] rest IH]; cbn [obj_set map fst In].
  - intuition congruence.
  - destruct (String.eqb_spec k' k0) as [-> | Hneq]; cbn [map fst In].
    + intuition congruence.
    + rewrite IH. intuition congruence.
Qed.

Lemma NoDup_obj_set k v fields :
  NoDup (map fst fields) -> NoDup (map fst (obj_set k v fields)).
Proof.
  induction fields as [|[k0 v0] rest IH]; intros Hnd; cbn [obj_set map fst].
  - constructor; [intros [] | constructor].
  - inversion Hnd as [|? ? Hfresh Hnd']; subst.
    destruct (String.eqb_spec k k0) as [-> | Hneq]; cbn [map fst].
    + constructor; assumption.
    + constructor; [|apply IH; exact Hnd'].
      intros Hin. apply keys_obj_set in Hin. destruct Hin as [-> | Hin]; auto.
Qed.

Lemma overlay_keys source :
  forall fields,
    NoDup (map fst fields) ->
    let result := fold_left (fun acc kv => obj_set (fst kv) (snd kv) acc) source fields in
    NoDup (map fst result)
    /\ forall k, In k (map fst result) <-> In k (map fst fields) \/ In k (map fst source).
Proof.
  induction source as [|[k1 v1] rest IH]; intros fields Hnd; cbv zeta.
  - cbn [fold_left map In]. split; [exact Hnd | intuition].
  - cbn [fold_left fst snd map In].
    destruct (IH (obj_set k1 v1 fields) (NoDup_obj_set k1 v1 fields Hnd)) as [Hnd' Hkeys].
    split; [exact Hnd'|]. intros k. rewrite Hkeys, keys_obj_set. intuition congruence.
Qed.

(** X24.  Resolving a resolved configuration changes nothing: every key
    reads in [resolveConfig(resolveConfig(c))] as it does in
    [resolveConfig(c)]. *)
Theorem resolveConfig_idempotent :
  forall (g : Globals) (fields : list (string * JsValue)) (once : JsValue),
    NoDup (map fst fields) ->
    resolveConfig g (JObj fields) = Return once ->
    exists twice,
      resolveConfig g once = Return twice
      /\ forall k, get_prop twice k = get_prop once k.
Proof.
  intros g fields once Hnd Honce.
  destruct (getDefaultConfig g) as [defaults | e |] eqn:Hdefaults;
    try (unfold resolveConfig, and_then in Honce; rewrite Hdefaults in Honce;
         discriminate).
  destruct (resolveConfig_overlay g fields defaults Hdefaults Hnd)
    as (resolved & Hrun & _ & _).
  rewrite Hrun in Honce. inversion Honce. subst once. clear Honce.
  assert (Hshape : NoDup (map fst resolved)
                   /\ forall k, In k (map fst resolved) <->
                                In k ["baseURL"; "timeout"; "apiKey"; "apiVersion"]
                                \/ In k (map fst fields)).
  { destruct (getDefaultConfig_shape g defaults Hdefaults) as [b ->].
    unfold resolveConfig, and_then in Hrun. rewrite Hdefaults in Hrun.
    cbn [or_empty_object get_prop default_config lookup_field String.eqb Ascii.eqb
           Bool.eqb] in Hrun.
    inversion Hrun as [Hresolved]. unfold spread. cbn [own_enumerable].
    apply (overlay_keys fields
             [("baseURL", js_or (lookup_field "baseURL" fields) b);
              ("timeout", js_or (lookup_field "timeout" fields) (JNum 30000));
              ("apiKey", lookup_field "apiKey" fields);
              ("apiVersion", js_or (lookup_field "apiVersion" fields) (JStr "v1"))]).
    repeat constructor; cbn [In]; intuition discriminate. }
  destruct Hshape as [Hnd1 Hkeys].
  destruct (resolveConfig_overlay g resolved defaults Hdefaults Hnd1)
    as (twice & Hrun2 & Hin & Hout).
  exists (JObj twice). split; [exact Hrun2|]. intros k.
  destruct (in_dec string_dec k (map fst resolved)) as [Hk | Hk].
  - cbn [get_prop]. f_equal. apply Hin. exact Hk.
  - rewrite (Hout k Hk). cbn [get_prop].
    rewrite (lookup_field_absent k resolved Hk).
    destruct (getDefaultConfig_shape g defaults Hdefaults) as [b ->].
    cbn [default_config get_prop]. f_equal. apply lookup_field_absent.
    cbn [map fst In]. intros Hbase. apply Hk. apply Hkeys. left.
    cbn [In]. tauto.
Qed.

(** X25.  In a browser (no [process] global, a [window] with a location)
    the default base URL always names a port: the port of the page, or 80
    when the page has none -- under [https:] as well.  The special case for
    port 3000 changes nothing. *)
Theorem getDefaultConfig_in_browser :
  forall (window location protocol hostname port : JsValue),
    get_prop window "location" = Return location ->
    truthy location = true ->
    get_prop location "protocol" = Return protocol ->
    get_prop location "hostname" = Return hostname ->
    get_prop location "port" = Return port ->
    getDefaultConfig (mkGlobals JUndefined window)
    = Return (default_config
                (JStr (to_string protocol ++ "//" ++ to_string hostname ++ ":"
                       ++ to_string (js_or port (JStr "80")))%string)).
Proof.
  intros window location protocol hostname port Hlocation Htruthy Hprotocol Hhostname Hport.
  unfold getDefaultConfig, isNode, isBrowser, and_then. cbn [g_process g_window truthy].
  assert (Hwindow : window <> JUndefined) by (intros ->; discriminate).
  destruct window; try congruence;
    rewrite Hlocation, Htruthy, Hprotocol, Hhostname, Hport;
    (destruct (strict_eq_str port "3000") eqn:H3000; [|reflexivity]);
    (destruct port; try discriminate; cbn [strict_eq_str] in H3000;
     apply String.eqb_eq in H3000; subst; reflexivity).
Qed.

(** X26.  [getDefaultConfig] throws only when the [process] or the
    [window] global is [null]: otherwise it returns an object with some
    base URL, [timeout: 30000] and [apiVersion: 'v1']. *)
Theorem getDefaultConfig_returns :
  forall g : Globals,
    g_process g <> JNull -> g_window g <> JNull ->
    exists baseURL, getDefaultConfig g = Return (default_config baseURL).
Proof.
  intros [process window] Hprocess Hwindow. cbn [g_process g_window] in *.
  assert (Htruthy : forall v k, truthy v = true ->
                                exists x, get_prop v k = Return x).
  { intros v k Ht. destruct v; try discriminate; eexists; reflexivity. }
  unfold getDefaultConfig, and_then.
  assert (Hnode : exists node, isNode (mkGlobals process window) = Return node).
  { unfold isNode. cbn [g_process].
    destruct process; try congruence; eexists; reflexivity. }
  destruct Hnode as [node Hnode]. rewrite Hnode.
  destruct (truthy node) eqn:Hnodetruthy.
  - assert (Henv : get_prop process "env" = Return node).
    { unfold isNode in Hnode. cbn [g_process] in Hnode.
      destruct process; try exact Hnode. inversion Hnode. subst. discriminate. }
    cbn [g_process]. rewrite Henv.
    destruct (Htruthy node "SDK_DEFAULT_BASE_URL" Hnodetruthy) as [a ->].
    destruct (Htruthy node "API_BASE_URL" Hnodetruthy) as [b ->].
    destruct (Htruthy node "PUBLIC_API_URL" Hnodetruthy) as [c ->].
    destruct (Htruthy node "PORT" Hnodetruthy) as [d ->].
    eexists. reflexivity.
  - unfold isBrowser. cbn [g_window].
    destruct window; try congruence; try (eexists; reflexivity);
      cbn [get_prop truthy]; try (eexists; reflexivity).
    destruct (truthy (lookup_field "location" fields)) eqn:Hloc;
      [|eexists; reflexivity].
    destruct (Htruthy _ "protocol" Hloc) as [a ->].
    destruct (Htruthy _ "hostname" Hloc) as [b ->].
    destruct (Htruthy _ "port" Hloc) as [c ->].
    eexists. reflexivity.
Qed.

Lemma get_prop_truthy v k : truthy v = true -> get_prop v k = Return (read_field v k).
Proof. destruct v; try discriminate; reflexivity. Qed.

Lemma interopRequireWildcard_returns e :
  exists module, interopRequireWildcard e = Return module.
Proof.
  unfold interopRequireWildcard, and_then.
  destruct (truthy e) eqn:He.
  - rewrite (get_prop_truthy e "__esModule" He).
    destruct (truthy (read_field e "__esModule")); [eexists; reflexivity|].
    destruct e; eexists; reflexivity.
  - rewrite He. destruct e; eexists; reflexivity.
Qed.

(** X27.  [getServerConfig] never throws.  When the server configuration
    cannot be loaded, or what is loaded has no [config.sdk] to read, it
    returns [null]; otherwise an object of the three fields. *)
Theorem getServerConfig_never_throws :
  forall required : Required,
    exists v,
      getServerConfig required = Return v
      /\ (v = JNull
          \/ exists baseURL timeout apiVersion,
               v = JObj [("baseURL", baseURL); ("timeout", timeout);
                         ("apiVersion", apiVersion)])
      /\ (forall error, required = LoadFails error -> v = JNull).
Proof.
  intros required. unfold getServerConfig.
  destruct required as [exports | error].
  2:{ exists JNull. cbn. repeat split; auto. }
  destruct (interopRequireWildcard_returns exports) as [module ->].
  cbn [and_then].
  assert (Hstep : forall v k (rest : JsValue -> Completion JsValue),
             (forall x, exists r, or_else (rest x) JNull = Return r
                                  /\ (r = JNull
                                      \/ exists baseURL timeout apiVersion,
                                           r = JObj [("baseURL", baseURL);
                                                     ("timeout", timeout);
                                                     ("apiVersion", apiVersion)])) ->
             exists r, or_else (and_then (get_prop v k) rest) JNull = Return r
                       /\ (r = JNull
                           \/ exists baseURL timeout apiVersion,
                                r = JObj [("baseURL", baseURL);
                                          ("timeout", timeout);
                                          ("apiVersion", apiVersion)])).
  { intros v k rest Hrest. destruct v; cbn [get_prop and_then or_else];
      try (exists JNull; split; [reflexivity | left; reflexivity]); apply Hrest. }
  assert (Hall : exists r,
             or_else
               (and_then (get_prop module "config") (fun config =>
                and_then (get_prop config "sdk") (fun sdk =>
                and_then (get_prop sdk "publicApiUrl") (fun baseURL =>
                and_then (get_prop config "sdk") (fun sdk' =>
                and_then (get_prop sdk' "defaultTimeout") (fun timeout =>
                and_then (get_prop config "sdk") (fun sdk'' =>
                and_then (get_prop sdk'' "apiVersion") (fun apiVersion =>
                Return (JObj [("baseURL", baseURL); ("timeout", timeout);
                              ("apiVersion", apiVersion)])))))))))
               JNull = Return r
             /\ (r = JNull
                 \/ exists baseURL timeout apiVersion,
                      r = JObj [("baseURL", baseURL); ("timeout", timeout);
                                ("apiVersion", apiVersion)])).
  { apply Hstep. intros config. apply Hstep. intros sdk. apply Hstep. intros baseURL.
    apply Hstep. intros sdk'. apply Hstep. intros timeout.
    apply Hstep. intros sdk''. apply Hstep. intros apiVersion.
    eexists. split; [reflexivity|]. right. eauto. }
  destruct Hall as (r & Hr & Hshape). exists r. split; [exact Hr|].
  split; [exact Hshape | discriminate].
Qed.

(** X28.  [fetchServerConfig] never throws and sends exactly one GET, to
    [`${baseURL}/api/config`] with a timeout of 5000 ms.  Whenever the
    request is not answered with a 2xx response the result is [null]; so
    it is for a 2xx response whose body is [null] (or [undefined]), where
    reading [sdk] throws.  For a body that is an object the result is its
    [sdk] field, and for any other body -- the empty text of a response
    without content, a number, a list -- it is [undefined], not [null]. *)
Theorem fetchServerConfig_never_throws :
  forall (server : Server) (baseURL : JsValue) (log : list ClientEvent),
    let url := (to_string baseURL ++ "/api/config")%string in
    exists v,
      fetchServerConfig server baseURL log = (Return v, log ++ [EvGet url 5000])
      /\ ((forall status statusText data,
              server log url <> Fulfilled status statusText data) ->
          v = JNull)
      /\ (forall status statusText data,
             server log url = Fulfilled status statusText data ->
             match data with
             | JNull | JUndefined => v = JNull
             | JObj fields => v = lookup_field "sdk" fields
             | JBool _ | JNum _ | JDec _ _ | JStr _ | JArr _ => v = JUndefined
             end).
Proof.
  intros server baseURL log url. unfold fetchServerConfig. fold url.
  destruct (server log url) as [status statusText data | message status statusText data
                               | message] eqn:Hserver; cbn [axios_completion and_then].
  - cbn [response_object get_prop lookup_field String.eqb Ascii.eqb Bool.eqb and_then].
    destruct data; cbn [get_prop or_else]; eexists;
      (split; [reflexivity|]);
      (split; [intros H; exfalso; eapply H; reflexivity|]);
      intros st0 tx0 d0 Heq; inversion Heq; subst; reflexivity.
  - exists JNull. cbn [or_else]. repeat split; auto. intros s t d Heq. discriminate.
  - exists JNull. cbn [or_else]. repeat split; auto. intros s t d Heq. discriminate.
Qed.

Lemma fetchServerConfig_cases server baseURL log :
  exists v,
    fetchServerConfig server baseURL log
    = (Return v, log ++ [EvGet (to_string baseURL ++ "/api/config")%string 5000])
    /\ ((forall status statusText data,
            server log (to_string baseURL ++ "/api/config")%string
            <> Fulfilled status statusText data) -> v = JNull)
    /\ (forall status statusText data sdk,
           server log (to_string baseURL ++ "/api/config")%string
           = Fulfilled status statusText data ->
           get_prop data "sdk" = Return sdk -> v = sdk).
Proof.
  unfold fetchServerConfig.
  destruct (server log (to_string baseURL ++ "/api/config")%string)
    as [status statusText data | message status statusText data | message];
    cbn [axios_completion and_then].
  - cbn [response_object get_prop lookup_field String.eqb Ascii.eqb Bool.eqb and_then].
    destruct (get_prop data "sdk") as [sdk | e |] eqn:Hsdk.
    + exists sdk. cbn [or_else]. split; [reflexivity|]. split.
      * intros H. exfalso. eapply H. reflexivity.
      * intros s t d sdk' Heq Hd. inversion Heq. subst. congruence.
    + exists JNull. cbn [or_else]. split; [reflexivity|]. split.
      * intros H. exfalso. eapply H. reflexivity.
      * intros s t d sdk' Heq Hd. inversion Heq. subst. congruence.
    + exfalso. exact (get_prop_fuel _ _ Hsdk).
  - exists JNull. cbn [or_else]. repeat split; auto. intros s t d sdk Heq. discriminate.
  - exists JNull. cbn [or_else]. repeat split; auto. intros s t d sdk Heq. discriminate.
Qed.

(** X29.  [createWithServerConfig] never throws, and in what it returns
    every key of [overrides] keeps the value [overrides] gives it.  When
    the server cannot be reached, the remaining keys are the [baseURL]
    passed in and [timeout: 30000] -- and nothing else: no [apiVersion]. *)
Theorem createWithServerConfig_overrides_win :
  forall (server : Server) (baseURL : JsValue) (fields : list (string * JsValue))
         (log : list ClientEvent),
    NoDup (map fst fields) ->
    let url := (to_string baseURL ++ "/api/config")%string in
    exists config,
      createWithServerConfig server baseURL (JObj fields) log
      = (Return (JObj config), log ++ [EvGet url 5000])
      /\ (forall k, In k (map fst fields) ->
                    lookup_field k config = lookup_field k fields)
      /\ ((forall status statusText data,
              server log url <> Fulfilled status statusText data) ->
          forall k, ~ In k (map fst fields) ->
                    lookup_field k config
                    = lookup_field k [("baseURL", baseURL); ("timeout", JNum 30000)]).
Proof.
  intros server baseURL fields log Hnd url. unfold createWithServerConfig.
  destruct (fetchServerConfig_cases server baseURL log) as (v & -> & Hnull & _).
  fold url in Hnull. cbn [or_empty_object].
  destruct (truthy v) eqn:Hv.
  - rewrite !(get_prop_truthy v _ Hv). cbn [and_then].
    eexists. split; [reflexivity|]. split.
    + intros k Hk. unfold spread. cbn [own_enumerable].
      apply lookup_overlay_in; assumption.
    + intros Hdown. rewrite (Hnull Hdown) in Hv. discriminate.
  - eexists. split; [reflexivity|]. split.
    + intros k Hk. unfold spread. cbn [own_enumerable].
      apply lookup_overlay_in; assumption.
    + intros _ k Hk. unfold spread. cbn [own_enumerable].
      apply lookup_overlay_out. exact Hk.
Qed.

(** X30.  When the server answers with a configuration, it is the base
    URL of that configuration -- not the one the caller passed in, which
    only served to reach the server -- that ends up in the result, along
    with the server's [timeout] and [apiVersion], unless [overrides] names
    the key. *)
Theorem createWithServerConfig_prefers_server :
  forall (server : Server) (baseURL : JsValue) (fields : list (string * JsValue))
         (log : list ClientEvent) (status : Z) (statusText : string)
         (data sdk : JsValue),
    server log (to_string baseURL ++ "/api/config")%string = Fulfilled status statusText data ->
    get_prop data "sdk" = Return sdk ->
    truthy sdk = true ->
    exists config,
      fst (createWithServerConfig server baseURL (JObj fields) log)
      = Return (JObj config)
      /\ forall k, ~ In k (map fst fields) ->
                   lookup_field k config
                   = lookup_field k [("baseURL", read_field sdk "baseURL");
                                     ("timeout", read_field sdk "timeout");
                                     ("apiVersion", read_field sdk "apiVersion")].
Proof.
  intros server baseURL fields log status statusText data sdk Hserver Hsdk Htruthy.
  unfold createWithServerConfig.
  destruct (fetchServerConfig_cases server baseURL log) as (v & -> & _ & Hvalue).
  rewrite (Hvalue status statusText data sdk Hserver Hsdk).
  cbn [or_empty_object]. rewrite Htruthy, !(get_prop_truthy sdk _ Htruthy).
  cbn [and_then fst]. eexists. split; [reflexivity|].
  intros k Hk. unfold spread. cbn [own_enumerable].
  apply lookup_overlay_out. exact Hk.
Qed.

End ConfigFacts.

Section FurtherWrappers.

Local Open Scope string_scope.
Local Open Scope list_scope.
Local Open Scope Z_scope.

(** X1.  Whatever goes wrong in a call, what [zcashRpc] throws is an
    [Error] whose message starts with ["Zcash RPC HTTP Error: "] or with
    ["Zcash RPC Connection Error: "] -- no other error, and none under the
    prefix ["Zcash RPC Error: "], ever leaves it -- and one request was
    posted. *)
Theorem zcashRpc_errors_are_http_or_connection :
  forall (node : Node) (method : string) (params : JsValue) (w w' : World)
         (e : JsValue),
    zcashRpc node method params w = (Throw e, w') ->
    w' = w ++ [EvPost (mkRequest method params)]
    /\ exists text,
         e = new_Error ("Zcash RPC HTTP Error: " ++ text)
         \/ e = new_Error ("Zcash RPC Connection Error: " ++ text).
Proof.
  intros node method params w w' e Hrun. split.
  - rewrite <- (zcashRpc_log node method params w), Hrun. reflexivity.
  - apply (zcashRpc_throws_http_or_connection node method params w).
    rewrite Hrun. reflexivity.
Qed.

(** X14.  For a user with at most one paid invoice and at most one sent or
    processing withdrawal, the available balance of [user_balances] is the
    sum of the paid amounts minus the sum of the withdrawn amounts. *)
Theorem user_balances_exact_without_pairs :
  forall (db : Database) (u : User),
    NoDup (map u_id (users db)) -> In u (users db) ->
    (List.length (paid_invoices_of db u) <= 1)%nat ->
    (List.length (counted_withdrawals_of db u) <= 1)%nat ->
    view_available_balance db (u_id u)
    = Some (sum_Z (map (fun i => coalesce (i_paid_amount_zec i) 0)
                     (paid_invoices_of db u))
            - sum_Z (map w_amount_zec (counted_withdrawals_of db u))).
Proof.
  intros db u Hnd Hin Hi Hw.
  rewrite (user_balances_counts_sums_per_pair db u Hnd Hin).
  replace (Nat.max 1 (List.length (counted_withdrawals_of db u))) with 1%nat by lia.
  replace (Nat.max 1 (List.length (paid_invoices_of db u))) with 1%nat by lia.
  f_equal. lia.
Qed.

End FurtherWrappers.

(* ===================================================================== *)
(** * Sample runs of the further properties                               *)
(* ===================================================================== *)

Section FurtherRuns.

Local Open Scope string_scope.
Local Open Scope list_scope.
Local Open Scope Z_scope.

Lemma zcashRpc_errors_are_http_or_connection_witness :
  [EvPost (mkRequest "getblockchaininfo" (JArr []))]
  = [] ++ [EvPost (mkRequest "getblockchaininfo" (JArr []))]
  /\ exists text,
       new_Error "Zcash RPC HTTP Error: 500 - Internal Server Error"
       = new_Error ("Zcash RPC HTTP Error: " ++ text)
       \/ new_Error "Zcash RPC HTTP Error: 500 - Internal Server Error"
          = new_Error ("Zcash RPC Connection Error: " ++ text).
Proof.
  apply (zcashRpc_errors_are_http_or_connection failing_node "getblockchaininfo"
           (JArr []) []).
  reflexivity.
Defined.

Lemma zcashRpc_status_error_drops_body_witness :
  zcashRpc failing_node "z_sendmany" (JArr []) []
  = (Throw (new_Error ("Zcash RPC HTTP Error: " ++ decimal 500
                       ++ " - " ++ "Internal Server Error")),
     [] ++ [EvPost (mkRequest "z_sendmany" (JArr []))]).
Proof.
  apply (zcashRpc_status_error_drops_body failing_node "z_sendmany" (JArr []) []
           "Request failed with status code 500" 500 "Internal Server Error"
           (rpc_error_body (-8) "Invalid parameter")).
  reflexivity.
Defined.

Lemma zcashRpc_null_body_is_connection_error_witness :
  fst (zcashRpc (scripted_node [Fulfilled 200 "OK" JNull]) "getblockchaininfo" (JArr []) [])
  = Throw (new_Error ("Zcash RPC Connection Error: Cannot read properties of "
                      ++ to_string JNull ++ " (reading 'error')")).
Proof.
  apply (zcashRpc_null_body_is_connection_error
           (scripted_node [Fulfilled 200 "OK" JNull]) "getblockchaininfo" (JArr []) []
           200 "OK" JNull).
  - reflexivity.
  - left. reflexivity.
Defined.

Lemma zcashRpc_non_object_body_yields_undefined_witness :
  zcashRpc (scripted_node [Fulfilled 200 "OK" (JStr "pong")]) "ping" (JArr []) []
  = (Return JUndefined, [] ++ [EvPost (mkRequest "ping" (JArr []))]).
Proof.
  apply (zcashRpc_non_object_body_yields_undefined
           (scripted_node [Fulfilled 200 "OK" (JStr "pong")]) "ping" (JArr []) []
           200 "OK" (JStr "pong")).
  - reflexivity.
  - discriminate.
  - discriminate.
  - discriminate.
Defined.

Lemma waitForOperation_without_budget_witness :
  waitForOperation failing_node "opid-1" 0 2500 []
  = (Throw (timeout_error "opid-1" 0), []).
Proof.
  apply (waitForOperation_without_budget failing_node "opid-1" 0 2500 []). lia.
Defined.

Lemma waitForOperation_aborts_on_failed_query_witness :
  waitForOperation (scripted_node [polled "queued"]) "opid-1" 50 2500 []
  = (Throw (new_Error
              "Zcash RPC Connection Error: connect ECONNREFUSED 127.0.0.1:8232"),
     [] ++ polls (status_query "opid-1") 2500 1 ++ [EvPost (status_query "opid-1")]).
Proof.
  apply (waitForOperation_aborts_on_failed_query (scripted_node [polled "queued"])
           "opid-1" 50 2500 [] 1%nat).
  - lia.
  - intros [|j] Hj; [|lia].
    exists (operation_object "queued"), (JStr "queued").
    split; [split; reflexivity | left; reflexivity].
  - reflexivity.
Defined.

Lemma getOperationStatus_without_list_throws_witness :
  getOperationStatus (scripted_node [Fulfilled 200 "OK" (rpc_body JNull)]) "opid-1" []
  = (Throw (type_error JNull "0"), [] ++ [EvPost (status_query "opid-1")]).
Proof.
  apply (getOperationStatus_without_list_throws
           (scripted_node [Fulfilled 200 "OK" (rpc_body JNull)]) "opid-1" []
           200 "OK" (rpc_body JNull) JNull JNull).
  - reflexivity.
  - reflexivity.
  - reflexivity.
  - reflexivity.
  - left. reflexivity.
Defined.

Lemma retryWithBackoff_negative_budget_witness :
  retryWithBackoff flaky_fn (-1) 1000 [] = (Throw JUndefined, []).
Proof. apply (retryWithBackoff_negative_budget flaky_fn (-1) 1000 []). lia. Defined.

Lemma flaky_fn_rejects_along :
  rejects_along flaky_fn 1000 [] 0
    [new_Error "socket hang up"; coded_error "ECONNRESET" "read ECONNRESET"].
Proof.
  split; [reflexivity|]. split; [exists JUndefined; split; reflexivity|].
  split; [reflexivity|]. split; [exists (JStr "ECONNRESET"); split; reflexivity|].
  exact I.
Defined.

Lemma retryWithBackoff_succeeds_after_failures_witness :
  retryWithBackoff flaky_fn 3 1000 []
  = (Return (JNum 7),
     [] ++ failed_attempts 1000 0
             [new_Error "socket hang up"; coded_error "ECONNRESET" "read ECONNRESET"]
        ++ [EvCall (Resolves (JNum 7))])
  /\ sum_Z (sleeps (failed_attempts 1000 0
                      [new_Error "socket hang up";
                       coded_error "ECONNRESET" "read ECONNRESET"]
                    ++ [EvCall (Resolves (JNum 7))]))
     = 1000 * (2 ^ Z.of_nat 2 - 1).
Proof.
  apply (retryWithBackoff_succeeds_after_failures flaky_fn 3 1000 []
           [new_Error "socket hang up"; coded_error "ECONNRESET" "read ECONNRESET"]
           (JNum 7)).
  - exact flaky_fn_rejects_along.
  - cbn. lia.
  - reflexivity.
Defined.

Lemma always_failing_rejects_along :
  rejects_along always_failing 1000 [] 0
    [new_Error "socket hang up"; new_Error "socket hang up"].
Proof.
  split; [reflexivity|]. split; [exists JUndefined; split; reflexivity|].
  split; [reflexivity|]. split; [exists JUndefined; split; reflexivity|].
  exact I.
Defined.

Lemma retryWithBackoff_exhausts_budget_witness :
  retryWithBackoff always_failing 2 1000 []
  = (Throw (new_Error "socket hang up"),
     [] ++ failed_attempts 1000 0
             [new_Error "socket hang up"; new_Error "socket hang up"]
        ++ [EvCall (Rejects (new_Error "socket hang up"))])
  /\ sum_Z (sleeps (failed_attempts 1000 0
                      [new_Error "socket hang up"; new_Error "socket hang up"]
                    ++ [EvCall (Rejects (new_Error "socket hang up"))]))
     = 1000 * (2 ^ 2 - 1).
Proof.
  apply (retryWithBackoff_exhausts_budget always_failing 2 1000 []
           [new_Error "socket hang up"; new_Error "socket hang up"]
           (new_Error "socket hang up")).
  - exact always_failing_rejects_along.
  - reflexivity.
  - reflexivity.
Defined.

Lemma null_after_failure_rejects_along :
  rejects_along null_after_failure 1000 [] 0 [new_Error "socket hang up"].
Proof.
  split; [reflexivity|]. split; [exists JUndefined; split; reflexivity|]. exact I.
Defined.

Lemma retryWithBackoff_nullish_rejection_witness :
  retryWithBackoff null_after_failure 3 1000 []
  = (Throw (type_error JNull "code"),
     [] ++ failed_attempts 1000 0 [new_Error "socket hang up"]
        ++ [EvCall (Rejects JNull)]).
Proof.
  apply (retryWithBackoff_nullish_rejection null_after_failure 3 1000 []
           [new_Error "socket hang up"] JNull).
  - exact null_after_failure_rejects_along.
  - cbn. lia.
  - reflexivity.
  - left. reflexivity.
Defined.

Lemma sample_user_key : NoDup (map u_id [sample_user]).
Proof. constructor; [intros [] | constructor]. Defined.

Lemma user_balances_one_row_per_user_witness :
  NoDup (map b_id (user_balances three_users))
  /\ List.length (user_balances three_users) = 3%nat
  /\ (forall u, In u (users three_users) ->
                exists row, In row (user_balances three_users)
                            /\ b_id row = u_id u
                            /\ b_email row = u_email u
                            /\ b_name row = u_name u)
  /\ (forall row, In row (user_balances three_users) ->
                  exists u, In u (users three_users) /\ b_id row = u_id u).
Proof.
  apply (user_balances_one_row_per_user three_users).
  repeat constructor; cbn; intuition discriminate.
Defined.

Lemma user_balances_row_columns_witness :
  balance_row two_by_two 1%nat
  = Some (mkBalanceRow 1%nat (Some "creator@example.com") (Some "Content Creator")
            600000000 150000000 450000000 4 4).
Proof.
  apply (user_balances_row_columns two_by_two sample_user).
  - exact sample_user_key.
  - left. reflexivity.
Defined.

Lemma user_balances_exact_without_pairs_witness :
  view_available_balance one_by_one 1%nat
  = Some (sum_Z (map (fun i => coalesce (i_paid_amount_zec i) 0)
                   (paid_invoices_of one_by_one sample_user))
          - sum_Z (map w_amount_zec (counted_withdrawals_of one_by_one sample_user))).
Proof.
  apply (user_balances_exact_without_pairs one_by_one sample_user).
  - exact sample_user_key.
  - left. reflexivity.
  - cbn. lia.
  - cbn. lia.
Defined.

Lemma platform_revenue_without_withdrawals_witness :
  platform_revenue only_pending = mkRevenueRow None 0 None None.
Proof.
  apply (platform_revenue_without_withdrawals only_pending).
  intros w [<- | []]. reflexivity.
Defined.

Lemma platform_revenue_bounds_witness :
  exists total lo hi,
    platform_revenue two_by_two
    = mkRevenueRow (Some total)
        (List.length (filter withdrawal_counts (withdrawals two_by_two)))
        (Some lo) (Some hi)
    /\ total = sum_Z (map w_fee_zec (filter withdrawal_counts (withdrawals two_by_two)))
    /\ In lo (map w_fee_zec (filter withdrawal_counts (withdrawals two_by_two)))
    /\ In hi (map w_fee_zec (filter withdrawal_counts (withdrawals two_by_two)))
    /\ 0 <= lo <= hi
    /\ Z.of_nat (List.length (filter withdrawal_counts (withdrawals two_by_two))) * lo
       <= total
       <= Z.of_nat (List.length (filter withdrawal_counts (withdrawals two_by_two))) * hi.
Proof.
  apply (platform_revenue_bounds two_by_two (sample_withdrawal 1%nat WdSent 50000000 500000)).
  - intros x [<- | [<- | []]]; reflexivity.
  - left. reflexivity.
  - reflexivity.
Defined.

Lemma active_subscriptions_shrink_over_time_witness :
  In (mkSubscriptionRow 1%nat (Some "creator@example.com") (Some 1000)
        (Some 100000000) 5)
     (active_subscriptions store_subscribed 100).
Proof.
  apply (active_subscriptions_shrink_over_time store_subscribed 100 999).
  - lia.
  - left. reflexivity.
Defined.

Lemma active_subscriptions_one_row_per_invoice_witness :
  List.length (active_subscriptions store_subscribed 100)
  = List.length (filter (subscription_is_active 100) (invoices store_subscribed)).
Proof.
  apply (active_subscriptions_one_row_per_invoice store_subscribed 100).
  - exact sample_user_key.
  - intros i [<- | []]. reflexivity.
Defined.

Lemma health_reports_node_failure_witness :
  exists message,
    health failing_node (Resolves JUndefined) "2025-01-01T00:00:00.000Z" []
    = (Return (mkResponse 500
                 (JObj [("status", JStr "ERROR");
                        ("timestamp", JStr "2025-01-01T00:00:00.000Z");
                        ("error", JStr message);
                        ("services",
                         JObj [("database",
                                connection_word (includes_string "pool" message));
                               ("zcash_rpc", JStr "disconnected")])])),
       [] ++ [EvPost (mkRequest "getblockchaininfo" (JArr []))]).
Proof.
  apply (health_reports_node_failure failing_node JUndefined
           (new_Error "Zcash RPC HTTP Error: 500 - Internal Server Error")
           "2025-01-01T00:00:00.000Z" []).
  reflexivity.
Defined.

Lemma health_reports_database_failure_witness :
  health healthy_node (Rejects database_down) "2025-01-01T00:00:00.000Z" []
  = (Return (health_failure "2025-01-01T00:00:00.000Z"
               "connect ECONNREFUSED 127.0.0.1:5432"), []).
Proof.
  apply (health_reports_database_failure healthy_node database_down
           "connect ECONNREFUSED 127.0.0.1:5432" "2025-01-01T00:00:00.000Z" []).
  reflexivity.
Defined.

Lemma health_without_message_sends_nothing_witness :
  exists e,
    health healthy_node (Rejects (JStr "pool exhausted")) "2025-01-01T00:00:00.000Z" []
    = (Throw e, []).
Proof.
  apply (health_without_message_sends_nothing healthy_node (JStr "pool exhausted")
           JUndefined "2025-01-01T00:00:00.000Z" []).
  - reflexivity.
  - discriminate.
  - discriminate.
Defined.

Lemma health_ok_only_when_both_answer_witness :
  (res_status (health_failure "2025-01-01T00:00:00.000Z"
                 "connect ECONNREFUSED 127.0.0.1:5432") = 200
   /\ exists value info,
        Rejects database_down = Resolves value
        /\ fst (getBlockchainInfo healthy_node []) = Return info
        /\ info <> JNull /\ info <> JUndefined)
  \/ res_status (health_failure "2025-01-01T00:00:00.000Z"
                   "connect ECONNREFUSED 127.0.0.1:5432") = 500.
Proof.
  apply (health_ok_only_when_both_answer healthy_node (Rejects database_down)
           "2025-01-01T00:00:00.000Z" [] []).
  reflexivity.
Defined.

Lemma zero_timeout_keys : NoDup (map fst zero_timeout).
Proof.
  repeat constructor; cbn [In]; intuition discriminate.
Defined.

Lemma resolveConfig_overlays_defaults_witness :
  exists resolved,
    resolveConfig (mkGlobals node_process JUndefined) (JObj zero_timeout)
    = Return (JObj resolved)
    /\ (forall k, In k (map fst zero_timeout) ->
                  lookup_field k resolved = lookup_field k zero_timeout)
    /\ (forall k, ~ In k (map fst zero_timeout) ->
                  get_prop (JObj resolved) k
                  = get_prop (default_config (JStr "http://localhost:8080")) k).
Proof.
  apply (resolveConfig_overlays_defaults (mkGlobals node_process JUndefined)
           zero_timeout (default_config (JStr "http://localhost:8080"))).
  - reflexivity.
  - exact zero_timeout_keys.
Defined.

Lemma resolveConfig_idempotent_witness :
  exists twice,
    resolveConfig (mkGlobals node_process JUndefined)
      (JObj [("baseURL", JStr "http://localhost:8080"); ("timeout", JNum 0);
             ("apiKey", JStr "zp_test_key_12345"); ("apiVersion", JStr "v1")])
    = Return twice
    /\ forall k,
         get_prop twice k
         = get_prop (JObj [("baseURL", JStr "http://localhost:8080"); ("timeout", JNum 0);
                           ("apiKey", JStr "zp_test_key_12345");
                           ("apiVersion", JStr "v1")]) k.
Proof.
  apply (resolveConfig_idempotent (mkGlobals node_process JUndefined) zero_timeout).
  - exact zero_timeout_keys.
  - reflexivity.
Defined.

Lemma getDefaultConfig_in_browser_witness :
  getDefaultConfig (mkGlobals JUndefined https_page)
  = Return (default_config
              (JStr (to_string (JStr "https:") ++ "//" ++ to_string (JStr "shop.example")
                     ++ ":" ++ to_string (js_or (JStr "") (JStr "80"))))).
Proof.
  apply (getDefaultConfig_in_browser https_page
           (JObj [("protocol", JStr "https:"); ("hostname", JStr "shop.example");
                  ("port", JStr "")])
           (JStr "https:") (JStr "shop.example") (JStr "")); reflexivity.
Defined.

Lemma getDefaultConfig_returns_witness :
  exists baseURL,
    getDefaultConfig (mkGlobals node_process https_page)
    = Return (default_config baseURL).
Proof.
  apply (getDefaultConfig_returns (mkGlobals node_process https_page)); discriminate.
Defined.

Lemma createWithServerConfig_overrides_win_witness :
  exists config,
    createWithServerConfig server_down (JStr "http://localhost:3000")
      (JObj zero_timeout) []
    = (Return (JObj config),
       [] ++ [EvGet (to_string (JStr "http://localhost:3000") ++ "/api/config") 5000])
    /\ (forall k, In k (map fst zero_timeout) ->
                  lookup_field k config = lookup_field k zero_timeout)
    /\ ((forall status statusText data,
            server_down []
              (to_string (JStr "http://localhost:3000") ++ "/api/config")%string
            <> Fulfilled status statusText data) ->
        forall k, ~ In k (map fst zero_timeout) ->
                  lookup_field k config
                  = lookup_field k [("baseURL", JStr "http://localhost:3000");
                                    ("timeout", JNum 30000)]).
Proof.
  apply (createWithServerConfig_overrides_win server_down (JStr "http://localhost:3000")
           zero_timeout []).
  exact zero_timeout_keys.
Defined.

Lemma createWithServerConfig_prefers_server_witness :
  exists config,
    fst (createWithServerConfig config_server (JStr "http://localhost:3000")
           (JObj zero_timeout) [])
    = Return (JObj config)
    /\ forall k, ~ In k (map fst zero_timeout) ->
                 lookup_field k config
                 = lookup_field k [("baseURL", read_field served_config "baseURL");
                                   ("timeout", read_field served_config "timeout");
                                   ("apiVersion", read_field served_config "apiVersion")].
Proof.
  apply (createWithServerConfig_prefers_server config_server
           (JStr "http://localhost:3000") zero_timeout [] 200 "OK"
           (JObj [("sdk", served_config)]) served_config); reflexivity.
Defined.

End FurtherRuns.
